(** * httpx [_urlparse.py]: a shallow embedding and its properties

    The module parses, validates and normalises URLs (RFC 3986).  Python
    strings are sequences of Unicode code points, so a string is a list of
    code points here; exceptions are the [Raise] case of a result type; the
    [**kwargs] dictionary is an insertion-ordered association list.

    Three behaviours of the run time are too large to write out and are
    taken as a parameter, the record [runtime]: [idna.encode] (a third
    party package), and [str.lower] and [int] on text that is not ASCII
    (Unicode tables).  On ASCII text [str.lower] and [int] are defined
    here.  The [ipaddress] module is modelled as CPython 3.9.5 and later
    define it (zone identifiers accepted, leading zeros refused), and [int]
    and [str] as CPython 3.11 and later do: they convert at most 4300
    decimal digits. *)

From Stdlib Require Import ZArith NArith List String Ascii Bool Lia.
From Stdlib Require Import DecimalN.
Import ListNotations.

Set Implicit Arguments.
Local Open Scope N_scope.

(** ** Strings *)

(** A character is its code point, and a string the list of its characters. *)
Abbreviation char := N (only parsing).
Abbreviation str := (list N) (only parsing).

(** A literal of the source, as code points. *)
Definition lit (s : string) : str := map N_of_ascii (list_ascii_of_string s).

Definition char_in (c : char) (s : str) : bool := existsb (N.eqb c) s.

Fixpoint str_eqb (a b : str) : bool :=
  match a, b with
  | [], [] => true
  | x :: a', y :: b' => (x =? y) && str_eqb a' b'
  | _, _ => false
  end.

Definition nonempty (A : Type) (l : list A) : bool :=
  match l with [] => false | _ :: _ => true end.

Definition in_range (lo hi c : char) : bool := (lo <=? c) && (c <=? hi).

Definition is_digit (c : char) : bool := in_range 48 57 c.
Definition is_upper (c : char) : bool := in_range 65 90 c.
Definition is_lower (c : char) : bool := in_range 97 122 c.
Definition is_alpha (c : char) : bool := is_upper c || is_lower c.
Definition is_hex (c : char) : bool :=
  is_digit c || in_range 65 70 c || in_range 97 102 c.

(** [char.isascii()] and [char.isprintable()] on an ASCII character. *)
Definition isascii (c : char) : bool := c <? 128.
Definition isprintable_ascii (c : char) : bool := in_range 32 126 c.

Definition ascii_lower (c : char) : char := if is_upper c then c + 32 else c.
Definition ascii_upper (c : char) : char := if is_lower c then c - 32 else c.

(** [str.count(c)] for a one character [c]. *)
Definition count (c : char) (s : str) : nat := List.length (filter (N.eqb c) s).

(** [str.startswith(c)] and [str.endswith(c)] for a one character [c]. *)
Definition startswith (c : char) (s : str) : bool :=
  match s with x :: _ => x =? c | [] => false end.
Definition endswith (c : char) (s : str) : bool :=
  match rev s with x :: _ => x =? c | [] => false end.

(** The longest prefix whose characters satisfy [p], and the rest. *)
Fixpoint span (p : char -> bool) (s : str) : str * str :=
  match s with
  | [] => ([], [])
  | c :: t => if p c then let (a, b) := span p t in (c :: a, b) else ([], s)
  end.

(** [str.split(sep)] for a one character separator. *)
Fixpoint split (sep : char) (s : str) : list str :=
  match s with
  | [] => [[]]
  | c :: t =>
      if c =? sep then [] :: split sep t
      else match split sep t with
           | h :: r => (c :: h) :: r
           | [] => [[c]]
           end
  end.

(** [sep.join(parts)] for a one character separator. *)
Fixpoint join (sep : char) (parts : list str) : str :=
  match parts with
  | [] => []
  | [p] => p
  | p :: rest => p ++ sep :: join sep rest
  end.

(** [str.partition(sep)]: the text before the first [sep], whether [sep]
    was found, and the text after it. *)
Definition partition (sep : char) (s : str) : str * bool * str :=
  let (a, b) := span (fun c => negb (c =? sep)) s in
  match b with
  | [] => (a, false, [])
  | _ :: b' => (a, true, b')
  end.

(** The last occurrence of [c]: the text before it and the text after it. *)
Fixpoint rsplit (c : char) (s : str) : option (str * str) :=
  match s with
  | [] => None
  | x :: t =>
      match rsplit c t with
      | Some (a, b) => Some (x :: a, b)
      | None => if x =? c then Some ([], t) else None
      end
  end.

(** ** Exceptions *)

Inductive exn :=
| InvalidURL (msg : string)
| TypeError (msg : string)
| AttributeError (msg : string)
| ValueError (msg : string)
| UnicodeEncodeError.

Inductive result (A : Type) :=
| Ok (a : A)
| Raise (e : exn).
Arguments Ok {A} a.
Arguments Raise {A} e.

Definition bind (A B : Type) (m : result A) (k : A -> result B) : result B :=
  match m with
  | Ok a => k a
  | Raise e => Raise e
  end.

Notation "x <- m ;; k" := (bind m (fun x => k))
  (at level 61, m at next level, right associativity).

(** Left to right evaluation of a list comprehension whose body may raise,
    joined with the empty separator. *)
Fixpoint concat_map (f : char -> result str) (s : str) : result str :=
  match s with
  | [] => Ok []
  | c :: t => a <- f c ;; b <- concat_map f t ;; Ok (a ++ b)
  end.

(** ** Constants of the module *)

Definition MAX_URL_LENGTH : Z := 65536.

Definition UNRESERVED_CHARACTERS : str :=
  lit "ABCDEFGHIJKLMNOPQRSTUVWXYZabcdefghijklmnopqrstuvwxyz0123456789-._~".
Definition SUB_DELIMS : str := lit "!$&'()*+,;=".

(** ** Percent encoding *)

(** [char.encode("utf-8")].  A surrogate code point raises
    [UnicodeEncodeError]; a number beyond U+10FFFF is no character of a
    Python string and is refused in the same way. *)
Definition utf8_encode (c : char) : result (list N) :=
  if c <? 128 then Ok [c]
  else if c <? 2048 then
    Ok [192 + c / 64; 128 + c mod 64]
  else if c <? 65536 then
    if in_range 55296 57343 c then Raise UnicodeEncodeError
    else Ok [224 + c / 4096; 128 + (c / 64) mod 64; 128 + c mod 64]
  else if c <? 1114112 then
    Ok [240 + c / 262144; 128 + (c / 4096) mod 64; 128 + (c / 64) mod 64;
        128 + c mod 64]
  else Raise UnicodeEncodeError.

(** One hexadecimal digit, lower case, as [format(.., "x")] writes it. *)
Definition hex_digit (d : N) : char := if d <? 10 then 48 + d else 87 + d.

(** [f"%{byte:02x}"]. *)
Definition format_byte (byte : N) : str :=
  [37; hex_digit (byte / 16); hex_digit (byte mod 16)].

Definition percent_encode (c : char) : result str :=
  bytes <- utf8_encode c ;;
  Ok (map ascii_upper (List.concat (map format_byte bytes))).

(** [PERCENT_ENCODED_REGEX.findall(string)] for ["%[A-Fa-f0-9]{2}"]: the
    matches from left to right, none overlapping another. *)
Fixpoint PERCENT_ENCODED_REGEX_findall (s : str) : list str :=
  match s with
  | [] => []
  | c :: t =>
      match t with
      | h1 :: h2 :: t' =>
          if (c =? 37) && is_hex h1 && is_hex h2
          then [c; h1; h2] :: PERCENT_ENCODED_REGEX_findall t'
          else PERCENT_ENCODED_REGEX_findall t
      | _ => PERCENT_ENCODED_REGEX_findall t
      end
  end.

Definition quote (s safe : str) : result str :=
  let NON_ESCAPED_CHARS := UNRESERVED_CHARACTERS ++ safe in
  let NON_ESCAPED_CHARS :=
    if Nat.eqb (count 37 s) (List.length (PERCENT_ENCODED_REGEX_findall s))
    then NON_ESCAPED_CHARS ++ lit "%"
    else NON_ESCAPED_CHARS in
  concat_map
    (fun c => if char_in c NON_ESCAPED_CHARS then Ok [c] else percent_encode c)
    s.

(** ** Paths *)

Definition validate_absolute_path (path : str) : result unit :=
  if nonempty path && negb (startswith 47 path)
  then Raise (InvalidURL "For absolute URLs, path must be empty or begin with '/'")
  else Ok tt.

(** One turn of the loop of [normalize_path]; [output] grows and shrinks at
    its end. *)
Definition normalize_step (output : list str) (component : str) : list str :=
  if str_eqb component (lit ".") then output
  else if str_eqb component (lit "..") then
    match output with
    | [] => output
    | [ [] ] => output
    | _ => removelast output
    end
  else output ++ [component].

Definition normalize_path (path : str) : str :=
  let components := split 47 path in
  join 47 (fold_left normalize_step components []).

(** ** Regular expressions

    The patterns of the module use character classes, concatenation,
    alternation and repetition only, so whether a pattern matches is
    membership of its language, decided here by derivatives.  The groups a
    match captures are computed by the functions [URL_REGEX_match] and
    [AUTHORITY_REGEX_match] below. *)

Inductive regex :=
| Void
| Eps
| Cls (p : char -> bool)
| Cat (r1 r2 : regex)
| Alt (r1 r2 : regex)
| Star (r : regex).

Fixpoint nullable (r : regex) : bool :=
  match r with
  | Void => false
  | Eps => true
  | Cls _ => false
  | Cat r1 r2 => nullable r1 && nullable r2
  | Alt r1 r2 => nullable r1 || nullable r2
  | Star _ => true
  end.

Fixpoint deriv (c : char) (r : regex) : regex :=
  match r with
  | Void => Void
  | Eps => Void
  | Cls p => if p c then Eps else Void
  | Cat r1 r2 =>
      if nullable r1 then Alt (Cat (deriv c r1) r2) (deriv c r2)
      else Cat (deriv c r1) r2
  | Alt r1 r2 => Alt (deriv c r1) (deriv c r2)
  | Star r1 => Cat (deriv c r1) (Star r1)
  end.

(** [pattern.fullmatch(s) is not None]. *)
Fixpoint fullmatch (r : regex) (s : str) : bool :=
  match s with
  | [] => nullable r
  | c :: t => fullmatch (deriv c r) t
  end.

(** [re.compile("^" + r + "$").match(s) is not None]: the end anchor also
    holds just before a line feed that ends the string. *)
Definition match_anchored (r : regex) (s : str) : bool :=
  fullmatch r s ||
  match rev s with
  | 10 :: t => fullmatch r (rev t)
  | _ => false
  end.

Definition Chr (c : char) : regex := Cls (N.eqb c).
(** [.] matches every character but the line feed. *)
Definition Dot : regex := Cls (fun c => negb (c =? 10)).
(** [[^...]]. *)
Definition NotIn (s : string) : regex := Cls (fun c => negb (char_in c (lit s))).
Definition Plus (r : regex) : regex := Cat r (Star r).
Definition Opt (r : regex) : regex := Alt r Eps.

(** [[a-zA-Z0-9+.-]]. *)
Definition is_scheme_char (c : char) : bool :=
  is_alpha c || is_digit c || char_in c (lit "+.-").

Definition COMPONENT_REGEX (key : string) : option regex :=
  if String.eqb key "scheme" then Some (Opt (Cat (Cls is_alpha) (Star (Cls is_scheme_char))))
  else if String.eqb key "authority" then Some (Star (NotIn "/?#"))
  else if String.eqb key "path" then Some (Star (NotIn "?#"))
  else if String.eqb key "query" then Some (Star (NotIn "#"))
  else if String.eqb key "fragment" then Some (Star Dot)
  else if String.eqb key "userinfo" then Some (Star (NotIn "@"))
  else if String.eqb key "host" then
    Some (Alt (Cat (Chr 91) (Cat (Star Dot) (Chr 93))) (Star (NotIn ":")))
  else if String.eqb key "port" then Some (Star Dot)
  else None.

(** [^[0-9]+.[0-9]+.[0-9]+.[0-9]+$]: the dots are not escaped in the
    source, so each stands for any character but the line feed. *)
Definition IPv4_STYLE_HOSTNAME : regex :=
  Cat (Plus (Cls is_digit)) (Cat Dot
  (Cat (Plus (Cls is_digit)) (Cat Dot
  (Cat (Plus (Cls is_digit)) (Cat Dot
  (Plus (Cls is_digit))))))).

(** [^\[.*\]$]. *)
Definition IPv6_STYLE_HOSTNAME : regex := Cat (Chr 91) (Cat (Star Dot) (Chr 93)).

(** The group dictionary of [URL_REGEX.match(url)].  The pattern matches
    every string; an optional group that takes no part is [None]. *)
Record url_groups := {
  g_scheme : option str;
  g_authority : option str;
  g_path : str;
  g_query : option str;
  g_fragment : option str
}.

(** The optional scheme group, a letter then letters, digits, [+], [.]
    or [-], then a colon outside the group: the scheme and the text
    after its colon. *)
Definition match_scheme (s : str) : option (str * str) :=
  match s with
  | c :: t =>
      if is_alpha c then
        let (run, rest) := span is_scheme_char t in
        match rest with
        | 58 :: rest' => Some (c :: run, rest')
        | _ => None
        end
      else None
  | [] => None
  end.

(** The optional authority group: two slashes, then the characters up to
    the first of [/], [?] and [#]. *)
Definition match_authority (s : str) : option (str * str) :=
  match s with
  | 47 :: 47 :: t => Some (span (fun c => negb (char_in c (lit "/?#"))) t)
  | _ => None
  end.

(** The optional query group: a question mark, then the characters up to
    the first [#]. *)
Definition match_query (s : str) : option (str * str) :=
  match s with
  | 63 :: t => Some (span (fun c => negb (c =? 35)) t)
  | _ => None
  end.

(** The optional fragment group: a [#], then the characters up to the
    first line feed. *)
Definition match_fragment (s : str) : option (str * str) :=
  match s with
  | 35 :: t => Some (span (fun c => negb (c =? 10)) t)
  | _ => None
  end.

Definition URL_REGEX_match (url : str) : url_groups :=
  let (scheme, s1) :=
    match match_scheme url with
    | Some (x, rest) => (Some x, rest)
    | None => (None, url)
    end in
  let (authority, s2) :=
    match match_authority s1 with
    | Some (x, rest) => (Some x, rest)
    | None => (None, s1)
    end in
  let (path, s3) := span (fun c => negb (char_in c (lit "?#"))) s2 in
  let (query, s4) :=
    match match_query s3 with
    | Some (x, rest) => (Some x, rest)
    | None => (None, s3)
    end in
  let fragment :=
    match match_fragment s4 with
    | Some (x, _) => Some x
    | None => None
    end in
  {| g_scheme := scheme; g_authority := authority; g_path := path;
     g_query := query; g_fragment := fragment |}.

(** The group dictionary of [AUTHORITY_REGEX.match(authority)]. *)
Record authority_groups := {
  g_userinfo : option str;
  g_host : str;
  g_port : option str
}.

(** The host group, of two alternatives: a bracketed run without line
    feed, as long as it can be, or else the text before the first colon. *)
Definition match_host (s : str) : str * str :=
  let plain := span (fun c => negb (c =? 58)) s in
  match s with
  | 91 :: t =>
      let (line, rest) := span (fun c => negb (c =? 10)) t in
      match rsplit 93 line with
      | Some (inner, after) => (91 :: inner ++ [93], after ++ rest)
      | None => plain
      end
  | _ => plain
  end.

Definition AUTHORITY_REGEX_match (authority : str) : authority_groups :=
  let '(before, found, after) := partition 64 authority in
  let (userinfo, s1) :=
    if found then (Some before, after) else (None, authority) in
  let (host, s2) := match_host s1 in
  let s3 := match s2 with 58 :: t => t | _ => s2 end in
  let (port, _) := span (fun c => negb (c =? 10)) s3 in
  {| g_userinfo := userinfo; g_host := host; g_port := Some port |}.

(** ** Numbers as text *)

(** The value of a run of ASCII decimal digits, [int(s, 10)]. *)
Definition decimal_value (s : str) : N :=
  fold_left (fun acc c => 10 * acc + (c - 48)) s 0.

(** The value of a run of hexadecimal digits, [int(s, 16)]. *)
Definition hex_digit_value (c : char) : N :=
  if is_digit c then c - 48 else if is_upper c then c - 55 else c - 87.
Definition hex_value (s : str) : N :=
  fold_left (fun acc c => 16 * acc + hex_digit_value c) s 0.

Fixpoint digits_fuel (fuel : nat) (n : N) : str :=
  match fuel with
  | O => []
  | S f => if n <? 10 then [48 + n] else digits_fuel f (n / 10) ++ [48 + n mod 10]
  end.

(** [str(n)] for a natural number, and for an integer. *)
Definition str_of_N (n : N) : str := digits_fuel (S (N.to_nat (N.log2 n))) n.
Definition str_of_Z (z : Z) : str :=
  if (z <? 0)%Z then 45 :: str_of_N (Z.abs_N z) else str_of_N (Z.abs_N z).

(** ['%x' % n] for [n] below 65536. *)
Definition hex16 (n : N) : str :=
  let digits := [n / 4096; (n / 256) mod 16; (n / 16) mod 16] in
  map hex_digit (snd (span (N.eqb 0) digits) ++ [n mod 16]).

(** The white space [int] skips at both ends of ASCII text. *)
Definition is_space (c : char) : bool := in_range 9 13 c || (c =? 32).

Fixpoint lstrip (s : str) : str :=
  match s with
  | c :: t => if is_space c then lstrip t else s
  | [] => []
  end.
Definition strip (s : str) : str := rev (lstrip (rev (lstrip s))).

(** Decimal digits, single underscores allowed between two digits. *)
Fixpoint digits_value (s : str) (acc : N) (after_digit : bool) : option N :=
  match s with
  | [] => if after_digit then Some acc else None
  | c :: t =>
      if is_digit c then digits_value t (10 * acc + (c - 48)) true
      else if (c =? 95) && after_digit then digits_value t acc false
      else None
  end.

(** The most decimal digits that [int] reads and [str] writes,
    [sys.int_info.default_max_str_digits]; the sign and the underscores are
    not counted. *)
Definition MAX_STR_DIGITS : Z := 4300.
Definition too_many_digits (s : str) : bool :=
  (MAX_STR_DIGITS <? Z.of_nat (List.length (filter is_digit s)))%Z.

(** The digits after the sign. *)
Definition limited_digits_value (s : str) : option N :=
  if too_many_digits s then None else digits_value s 0 false.

(** [int(s)] for ASCII text [s]; [None] stands for [ValueError]. *)
Definition ascii_int (s : str) : option Z :=
  match strip s with
  | 45 :: t => option_map (fun n => (- Z.of_N n)%Z) (limited_digits_value t)
  | 43 :: t => option_map Z.of_N (limited_digits_value t)
  | t => option_map Z.of_N (limited_digits_value t)
  end.

(** [str(z)] for an integer held in a variable: it raises past the limit. *)
Definition str_of_int (z : Z) : result str :=
  if too_many_digits (str_of_N (Z.abs_N z)) then
    Raise (ValueError
      ("Exceeds the limit (4300 digits) for integer string conversion; " ++
       "use sys.set_int_max_str_digits() to increase the limit"))
  else Ok (str_of_Z z).

(** ** The [ipaddress] module: which texts the constructors accept *)

Definition parse_octet (octet_str : str) : option N :=
  if negb (nonempty octet_str) then None
  else if negb (forallb is_digit octet_str) then None
  else if (3 <? List.length octet_str)%nat then None
  else if negb (str_eqb octet_str (lit "0")) && startswith 48 octet_str then None
  else
    let octet_int := decimal_value octet_str in
    if 255 <? octet_int then None else Some octet_int.

Fixpoint mapM (A B : Type) (f : A -> option B) (l : list A) : option (list B) :=
  match l with
  | [] => Some []
  | x :: t =>
      match f x, mapM f t with
      | Some y, Some r => Some (y :: r)
      | _, _ => None
      end
  end.

(** [ipaddress.IPv4Address(address)._ip]; [None] stands for
    [AddressValueError]. *)
Definition IPv4Address (address : str) : option N :=
  if char_in 47 address then None
  else if negb (nonempty address) then None
  else
    let octets := split 46 address in
    if negb (Nat.eqb (List.length octets) 4) then None
    else match mapM parse_octet octets with
         | Some bytes => Some (fold_left (fun acc o => 256 * acc + o) bytes 0)
         | None => None
         end.

Definition is_some (A : Type) (o : option A) : bool :=
  match o with Some _ => true | None => false end.

Definition parse_hextet (hextet_str : str) : option N :=
  if negb (forallb is_hex hextet_str) then None
  else if (4 <? List.length hextet_str)%nat then None
  else if nonempty hextet_str then Some (hex_value hextet_str) else None.

(** The loop that looks for an empty part strictly inside [parts]: [None]
    when there are two, else the index of the one found, if any. *)
Fixpoint find_skip (inner : list str) (i : nat) (skip_index : option nat)
  : option (option nat) :=
  match inner with
  | [] => Some skip_index
  | p :: rest =>
      if nonempty p then find_skip rest (S i) skip_index
      else match skip_index with
           | Some _ => None
           | None => find_skip rest (S i) (Some i)
           end
  end.

(** [_BaseV6._ip_int_from_string(ip_str)] does not raise. *)
Definition ipv6_int_ok (ip_str : str) : bool :=
  if negb (nonempty ip_str) then false
  else
    let parts := split 58 ip_str in
    if (List.length parts <? 3)%nat then false
    else
      let with_suffix :=
        if char_in 46 (last parts [])
        then match IPv4Address (last parts []) with
             | Some ipv4_int =>
                 Some (removelast parts ++
                       [hex16 (N.land (N.shiftr ipv4_int 16) 65535);
                        hex16 (N.land ipv4_int 65535)])
             | None => None
             end
        else Some parts in
      match with_suffix with
      | None => false
      | Some parts =>
          let n := List.length parts in
          if (9 <? n)%nat then false
          else
            match find_skip (removelast (tl parts)) 1 None with
            | None => false
            | Some (Some skip_index) =>
                let first_empty := negb (nonempty (hd [] parts)) in
                let last_empty := negb (nonempty (last parts [])) in
                let parts_hi := if first_empty then (skip_index - 1)%nat else skip_index in
                let parts_lo :=
                  if last_empty then (n - skip_index - 1 - 1)%nat
                  else (n - skip_index - 1)%nat in
                if first_empty && negb (Nat.eqb parts_hi 0) then false
                else if last_empty && negb (Nat.eqb parts_lo 0) then false
                else if (8 <=? parts_hi + parts_lo)%nat then false
                else
                  forallb (fun p => is_some (parse_hextet p))
                    (firstn parts_hi parts ++ skipn (n - parts_lo) parts)
            | Some None =>
                if negb (Nat.eqb n 8) then false
                else if negb (nonempty (hd [] parts)) then false
                else if negb (nonempty (last parts [])) then false
                else forallb (fun p => is_some (parse_hextet p)) parts
            end
      end.

(** [ipaddress.IPv6Address(address)] does not raise [AddressValueError]:
    no slash, an optional zone identifier after a percent sign (not empty,
    no second percent sign), and a well formed address before it. *)
Definition IPv6Address_ok (address : str) : bool :=
  if char_in 47 address then false
  else
    let '(addr, sep, scope_id) := partition 37 address in
    if sep && (negb (nonempty scope_id) || char_in 37 scope_id) then false
    else ipv6_int_ok addr.

(** ** Keyword arguments

    A value is [None], a string, or an integer (the code accepts one for
    [port]); the dictionary keeps the order in which keys were added. *)

Inductive kwval :=
| KNone
| KStr (s : str)
| KInt (z : Z).

Definition kwargs := list (string * kwval).

Fixpoint kw_get (A : Type) (k : string) (kw : list (string * A)) : option A :=
  match kw with
  | [] => None
  | (k', v) :: rest => if String.eqb k' k then Some v else kw_get k rest
  end.

Definition kw_in (A : Type) (k : string) (kw : list (string * A)) : bool :=
  is_some (kw_get k kw).

(** [kwargs[k] = v]: in place when the key is there, at the end otherwise. *)
Fixpoint kw_set (k : string) (v : kwval) (kw : kwargs) : kwargs :=
  match kw with
  | [] => [(k, v)]
  | (k', v') :: rest =>
      if String.eqb k' k then (k, v) :: rest else (k', v') :: kw_set k v rest
  end.

(** What is left after [kwargs.pop(k)]. *)
Definition kw_del (k : string) (kw : kwargs) : kwargs :=
  filter (fun e => negb (String.eqb (fst e) k)) kw.

(** [kwargs.get(k, default)]. *)
Definition kw_get_default (A : Type) (k : string) (kw : list (string * A)) (default : A) : A :=
  match kw_get k kw with
  | Some v => v
  | None => default
  end.

(** [v or ""]. *)
Definition or_empty (v : kwval) : kwval :=
  match v with
  | KNone => KStr []
  | KInt 0 => KStr []
  | _ => v
  end.

(** The use as a string of a value that is not [None]: an integer has
    none of the string methods, and [e] is what the use raises. *)
Definition as_str (e : exn) (v : kwval) : result str :=
  match v with
  | KStr s => Ok s
  | _ => Raise e
  end.

(** [o or ""] for an optional string. *)
Definition opt_or_empty (o : option str) : str :=
  match o with
  | Some s => s
  | None => []
  end.

(** ** The parse result *)

Record ParseResult := {
  scheme : str;
  userinfo : str;
  host : str;
  port : option Z;
  path : str;
  query : option str;
  fragment : option str
}.

Definition bracketed (host : str) : str :=
  if char_in 58 host then 91 :: host ++ [93] else host.

(** The port after its colon.  The port of a result is an answer of
    [int], and so within the digits that [str] writes. *)
Definition port_suffix (port : option Z) : str :=
  match port with
  | Some p => 58 :: str_of_Z p
  | None => []
  end.

Definition authority (self : ParseResult) : str :=
  (if nonempty (userinfo self) then userinfo self ++ [64] else [])
  ++ bracketed (host self)
  ++ port_suffix (port self).

Definition netloc (self : ParseResult) : str :=
  bracketed (host self) ++ port_suffix (port self).

(** [ParseResult.__str__]. *)
Definition to_str (self : ParseResult) : str :=
  let authority := authority self in
  (if nonempty (scheme self) then scheme self ++ [58] else [])
  ++ (if nonempty authority then 47 :: 47 :: authority else [])
  ++ path self
  ++ match query self with Some q => 63 :: q | None => [] end
  ++ match fragment self with Some f => 35 :: f | None => [] end.

(** ** Parsing *)

(** The merged components, before they are normalised. *)
Record components := {
  c_scheme : str;
  c_userinfo : str;
  c_host : str;
  c_port : option str;
  c_path : str;
  c_query : option str;
  c_fragment : option str
}.

Definition has_control (s : str) : bool :=
  existsb (fun c => isascii c && negb (isprintable_ascii c)) s.

Definition too_long (s : str) : bool :=
  (MAX_URL_LENGTH <? Z.of_nat (List.length s))%Z.

(** Coerce "port" to a string, if it is provided as an integer. *)
Definition coerce_port (kw : kwargs) : result kwargs :=
  match kw_get "port" kw with
  | Some (KInt z) => s <- str_of_int z ;; Ok (kw_set "port" (KStr s) kw)
  | Some v => Ok (kw_set "port" v kw)
  | None => Ok kw
  end.

(** Replace "netloc" with "host" and "port". *)
Definition replace_netloc (kw : kwargs) : result kwargs :=
  match kw_get "netloc" kw with
  | None => Ok kw
  | Some v =>
      let kw := kw_del "netloc" kw in
      netloc <- as_str (AttributeError "'int' object has no attribute 'partition'")
                       (or_empty v) ;;
      let '(h, _, p) := partition 58 netloc in
      Ok (kw_set "port" (KStr p) (kw_set "host" (KStr h) kw))
  end.

(** Replace "username" and/or "password" with "userinfo". *)
Definition replace_username_password (kw : kwargs) : result kwargs :=
  if kw_in "username" kw || kw_in "password" kw then
    let no_count := AttributeError "'int' object has no attribute 'count'" in
    u <- as_str no_count (or_empty (kw_get_default "username" kw (KStr []))) ;;
    username <- quote u (lit "/") ;;
    let kw := kw_del "username" kw in
    p <- as_str no_count (or_empty (kw_get_default "password" kw (KStr []))) ;;
    password <- quote p (lit "/") ;;
    let kw := kw_del "password" kw in
    Ok (kw_set "userinfo"
          (KStr (if nonempty password then username ++ 58 :: password else username))
          kw)
  else Ok kw.

(** Replace "full_path" with "path" and "query". *)
Definition replace_full_path (kw : kwargs) : result kwargs :=
  match kw_get "full_path" kw with
  | None => Ok kw
  | Some v =>
      let kw := kw_del "full_path" kw in
      full_path <- as_str (AttributeError "'int' object has no attribute 'partition'")
                          (or_empty v) ;;
      let '(p, seperator, q) := partition 63 full_path in
      let kw := kw_set "query" (KStr q) (kw_set "path" (KStr p) kw) in
      Ok (if seperator then kw else kw_set "query" KNone kw)
  end.

(** Ensure that IPv6 "host" addresses are always escaped with "[...]". *)
Definition bracket_host (kw : kwargs) : result kwargs :=
  match kw_get "host" kw with
  | None => Ok kw
  | Some v =>
      host <- as_str (TypeError "argument of type 'int' is not iterable") (or_empty v) ;;
      if char_in 58 host && negb (startswith 91 host && endswith 93 host)
      then Ok (kw_set "host" (KStr (91 :: host ++ [93])) kw)
      else Ok kw
  end.

(** The loop over [kwargs.items()]; it returns the values, now all of
    them [None] or a string. *)
Fixpoint validate_kwargs (kw : kwargs) : result (list (string * option str)) :=
  match kw with
  | [] => Ok []
  | (key, value) :: rest =>
      match COMPONENT_REGEX key with
      | None =>
          Raise (TypeError ("'" ++ key ++ "' is an invalid keyword argument for urlparse()"))
      | Some regex =>
          match value with
          | KNone => r <- validate_kwargs rest ;; Ok ((key, None) :: r)
          | KInt _ => Raise (TypeError "object of type 'int' has no len()")
          | KStr value =>
              if too_long value then
                Raise (InvalidURL ("URL component '" ++ key ++ "' too long"))
              else if has_control value then
                Raise (InvalidURL
                  ("Invalid non-printable ASCII character in URL component '" ++ key ++ "'"))
              else if negb (fullmatch regex value) then
                Raise (InvalidURL ("Invalid URL component '" ++ key ++ "'"))
              else r <- validate_kwargs rest ;; Ok ((key, Some value) :: r)
          end
      end
  end.

(** Some keyword arguments require special handling. *)
Definition special_keys (kw : kwargs) : result kwargs :=
  kw <- coerce_port kw ;;
  kw <- replace_netloc kw ;;
  kw <- replace_username_password kw ;;
  kw <- replace_full_path kw ;;
  bracket_host kw.

(** The groups of the two patterns, each overridden by the keyword
    argument of its name when there is one. *)
Definition merge_groups (url : str) (kw : list (string * option str)) : components :=
  let url_dict := URL_REGEX_match url in
  let scheme := opt_or_empty (kw_get_default "scheme" kw (g_scheme url_dict)) in
  let authority := opt_or_empty (kw_get_default "authority" kw (g_authority url_dict)) in
  let path := opt_or_empty (kw_get_default "path" kw (Some (g_path url_dict))) in
  let query := kw_get_default "query" kw (g_query url_dict) in
  let fragment := kw_get_default "fragment" kw (g_fragment url_dict) in
  let authority_dict := AUTHORITY_REGEX_match authority in
  let userinfo := opt_or_empty (kw_get_default "userinfo" kw (g_userinfo authority_dict)) in
  let host := opt_or_empty (kw_get_default "host" kw (Some (g_host authority_dict))) in
  let port := kw_get_default "port" kw (g_port authority_dict) in
  {| c_scheme := scheme; c_userinfo := userinfo; c_host := host; c_port := port;
     c_path := path; c_query := query; c_fragment := fragment |}.

(** The first half of [urlparse]: the checks on the URL, the special keys,
    the validation of the keyword arguments and the merge. *)
Definition merge_components (url : str) (kw : kwargs) : result components :=
  if too_long url then Raise (InvalidURL "URL too long")
  else if has_control url then
    Raise (InvalidURL "Invalid non-printable ASCII character in URL")
  else
    kw <- special_keys kw ;;
    kw <- validate_kwargs kw ;;
    Ok (merge_groups url kw).

Definition default_port (scheme : str) : option Z :=
  if str_eqb scheme (lit "ftp") then Some 21%Z
  else if str_eqb scheme (lit "http") then Some 80%Z
  else if str_eqb scheme (lit "https") then Some 443%Z
  else if str_eqb scheme (lit "ws") then Some 80%Z
  else if str_eqb scheme (lit "wss") then Some 443%Z
  else None.

Definition quote_opt (o : option str) (safe : str) : result (option str) :=
  match o with
  | None => Ok None
  | Some s => q <- quote s safe ;; Ok (Some q)
  end.

(** What the module asks of the run time beyond the definitions above:
    [idna.encode(s)], where [None] stands for [idna.IDNAError]; and
    [s.lower()] and [int(s)] for a string that is not ASCII, where [None]
    stands for [ValueError]. *)
Record runtime := {
  idna_encode : str -> option str;
  unicode_lower : str -> str;
  unicode_int : str -> option Z
}.

Section Urlparse.

Variable rt : runtime.

(** [s.lower()]. *)
Definition str_lower (s : str) : str :=
  if forallb isascii s then map ascii_lower s else unicode_lower rt s.

(** [int(s)].  It reads no more than [MAX_STR_DIGITS] digits, so that an
    integer of more digits is none of its answers. *)
Definition int_of_str (s : str) : option Z :=
  if forallb isascii s then ascii_int s
  else
    match unicode_int rt s with
    | Some z => if too_many_digits (str_of_N (Z.abs_N z)) then None else Some z
    | None => None
    end.

(** [idna.encode(s).decode("ascii")].  The package answers the labels of
    RFC 5891, which are ASCII, so that [decode] raises nothing and a text
    outside ASCII is none of its answers. *)
Definition idna_hostname (s : str) : option str :=
  match idna_encode rt s with
  | Some encoded => if forallb isascii encoded then Some encoded else None
  | None => None
  end.

Definition encode_host (host : str) : result str :=
  if negb (nonempty host) then Ok []
  else if match_anchored IPv4_STYLE_HOSTNAME host then
    match IPv4Address host with
    | Some _ => Ok host
    | None => Raise (InvalidURL "Invalid IPv4 address")
    end
  else if match_anchored IPv6_STYLE_HOSTNAME host then
    if IPv6Address_ok (removelast (tl host)) then Ok (removelast (tl host))
    else Raise (InvalidURL "Invalid IPv6 address")
  else if forallb (fun c => c <=? 127) host then
    quote (str_lower host) SUB_DELIMS
  else
    match idna_hostname (str_lower host) with
    | Some encoded => Ok encoded
    | None => Raise (InvalidURL "Invalid IDNA hostname")
    end.

(** Within [urlparse] the port is [None] or a string. *)
Definition normalize_port (port : option str) (scheme : str) : result (option Z) :=
  match port with
  | None => Ok None
  | Some [] => Ok None
  | Some port =>
      match int_of_str port with
      | None => Raise (InvalidURL "Invalid port")
      | Some port_as_int =>
          match default_port scheme with
          | Some d => if (port_as_int =? d)%Z then Ok None else Ok (Some port_as_int)
          | None => Ok (Some port_as_int)
          end
      end
  end.

(** Normalize and validate each component. *)
Definition normalize_components (c : components) : result ParseResult :=
  let parsed_scheme := str_lower (c_scheme c) in
  parsed_userinfo <- quote (c_userinfo c) (SUB_DELIMS ++ lit ":") ;;
  parsed_host <- encode_host (c_host c) ;;
  parsed_port <- normalize_port (c_port c) (c_scheme c) ;;
  path <- (if nonempty (c_userinfo c) || nonempty (c_host c)
                || nonempty (opt_or_empty (c_port c))
           then _ <- validate_absolute_path (c_path c) ;; Ok (normalize_path (c_path c))
           else Ok (c_path c)) ;;
  parsed_path <- quote path (SUB_DELIMS ++ lit ":@/") ;;
  parsed_query <- quote_opt (c_query c) (SUB_DELIMS ++ lit "/?") ;;
  parsed_fragment <- quote_opt (c_fragment c) (SUB_DELIMS ++ lit "/?") ;;
  Ok {| scheme := parsed_scheme; userinfo := parsed_userinfo; host := parsed_host;
        port := parsed_port; path := parsed_path; query := parsed_query;
        fragment := parsed_fragment |}.

Definition urlparse (url : str) (kw : kwargs) : result ParseResult :=
  c <- merge_components url kw ;;
  normalize_components c.

Definition kw_of_opt (o : option str) : kwval :=
  match o with
  | Some s => KStr s
  | None => KNone
  end.

(** [ParseResult.copy_with]. *)
Definition copy_with (self : ParseResult) (kw : kwargs) : result ParseResult :=
  match kw with
  | [] => Ok self
  | _ =>
      let defaults :=
        [("scheme", KStr (scheme self)); ("authority", KStr (authority self));
         ("path", KStr (path self)); ("query", kw_of_opt (query self));
         ("fragment", kw_of_opt (fragment self))]%string in
      urlparse [] (fold_left (fun d e => kw_set (fst e) (snd e) d) kw defaults)
  end.

End Urlparse.

(** ** Predicates of the statements *)

(** The run time of the closed examples.  They parse ASCII hosts, schemes
    and ports only, for which no field of the run time is consulted. *)
Definition ascii_only : runtime :=
  {| idna_encode := fun _ => None;
     unicode_lower := fun s => s;
     unicode_int := fun _ => None |}.

(** Every percent sign starts an escape: two hexadecimal digits follow it. *)
Definition escapes_well_formed (s : str) : Prop :=
  forall a b, s = a ++ 37 :: b ->
    exists h1 h2 b', b = h1 :: h2 :: b' /\ is_hex h1 = true /\ is_hex h2 = true.

(** The same, as a function. *)
Fixpoint all_escapes (s : str) : bool :=
  match s with
  | [] => true
  | c :: t =>
      if c =? 37 then
        match t with
        | h1 :: h2 :: t' => is_hex h1 && is_hex h2 && all_escapes t'
        | _ => false
        end
      else all_escapes t
  end.

(** A hexadecimal digit as [percent_encode] writes it. *)
Definition is_upper_hex (c : char) : bool := is_digit c || in_range 65 70 c.

(** A text made of escapes only. *)
Inductive escapes_only : str -> Prop :=
| escapes_nil : escapes_only []
| escapes_cons h1 h2 t :
    is_upper_hex h1 = true -> is_upper_hex h2 = true -> escapes_only t ->
    escapes_only (37 :: h1 :: h2 :: t).

(** [quoted keep s o]: [o] is [s] with every character outside [keep]
    replaced by escapes. *)
Inductive quoted (keep : str) : str -> str -> Prop :=
| quoted_nil : quoted keep [] []
| quoted_keep c s o :
    char_in c keep = true -> quoted keep s o -> quoted keep (c :: s) (c :: o)
| quoted_escape c e s o :
    char_in c keep = false -> e <> [] -> escapes_only e -> quoted keep s o ->
    quoted keep (c :: s) (e ++ o).

(** The characters [quote] leaves alone in the text [s]. *)
Definition non_escaped (s safe : str) : str :=
  if Nat.eqb (count 37 s) (List.length (PERCENT_ENCODED_REGEX_findall s))
  then (UNRESERVED_CHARACTERS ++ safe) ++ lit "%"
  else UNRESERVED_CHARACTERS ++ safe.

(** The scanner behind [all_escapes]: how many hexadecimal digits are
    still due. *)
Fixpoint escapes_from (due : nat) (s : str) : bool :=
  match s with
  | [] => Nat.eqb due 0
  | c :: t =>
      match due with
      | O => if c =? 37 then escapes_from 2 t else escapes_from 0 t
      | S d => is_hex c && escapes_from d t
      end
  end.

(** A result with another query, and with another fragment. *)
Definition with_query (r : ParseResult) (q : option str) : ParseResult :=
  {| scheme := scheme r; userinfo := userinfo r; host := host r; port := port r;
     path := path r; query := q; fragment := fragment r |}.
Definition with_fragment (r : ParseResult) (f : option str) : ParseResult :=
  {| scheme := scheme r; userinfo := userinfo r; host := host r; port := port r;
     path := path r; query := query r; fragment := f |}.

(** The result for [http://example.com] followed by a port, a path, a
    query and a fragment. *)
Definition example_com (port : option Z) (path : str) (query fragment : option str)
  : ParseResult :=
  {| scheme := lit "http"; userinfo := []; host := lit "example.com"; port := port;
     path := path; query := query; fragment := fragment |}.

(** Whether [urlparse] treats the merged components as having an
    authority: [userinfo or host or port]. *)
Definition authority_set (c : components) : bool :=
  nonempty (c_userinfo c) || nonempty (c_host c) || nonempty (opt_or_empty (c_port c)).

Definition is_InvalidURL (e : exn) : bool :=
  match e with InvalidURL _ => true | _ => false end.

Definition with_scheme (r : ParseResult) (s : str) : ParseResult :=
  {| scheme := s; userinfo := userinfo r; host := host r; port := port r;
     path := path r; query := query r; fragment := fragment r |}.

(** The names [urlparse] accepts as keyword arguments. *)
Definition recognized (k : string) : bool :=
  existsb (String.eqb k)
    ["scheme"; "authority"; "path"; "query"; "fragment"; "userinfo"; "host"; "port";
     "netloc"; "username"; "password"; "full_path"]%string.

Definition known_entry (e : string * kwval) : bool := recognized (fst e).
Definition unknown_entry (e : string * kwval) : bool := negb (recognized (fst e)).

(** The first unrecognized name in the order of the dictionary. *)
Definition first_unrecognized (kw : kwargs) : option string :=
  match filter unknown_entry kw with
  | (k, _) :: _ => Some k
  | [] => None
  end.

(** The entries that stand before the first unrecognized name. *)
Fixpoint before_unrecognized (kw : kwargs) : kwargs :=
  match kw with
  | [] => []
  | e :: rest => if recognized (fst e) then e :: before_unrecognized rest else []
  end.

(** The exception for the keyword argument [key]. *)
Definition invalid_keyword (key : string) : exn :=
  TypeError ("'" ++ key ++ "' is an invalid keyword argument for urlparse()").

(** A step on the keyword arguments that neither reads nor moves the
    entries of unrecognized names. *)
Definition respects_unknown (f : kwargs -> result kwargs) : Prop :=
  forall kw,
    match f kw with
    | Ok kw' =>
        f (filter known_entry kw) = Ok (filter known_entry kw') /\
        filter unknown_entry kw' = filter unknown_entry kw
    | Raise e => f (filter known_entry kw) = Raise e
    end.

(** The seven component names of a result. *)
Definition component_names : list string :=
  ["scheme"; "userinfo"; "host"; "port"; "path"; "query"; "fragment"]%string.

(** The component [name] of a result is absent (query, fragment, port) or
    empty (scheme, path, userinfo, host). *)
Definition cleared (name : string) (r : ParseResult) : Prop :=
  if String.eqb name "scheme" then scheme r = []
  else if String.eqb name "userinfo" then userinfo r = []
  else if String.eqb name "host" then host r = []
  else if String.eqb name "port" then port r = None
  else if String.eqb name "path" then path r = []
  else if String.eqb name "query" then query r = None
  else if String.eqb name "fragment" then fragment r = None
  else False.

(** The same for the merged components. *)
Definition cleared_component (name : string) (c : components) : Prop :=
  if String.eqb name "scheme" then c_scheme c = []
  else if String.eqb name "userinfo" then c_userinfo c = []
  else if String.eqb name "host" then c_host c = []
  else if String.eqb name "port" then c_port c = None
  else if String.eqb name "path" then c_path c = []
  else if String.eqb name "query" then c_query c = None
  else if String.eqb name "fragment" then c_fragment c = None
  else False.

(** None of the keys that stand for several components is given. *)
Definition no_alias (kw : kwargs) : Prop :=
  kw_get "netloc" kw = None /\ kw_get "username" kw = None /\
  kw_get "password" kw = None /\ kw_get "full_path" kw = None.

(** UTF-8 can encode every character of the text: no lone surrogate. *)
Definition encodable (s : str) : Prop :=
  forall c, In c s -> utf8_encode c <> Raise UnicodeEncodeError.

(** The validated value of a keyword argument. *)
Definition validated (v : kwval) : option str :=
  match v with
  | KStr s => Some s
  | _ => None
  end.

(** The text [URL_REGEX] has left after the scheme group, and after the
    authority group. *)
Definition after_scheme (url : str) : str :=
  match match_scheme url with
  | Some (_, rest) => rest
  | None => url
  end.
Definition after_authority (s : str) : str :=
  match match_authority s with
  | Some (_, rest) => rest
  | None => s
  end.

(** The shape of a scheme: empty, or a letter followed by letters, digits,
    [+], [.] and [-]. *)
Definition scheme_shape (s : str) : bool :=
  match s with
  | [] => true
  | c :: t => is_alpha c && forallb is_scheme_char t
  end.

(** A text in the canonical form of a component with the safe set [safe]:
    printable ASCII characters that are unreserved, safe or part of an
    escape, and every percent sign starts an escape. *)
Definition canonical_text (safe s : str) : Prop :=
  (forall c, In c s ->
     isprintable_ascii c = true /\
     char_in c (UNRESERVED_CHARACTERS ++ safe ++ lit "%") = true) /\
  escapes_well_formed s.

Definition canonical_opt (safe : str) (o : option str) : Prop :=
  match o with
  | Some s => canonical_text safe s
  | None => True
  end.

(** The characters of an IPv6 address: hexadecimal digits, colons, and the
    dots of an IPv4 address at its end. *)
Definition is_ipv6_char (c : char) : bool := is_hex c || (c =? 58) || (c =? 46).

(** What comes before the zone identifier of an IPv6 address. *)
Definition before_zone (h : str) : str := fst (fst (partition 37 h)).

(** What a stored host can be: a text in canonical form for the
    sub-delimiters (a registered name or an IPv4 address); an IPv6 address
    as it stood between the brackets, made of the characters of an address
    up to a percent sign, after which its zone identifier is as it was
    written; or an ASCII text that [idna.encode] answered. *)
Definition host_form (rt : runtime) (h : str) : Prop :=
  canonical_text SUB_DELIMS h \/
  (IPv6Address_ok h = true /\ forallb is_ipv6_char (before_zone h) = true) \/
  (exists x, idna_encode rt x = Some h /\ forallb isascii h = true).

(** The characters of the decimal text of an integer. *)
Definition is_number_char (c : char) : bool := is_digit c || (c =? 45).


(** The segments [normalize_path] drops, and a path without them. *)
Definition is_dot_segment (s : str) : bool :=
  str_eqb s (lit ".") || str_eqb s (lit "..").
Definition dot_free (s : str) : bool :=
  forallb (fun p => negb (is_dot_segment p)) (split 47 s).

(** The text of a port after its colon. *)
Definition port_text (po : option Z) : str :=
  match po with
  | Some p => str_of_Z p
  | None => []
  end.

(** [Some s] for a string that is not empty. *)
Definition present (s : str) : option str := if nonempty s then Some s else None.

Definition starts_with_slashes (p : str) : bool :=
  match p with
  | 47 :: 47 :: _ => true
  | _ => false
  end.

(** No ASCII control character. *)
Definition not_control (c : char) : bool := negb (isascii c && negb (isprintable_ascii c)).

(** What the text of a stored host must be for the authority to split
    again where it was put together: no [@], [/], [?] or [#], no control
    character, and no opening bracket in front unless it holds a colon (it
    is then written between brackets). *)
Definition host_splits (h : str) : Prop :=
  forallb (fun c => negb (char_in c (lit "@/?#")) && not_control c) h = true /\
  (char_in 58 h = false -> startswith 91 h = false).

(** The conditions on a result under which parsing its canonical string
    gives the result back. *)
Record round_trip_conditions (rt : runtime) (r : ParseResult) : Prop := {
  rc_length : too_long (to_str r) = false;
  rc_path : authority r = [] -> starts_with_slashes (path r) = false;
  rc_scheme : scheme r = [] -> authority r = [] -> match_scheme (path r) = None;
  rc_port : forall p, port r = Some p -> default_port (scheme r) <> Some p;
  rc_host : encode_host rt (bracketed (host r)) = Ok (host r);
  rc_host_text : host_splits (host r)
}.

(** A text that ends a path: empty, or begun by [?] or [#]. *)
Definition path_end (s : list N) : bool :=
  match s with
  | [] => true
  | c :: _ => (c =? 63) || (c =? 35)
  end.

(** The five parts of a canonical string. *)
Definition scheme_part (sc : list N) : list N := if nonempty sc then sc ++ [58] else [].
Definition authority_part (au : list N) : list N :=
  if nonempty au then 47 :: 47 :: au else [].
Definition query_part (q : option (list N)) : list N :=
  match q with Some q => 63 :: q | None => [] end.
Definition fragment_part (f : option (list N)) : list N :=
  match f with Some f => 35 :: f | None => [] end.

(** The components [urlparse] merges from the canonical string of a
    result, given no keyword argument. *)
Definition reparsed (r : ParseResult) : components :=
  {| c_scheme := scheme r; c_userinfo := userinfo r; c_host := bracketed (host r);
     c_port := Some (port_text (port r)); c_path := path r; c_query := query r;
     c_fragment := fragment r |}.

(** The characters of a text in canonical form. *)
Definition canonical_char (safe : str) (c : char) : bool :=
  isprintable_ascii c && char_in c (UNRESERVED_CHARACTERS ++ safe ++ lit "%").

(** A pattern that matches no string, as derivatives of a pattern at a
    character it cannot begin with are. *)
Fixpoint is_void (r : regex) : bool :=
  match r with
  | Void => true
  | Cat r1 r2 => is_void r1 || is_void r2
  | Alt r1 r2 => is_void r1 && is_void r2
  | _ => false
  end.

(** A host name in lower case: it begins with a letter, and goes on with
    letters, digits, hyphens and dots. *)
Definition is_hostname_char (c : char) : bool :=
  is_lower c || is_digit c || char_in c (lit "-.").
Definition hostname (h : str) : bool :=
  match h with
  | [] => true
  | c :: t => is_lower c && forallb is_hostname_char t
  end.

(** ** Reading escapes back

    The inverse of [percent_encode], to state that nothing is lost: the
    bytes a run of escapes stands for, and the character a UTF-8 sequence
    stands for. *)
Fixpoint unescape (e : str) : list N :=
  match e with
  | c :: h1 :: h2 :: t =>
      if c =? 37 then (16 * hex_digit_value h1 + hex_digit_value h2) :: unescape t else []
  | _ => []
  end.

Definition utf8_decode (bytes : list N) : option N :=
  match bytes with
  | [b] => if b <? 128 then Some b else None
  | [b1; b2] =>
      if in_range 192 223 b1 && in_range 128 191 b2
      then Some (64 * (b1 - 192) + (b2 - 128)) else None
  | [b1; b2; b3] =>
      if in_range 224 239 b1 && in_range 128 191 b2 && in_range 128 191 b3
      then Some (4096 * (b1 - 224) + 64 * (b2 - 128) + (b3 - 128)) else None
  | [b1; b2; b3; b4] =>
      if in_range 240 247 b1 && in_range 128 191 b2 && in_range 128 191 b3
         && in_range 128 191 b4
      then Some (262144 * (b1 - 240) + 4096 * (b2 - 128) + 64 * (b3 - 128) + (b4 - 128))
      else None
  | _ => None
  end.

(** A code point that UTF-8 cannot encode: a surrogate, or a number beyond
    the last code point. *)
Definition is_surrogate (c : char) : bool := in_range 55296 57343 c || (1114112 <=? c).

(** ** The language of a pattern

    What it is for a pattern to match a whole string, said without
    derivatives; [fullmatch] decides it. *)
Unset Implicit Arguments.

Inductive matches : regex -> str -> Prop :=
| matches_eps : matches Eps []
| matches_cls p c : p c = true -> matches (Cls p) [c]
| matches_cat r1 r2 a b : matches r1 a -> matches r2 b -> matches (Cat r1 r2) (a ++ b)
| matches_alt_l r1 r2 s : matches r1 s -> matches (Alt r1 r2) s
| matches_alt_r r1 r2 s : matches r2 s -> matches (Alt r1 r2) s
| matches_star_nil r : matches (Star r) []
| matches_star_cons r a b :
    a <> [] -> matches r a -> matches (Star r) b -> matches (Star r) (a ++ b).

Set Implicit Arguments.

(** A map on characters that no class of a pattern tells from the
    identity. *)
Fixpoint class_stable (f : char -> char) (r : regex) : Prop :=
  match r with
  | Cls p => forall c, p (f c) = p c
  | Cat r1 r2 | Alt r1 r2 => class_stable f r1 /\ class_stable f r2
  | Star r1 => class_stable f r1
  | _ => True
  end.

(** ** Putting groups together again *)

(** The text the groups of [URL_REGEX] were cut from: each group that
    took part, behind the delimiter that announces it. *)
Definition url_of_groups (g : url_groups) : str :=
  match g_scheme g with Some s => s ++ [58] | None => [] end ++
  match g_authority g with Some a => 47 :: 47 :: a | None => [] end ++
  g_path g ++ query_part (g_query g) ++ fragment_part (g_fragment g).

(** A property of every character of an optional text. *)
Definition opt_forallb (p : char -> bool) (o : option str) : bool :=
  match o with
  | Some s => forallb p s
  | None => true
  end.

(** ** Ports and overrides *)

(** The characters [int] accepts in ASCII text: digits, a sign, an
    underscore between digits, white space at the ends. *)
Definition is_int_char (c : char) : bool :=
  is_digit c || is_space c || char_in c (lit "+-_").

(** The port [normalize_port] makes of the integer [n] for a scheme. *)
Definition elide_default (scheme : str) (n : Z) : option Z :=
  match default_port scheme with
  | Some d => if (n =? d)%Z then None else Some n
  | None => Some n
  end.

(** The delimiters that the text of a component may not hold. *)
Definition forbidden (key : string) : str :=
  if String.eqb key "authority" then lit "/?#"
  else if String.eqb key "path" then lit "?#"
  else if String.eqb key "query" then lit "#"
  else if String.eqb key "userinfo" then lit "@"
  else [].

(** The baseline [copy_with] hands to [urlparse]: the five components of
    the result as keyword arguments. *)
Definition copy_defaults (self : ParseResult) : kwargs :=
  [("scheme", KStr (scheme self)); ("authority", KStr (authority self));
   ("path", KStr (path self)); ("query", kw_of_opt (query self));
   ("fragment", kw_of_opt (fragment self))]%string.

(** The conditions on a result under which its components, handed to
    [urlparse] again, give the result back. *)
Record copy_conditions (rt : runtime) (r : ParseResult) : Prop := {
  cc_length : too_long (to_str r) = false;
  cc_port : forall p, port r = Some p -> default_port (scheme r) <> Some p;
  cc_host : encode_host rt (bracketed (host r)) = Ok (host r);
  cc_host_text : host_splits (host r)
}.

(** The text the groups of [AUTHORITY_REGEX] were cut from, [colon] being
    the colon, if any, that the pattern passes between host and port. *)
Definition authority_of_groups (g : authority_groups) (colon : str) : str :=
  match g_userinfo g with Some u => u ++ [64] | None => [] end ++
  g_host g ++ colon ++ opt_or_empty (g_port g).

(** Whether the URL itself holds userinfo, a host or a port. *)
Definition url_authority_set (url : str) : bool :=
  authority_set (merge_groups url []).

(** * Properties *)

Unset Implicit Arguments.

(**
    ** The model on the inputs of the documentation *)

Example quote_space : quote (lit "a b") (lit "/") = Ok (lit "a%20b").
Proof. reflexivity. Qed.

Example quote_escaped : quote (lit "a%20b%zz") (lit "/") = Ok (lit "a%2520b%25zz").
Proof. reflexivity. Qed.

Example url_groups_full :
  URL_REGEX_match (lit "http://u@h:1/p?q#f") =
  {| g_scheme := Some (lit "http"); g_authority := Some (lit "u@h:1");
     g_path := lit "/p"; g_query := Some (lit "q"); g_fragment := Some (lit "f") |}.
Proof. reflexivity. Qed.

Example authority_groups_two_at :
  AUTHORITY_REGEX_match (lit "a@b@c:1:2") =
  {| g_userinfo := Some (lit "a"); g_host := lit "b@c"; g_port := Some (lit "1:2") |}.
Proof. reflexivity. Qed.

Example ipv4_examples :
  map (fun s => is_some (IPv4Address (lit s)))
      ["1.2.3.4"; "01.2.3.4"; "1234567"; "256.1.1.1"; "1.2.3"; "1.2.3.4.5"; "1.2.3.a"]%string
  = [true; false; false; false; false; false; false].
Proof. reflexivity. Qed.

Example int_examples :
  map (fun s => ascii_int (lit s))
      [" 5 "; "+5"; "-5"; "1_000"; "_1"; "1_"; "1__0"; ""; "+"; "0x10"; "007"; "+ 5"; "1 0"]%string
  = [Some 5; Some 5; Some (-5); Some 1000; None; None; None; None; None; None;
     Some 7; None; None]%Z.
Proof. reflexivity. Qed.
Example int_limit :
  map (fun n => is_some (ascii_int (repeat 49 n))) [4300; 4301]%nat = [true; false] /\
  map (fun n => is_some (ascii_int (45 :: repeat 48 n ++ lit "_1"))) [4299; 4300]%nat
  = [true; false].
Proof. split; vm_compute; reflexivity. Qed.
Example quote_euro : quote [8364] (lit "/") = Ok (lit "%E2%82%AC").
Proof. reflexivity. Qed.
Example normalize_doc : normalize_path (lit "/path/./to/somewhere/..") = lit "/path/to".
Proof. reflexivity. Qed.
Example authority_groups_v6 :
  AUTHORITY_REGEX_match (lit "[a]b]c") =
  {| g_userinfo := None; g_host := lit "[a]b]"; g_port := Some (lit "c") |}.
Proof. reflexivity. Qed.
Example ipv4_style_digits :
  match_anchored IPv4_STYLE_HOSTNAME (lit "1234567") = true /\
  match_anchored IPv4_STYLE_HOSTNAME (lit "12345") = false /\
  match_anchored IPv4_STYLE_HOSTNAME (lit "1.2.3.4.5") = false.
Proof. repeat split; reflexivity. Qed.
Example ipv6_examples :
  map (fun s => IPv6Address_ok (lit s))
      ["::1"; "::"; "1::"; "::ffff:1.2.3.4"; "1:2:3:4:5:6:7:8"; "1:2:3:4:5:6:7::";
       "1:2:3:4:5:6:1.2.3.4"; "::1%eth0"; "::1%"; "::1%a%b"; ":1::2"; "1::2:";
       "1:2:3:4:5:6:7:8:9"; ":::"; "1::2::3"; "12345::"; "::1%a/b"; "1.2.3.4"]%string
  = [true; true; true; true; true; true;
     true; true; false; false; false; false;
     false; false; false; false; false; false].
Proof. reflexivity. Qed.
Example str_of_Z_examples :
  map str_of_Z [0; 7; 10; 8080; -5; 65536]%Z =
  map lit ["0"; "7"; "10"; "8080"; "-5"; "65536"]%string.
Proof. reflexivity. Qed.

(** ** Percent encoding *)

Lemma is_hex_not_percent c : is_hex c = true -> (37 =? c) = false.
Proof.
  unfold is_hex, is_digit, in_range. intros H.
  destruct (N.eqb_spec 37 c) as [<-|]; [discriminate H | reflexivity].
Qed.

Lemma count_cons c x s :
  count c (x :: s) = if c =? x then S (count c s) else count c s.
Proof. unfold count. simpl. destruct (c =? x); reflexivity. Qed.

(** Induction on strings that may step over several characters at once. *)
Lemma str_length_ind (P : str -> Prop) :
  (forall s, (forall t, (List.length t < List.length s)%nat -> P t) -> P s) ->
  forall s, P s.
Proof.
  intros H s. assert (G : forall n t, (List.length t < n)%nat -> P t).
  { induction n as [|n IH]; intros t Ht; [lia|]. apply H. intros u Hu. apply IH. lia. }
  apply (G (S (List.length s))). lia.
Qed.

Lemma findall_cons c h1 h2 t :
  PERCENT_ENCODED_REGEX_findall (c :: h1 :: h2 :: t) =
  if (c =? 37) && is_hex h1 && is_hex h2
  then [c; h1; h2] :: PERCENT_ENCODED_REGEX_findall t
  else PERCENT_ENCODED_REGEX_findall (h1 :: h2 :: t).
Proof. reflexivity. Qed.

Lemma findall_count s :
  (List.length (PERCENT_ENCODED_REGEX_findall s) <= count 37%N s)%nat /\
  Nat.eqb (count 37 s) (List.length (PERCENT_ENCODED_REGEX_findall s)) = all_escapes s.
Proof.
  induction s as [s IH] using str_length_ind.
  destruct s as [|c t]; [split; reflexivity|].
  rewrite count_cons, (N.eqb_sym 37 c).
  destruct t as [|h1 [|h2 t']].
  - cbn. destruct (c =? 37); split; auto.
  - cbn [PERCENT_ENCODED_REGEX_findall all_escapes].
    destruct (IH [h1] ltac:(simpl; lia)) as [I1 I2].
    destruct (c =? 37); [|split; assumption].
    cbn [List.length]. split; [lia|]. apply Nat.eqb_neq. lia.
  - rewrite findall_cons. cbn [all_escapes].
    destruct (IH (h1 :: h2 :: t') ltac:(simpl; lia)) as [I1 I2].
    destruct (c =? 37) eqn:Ec; cbn [andb]; [|split; assumption].
    destruct (is_hex h1) eqn:E1; cbn [andb];
      [|split; [lia|apply Nat.eqb_neq; lia]].
    destruct (is_hex h2) eqn:E2; cbn [andb];
      [|split; [lia|apply Nat.eqb_neq; lia]].
    destruct (IH t' ltac:(simpl; lia)) as [J1 J2].
    rewrite !count_cons, (is_hex_not_percent _ E1), (is_hex_not_percent _ E2).
    cbn [List.length]. split; [lia|]. exact J2.
Qed.

Lemma all_escapes_spec s : all_escapes s = true <-> escapes_well_formed s.
Proof.
  induction s as [s IH] using str_length_ind. split.
  - intros H a b E. destruct s as [|c t]; [destruct a; discriminate|].
    cbn [all_escapes] in H. destruct (N.eqb_spec c 37) as [Hc|Hc].
    + destruct t as [|h1 [|h2 t']]; try discriminate.
      apply andb_prop in H as [H H3]. apply andb_prop in H as [H1 H2].
      destruct a as [|x [|y [|z a]]]; cbn [app] in E; injection E; intros; subst.
      * eauto 7.
      * vm_compute in H1. discriminate H1.
      * vm_compute in H2. discriminate H2.
      * refine (proj1 (IH _ _) H3 a b eq_refl). simpl; lia.
    + destruct a as [|x a]; cbn [app] in E; injection E; intros; subst; [congruence|].
      refine (proj1 (IH _ _) H a b eq_refl). simpl; lia.
  - intros H. destruct s as [|c t]; [reflexivity|].
    cbn [all_escapes]. destruct (N.eqb_spec c 37) as [Hc|Hc].
    + subst c. destruct (H [] t eq_refl) as (h1 & h2 & b' & Hb & H1 & H2). subst t.
      rewrite H1, H2. cbn [andb].
      apply (IH b' ltac:(simpl; lia)). intros a b E.
      apply (H (37 :: h1 :: h2 :: a) b). rewrite E. reflexivity.
    + apply (IH t ltac:(simpl; lia)). intros a b E.
      apply (H (c :: a) b). rewrite E. reflexivity.
Qed.

(** Facts on one character, by cases on its first eight bits. *)
Ltac char_cases c :=
  destruct c as [|c]; [reflexivity|];
  do 8 (try (destruct c as [c|c|]; try reflexivity)).

Lemma unreserved_spec c :
  char_in c UNRESERVED_CHARACTERS =
  is_alpha c || is_digit c || char_in c (lit "-._~").
Proof. char_cases c. Qed.

Lemma upper_hex_unreserved c :
  implb (is_upper_hex c) (char_in c UNRESERVED_CHARACTERS) = true.
Proof. char_cases c. Qed.

Lemma upper_hex_is_hex c : implb (is_upper_hex c) (is_hex c) = true.
Proof. char_cases c. Qed.

Lemma hex_unreserved c : implb (is_hex c) (char_in c UNRESERVED_CHARACTERS) = true.
Proof. char_cases c. Qed.

Lemma format_digit_upper d :
  implb (d <? 16) (is_upper_hex (ascii_upper (hex_digit d))) = true.
Proof. char_cases d. Qed.

Lemma char_in_app c a b : char_in c (a ++ b) = char_in c a || char_in c b.
Proof. apply existsb_app. Qed.

Lemma implb_true a b : implb a b = true -> a = true -> b = true.
Proof. destruct a, b; auto. Qed.

(** [lia] with quotients and remainders by constants. *)
Ltac div_lia := zify; Z.to_euclidean_division_equations; lia.

Lemma utf8_bytes c bytes :
  utf8_encode c = Ok bytes -> bytes <> [] /\ Forall (fun b => b < 256) bytes.
Proof.
  unfold utf8_encode, in_range.
  repeat match goal with
  | |- context [?a <? ?b] => destruct (N.ltb_spec a b)
  | |- context [?a <=? ?b] => destruct (N.leb_spec a b)
  end; cbn [andb]; intros E; try discriminate E;
  apply (f_equal (fun r => match r with Ok x => x | Raise _ => [] end)) in E;
  cbv beta iota in E; subst bytes; (split; [discriminate|]);
  repeat (apply Forall_cons; [div_lia|]); apply Forall_nil.
Qed.

Lemma format_bytes_escapes bytes :
  Forall (fun b => b < 256) bytes ->
  escapes_only (map ascii_upper (List.concat (map format_byte bytes))).
Proof.
  induction 1 as [|b bytes Hb _ IH]; [constructor|].
  cbn [map List.concat format_byte app]. change (ascii_upper 37) with 37.
  constructor; [| |exact IH];
    (eapply implb_true; [apply format_digit_upper|]; apply N.ltb_lt; div_lia).
Qed.

Lemma percent_encode_escapes c e :
  percent_encode c = Ok e -> e <> [] /\ escapes_only e.
Proof.
  unfold percent_encode, bind. destruct (utf8_encode c) as [bytes|] eqn:E; [|discriminate].
  intros H. injection H as <-. destruct (utf8_bytes _ _ E) as [Hne Hb]. split.
  - destruct bytes; [congruence|discriminate].
  - apply format_bytes_escapes, Hb.
Qed.

Lemma quote_unfold s safe :
  quote s safe =
  concat_map
    (fun c => if char_in c (non_escaped s safe) then Ok [c] else percent_encode c) s.
Proof. reflexivity. Qed.

Lemma concat_map_quoted keep s : forall o,
  concat_map (fun c => if char_in c keep then Ok [c] else percent_encode c) s = Ok o ->
  quoted keep s o.
Proof.
  induction s as [|c s IH]; intros o H; cbn [concat_map] in H.
  - injection H as <-. constructor.
  - destruct (char_in c keep) eqn:Ec; cbn [bind] in H.
    + destruct (concat_map _ s) as [o'|]; [|discriminate]. cbn [bind] in H.
      injection H as <-. apply quoted_keep; auto.
    + destruct (percent_encode c) as [e|] eqn:Ee; [|discriminate]. cbn [bind] in H.
      destruct (concat_map _ s) as [o'|]; [|discriminate]. cbn [bind] in H.
      injection H as <-. destruct (percent_encode_escapes _ _ Ee).
      apply quoted_escape; auto.
Qed.

Lemma concat_map_kept keep s :
  Forall (fun c => char_in c keep = true) s ->
  concat_map (fun c => if char_in c keep then Ok [c] else percent_encode c) s = Ok s.
Proof.
  induction 1 as [|c s Hc _ IH]; [reflexivity|].
  cbn [concat_map]. rewrite Hc, IH. reflexivity.
Qed.

Lemma all_escapes_from s : all_escapes s = escapes_from 0 s.
Proof.
  induction s as [s IH] using str_length_ind.
  destruct s as [|c t]; [reflexivity|]. cbn [all_escapes escapes_from].
  destruct (c =? 37); [|apply IH; simpl; lia].
  destruct t as [|h1 [|h2 t']]; cbn [escapes_from]; try reflexivity.
  - rewrite andb_false_r. reflexivity.
  - rewrite (IH t') by (simpl; lia). rewrite andb_assoc. reflexivity.
Qed.

Lemma escapes_only_from e o :
  escapes_only e -> escapes_from 0 (e ++ o) = escapes_from 0 o.
Proof.
  induction 1 as [|h1 h2 t H1 H2 _ IH]; [reflexivity|].
  cbn [app escapes_from]. change (37 =? 37) with true. cbv iota.
  rewrite (implb_true _ _ (upper_hex_is_hex h1) H1), (implb_true _ _ (upper_hex_is_hex h2) H2).
  exact IH.
Qed.

Lemma escapes_only_due e o d :
  escapes_only e -> e <> [] -> escapes_from (S d) (e ++ o) = false.
Proof. destruct 1; [congruence|reflexivity]. Qed.

Lemma quoted_escapes_kept keep s o :
  quoted keep s o -> char_in 37 keep = true ->
  (forall c, is_hex c = true -> char_in c keep = true) ->
  forall due, escapes_from due o = escapes_from due s.
Proof.
  intros Q K37 Khex. induction Q as [|c s o Hc _ IH|c e s o Hc Hne He _ IH]; intros due.
  - reflexivity.
  - cbn [escapes_from]. destruct due; rewrite ?IH; reflexivity.
  - destruct due as [|d].
    + rewrite (escapes_only_from _ _ He), IH. cbn [escapes_from].
      destruct (N.eqb_spec c 37); [congruence|reflexivity].
    + rewrite (escapes_only_due _ _ _ He Hne). cbn [escapes_from].
      destruct (is_hex c) eqn:Eh; [|reflexivity]. rewrite (Khex _ Eh) in Hc. discriminate.
Qed.

Lemma quoted_escapes_fresh keep s o :
  quoted keep s o -> char_in 37 keep = false -> escapes_from 0 o = true.
Proof.
  intros Q K37. induction Q as [|c s o Hc _ IH|c e s o Hc Hne He _ IH].
  - reflexivity.
  - cbn [escapes_from]. destruct (N.eqb_spec c 37); [congruence|exact IH].
  - rewrite (escapes_only_from _ _ He). exact IH.
Qed.

Lemma escapes_only_alphabet e :
  escapes_only e -> Forall (fun c => c = 37 \/ is_upper_hex c = true) e.
Proof.
  induction 1 as [|h1 h2 t H1 H2 _ IH]; [constructor|].
  repeat (apply Forall_cons; [auto|]). exact IH.
Qed.

Lemma quoted_alphabet keep s o :
  quoted keep s o ->
  Forall (fun c => char_in c keep = true \/ c = 37 \/ is_upper_hex c = true) o.
Proof.
  induction 1 as [|c s o Hc _ IH|c e s o Hc Hne He _ IH]; [constructor|constructor; auto|].
  apply Forall_app. split; [|exact IH].
  eapply Forall_impl; [|apply escapes_only_alphabet, He]. cbv beta. tauto.
Qed.

Lemma char_in_percent c : char_in c (lit "%") = (c =? 37).
Proof. cbn. apply orb_false_r. Qed.

Lemma non_escaped_spec s safe c :
  char_in c (non_escaped s safe) =
  char_in c UNRESERVED_CHARACTERS || char_in c safe || (all_escapes s && (c =? 37)).
Proof.
  unfold non_escaped. rewrite (proj2 (findall_count s)).
  destruct (all_escapes s); rewrite !char_in_app; cbn [andb].
  - rewrite char_in_percent. reflexivity.
  - rewrite orb_false_r. reflexivity.
Qed.

Lemma quote_quoted s safe o :
  quote s safe = Ok o -> quoted (non_escaped s safe) s o.
Proof. rewrite quote_unfold. apply concat_map_quoted. Qed.

(** What [quote] returns has well formed escapes, unless the caller made
    the percent sign itself safe. *)
Lemma quote_all_escapes s safe o :
  quote s safe = Ok o -> char_in 37 safe = false -> all_escapes o = true.
Proof.
  intros Q Hs. apply quote_quoted in Q. rewrite all_escapes_from.
  destruct (all_escapes s) eqn:Es.
  - rewrite (quoted_escapes_kept _ _ _ Q).
    + rewrite <- all_escapes_from. exact Es.
    + rewrite non_escaped_spec, Es. cbn. apply orb_true_r.
    + intros c Hc. rewrite non_escaped_spec.
      rewrite (implb_true _ _ (hex_unreserved c) Hc). reflexivity.
  - apply (quoted_escapes_fresh _ _ _ Q). rewrite non_escaped_spec, Es, Hs. reflexivity.
Qed.

Lemma quote_fixed s safe :
  Forall (fun c => char_in c (non_escaped s safe) = true) s -> quote s safe = Ok s.
Proof. rewrite quote_unfold. apply concat_map_kept. Qed.

Lemma quote_idempotent s safe o : quote s safe = Ok o -> quote o safe = Ok o.
Proof.
  intros Q. apply quote_fixed.
  assert (A := quoted_alphabet _ _ _ (quote_quoted _ _ _ Q)).
  apply Forall_forall. intros c Hc. rewrite Forall_forall in A. specialize (A c Hc).
  rewrite non_escaped_spec.
  assert (P : char_in c UNRESERVED_CHARACTERS || char_in c safe = true \/ c = 37).
  { destruct A as [A|[A|A]]; auto.
    - rewrite non_escaped_spec in A.
      apply orb_prop in A as [A|A]; auto.
      apply andb_prop in A as [_ A]. right. apply N.eqb_eq, A.
    - left. rewrite (implb_true _ _ (upper_hex_unreserved c) A). reflexivity. }
  destruct P as [P|P]; [rewrite P; reflexivity|]. subst c.
  destruct (char_in 37 safe) eqn:Hs; [rewrite orb_true_r; reflexivity|].
  rewrite (quote_all_escapes _ _ _ Q Hs). reflexivity.
Qed.

(** C4.  Percent encoding is idempotent.  A text whose percent signs each
    start an escape (two hexadecimal digits follow) and whose other
    characters are unreserved or safe is returned by [quote] as it is; and
    for every text and safe set, quoting the result of [quote] again changes
    nothing (an exception of the first call is the exception of both
    sides). *)
Theorem C4_quote_idempotent :
  (forall s safe,
     escapes_well_formed s ->
     (forall c, In c s -> c <> 37 -> char_in c (UNRESERVED_CHARACTERS ++ safe) = true) ->
     quote s safe = Ok s) /\
  (forall s safe, (o <- quote s safe ;; quote o safe) = quote s safe).
Proof.
  split.
  - intros s safe Hesc Hsafe. apply quote_fixed, Forall_forall. intros c Hc.
    rewrite non_escaped_spec, (proj2 (all_escapes_spec s) Hesc). cbn [andb].
    destruct (N.eqb_spec c 37) as [E|E]; [apply orb_true_r|].
    rewrite <- char_in_app, (Hsafe c Hc E). reflexivity.
  - intros s safe. destruct (quote s safe) as [o|e] eqn:Q; [|reflexivity].
    cbn [bind]. apply (quote_idempotent _ _ _ Q).
Qed.

Lemma C4_quote_idempotent_witness :
  quote (lit "a%20b/c") (lit "/") = Ok (lit "a%20b/c").
Proof.
  apply (proj1 C4_quote_idempotent).
  - apply all_escapes_spec. reflexivity.
  - intros c Hc Hn. cbn in Hc.
    repeat (destruct Hc as [<-|Hc];
            [solve [reflexivity | exfalso; apply Hn; reflexivity]|]).
    destruct Hc.
Defined.

(** ** Dot segments *)

Lemma normalize_step_rooted output component :
  (exists rest, output = [] :: rest) ->
  exists rest, normalize_step output component = [] :: rest.
Proof.
  intros [rest ->]. unfold normalize_step.
  destruct (str_eqb component (lit ".")); [eauto|].
  destruct (str_eqb component (lit "..")); [|cbn [app]; eauto].
  destruct rest as [|x rest]; [eauto|].
  exists (removelast (x :: rest)). reflexivity.
Qed.

Lemma normalize_fold_rooted components : forall output,
  (exists rest, output = [] :: rest) ->
  exists rest, fold_left normalize_step components output = [] :: rest.
Proof.
  induction components as [|c l IH]; intros output H; [exact H|].
  cbn [fold_left]. apply IH, normalize_step_rooted, H.
Qed.

Lemma normalize_path_rooted p :
  normalize_path (47 :: p) = [] \/ exists q, normalize_path (47 :: p) = 47 :: q.
Proof.
  unfold normalize_path. cbn [split]. change (47 =? 47) with true. cbv iota.
  cbn [fold_left].
  destruct (normalize_fold_rooted (split 47 p) (normalize_step [] []))
    as [rest ->]; [exists []; reflexivity|].
  destruct rest as [|x rest]; [left; reflexivity|right].
  cbn [join app]. eauto.
Qed.

(** C2, as the code has it.  [normalize_path] maps
    ["/path/./to/somewhere/.."] to ["/path/to"]; it maps ["/.."] to the
    empty path, not to ["/"]: a [".."] met when nothing is retained, or only
    the empty marker of the root, is dropped and the marker alone joins to
    the empty string.  The root is never popped: a path that begins with a
    slash normalises to the empty path or to a path that begins with a
    slash.  So it is for the path of a URL with an authority: that of
    ["http://example.com/.."] is stored empty. *)
Theorem C2_normalize_path :
  normalize_path (lit "/path/./to/somewhere/..") = lit "/path/to" /\
  normalize_path (lit "/..") = [] /\
  normalize_step [] (lit "..") = [] /\
  normalize_step [ [] ] (lit "..") = [ [] ] /\
  (forall p, normalize_path (47 :: p) = [] \/
             exists q, normalize_path (47 :: p) = 47 :: q) /\
  (forall rt, urlparse rt (lit "http://example.com/path/./to/somewhere/..") [] =
              Ok (example_com None (lit "/path/to") None None)) /\
  (forall rt, urlparse rt (lit "http://example.com/..") [] =
              Ok (example_com None [] None None)).
Proof.
  do 4 (split; [reflexivity|]). split; [apply normalize_path_rooted|].
  split; intros rt; vm_compute; reflexivity.
Qed.

(** C2 as stated fails: the path ["/.."] does not normalise to ["/"]. *)
Lemma C2_counterexample : normalize_path (lit "/..") <> lit "/".
Proof. vm_compute. discriminate. Qed.

(** ** Query and fragment *)

Lemma authority_with_query r q : authority (with_query r q) = authority r.
Proof. reflexivity. Qed.

Lemma authority_with_fragment r f : authority (with_fragment r f) = authority r.
Proof. reflexivity. Qed.

Lemma cons_app_neq (c : char) (s t : str) : t ++ s <> t ++ c :: s.
Proof.
  intros H. apply app_inv_head in H. apply (f_equal (@List.length char)) in H.
  cbn [List.length] in H. lia.
Qed.

(** C6.  The four URLs of the claim parse to a query and a fragment that
    are absent, present and empty, or present with text, and the canonical
    string of each result is the URL again; and no result has the same
    canonical string with an absent query (fragment) as with an empty
    one. *)
Theorem C6_query_fragment_tristate : forall rt,
  urlparse rt (lit "http://example.com") [] = Ok (example_com None [] None None) /\
  urlparse rt (lit "http://example.com?") [] = Ok (example_com None [] (Some []) None) /\
  urlparse rt (lit "http://example.com#") [] = Ok (example_com None [] None (Some [])) /\
  urlparse rt (lit "http://example.com?x=1#y") [] =
    Ok (example_com None [] (Some (lit "x=1")) (Some (lit "y"))) /\
  to_str (example_com None [] None None) = lit "http://example.com" /\
  to_str (example_com None [] (Some []) None) = lit "http://example.com?" /\
  to_str (example_com None [] None (Some [])) = lit "http://example.com#" /\
  to_str (example_com None [] (Some (lit "x=1")) (Some (lit "y"))) =
    lit "http://example.com?x=1#y" /\
  (forall r, to_str (with_query r None) <> to_str (with_query r (Some []))) /\
  (forall r, to_str (with_fragment r None) <> to_str (with_fragment r (Some []))).
Proof.
  intros rt. repeat split; try (vm_compute; reflexivity); intros r H;
    unfold to_str in H;
    rewrite ?authority_with_query, ?authority_with_fragment in H;
    cbn [scheme path query fragment with_query with_fragment] in H;
    do 3 apply app_inv_head in H.
  - apply (cons_app_neq 63 _ [] H).
  - destruct (query r) as [q|].
    + apply (cons_app_neq 35 [] (63 :: q) H).
    + discriminate H.
Qed.

(** ** Hosts that look like IPv4 addresses *)

(** C8, at the inputs that decide it.  The hosts ["12345"] and
    ["1.2.3.4.5"] of the claim are encoded as registered names; the host
    ["1234567"], digits only and no dotted quad, matches the pattern (its
    dots stand for any character), is handed to the IPv4 validation and
    refused, and so is ["1a2b3c4"]. *)
Theorem C8_ipv4_style_dispatch : forall rt,
  encode_host rt (lit "12345") = Ok (lit "12345") /\
  encode_host rt (lit "1.2.3.4.5") = Ok (lit "1.2.3.4.5") /\
  encode_host rt (lit "1234567") = Raise (InvalidURL "Invalid IPv4 address") /\
  encode_host rt (lit "1a2b3c4") = Raise (InvalidURL "Invalid IPv4 address") /\
  urlparse rt (lit "http://1234567/") [] = Raise (InvalidURL "Invalid IPv4 address").
Proof. intros rt. repeat split; vm_compute; reflexivity. Qed.

(** ** The pipeline *)

Lemma bind_ok (A B : Type) (m : result A) (k : A -> result B) b :
  bind m k = Ok b -> exists a, m = Ok a /\ k a = Ok b.
Proof. destruct m as [a|e]; [eauto|discriminate]. Qed.

Lemma urlparse_ok rt url kw r :
  urlparse rt url kw = Ok r ->
  exists c, merge_components url kw = Ok c /\ normalize_components rt c = Ok r.
Proof. apply bind_ok. Qed.

Lemma normalize_components_ok rt c r :
  normalize_components rt c = Ok r ->
  scheme r = str_lower rt (c_scheme c) /\
  quote (c_userinfo c) (SUB_DELIMS ++ lit ":") = Ok (userinfo r) /\
  encode_host rt (c_host c) = Ok (host r) /\
  normalize_port rt (c_port c) (c_scheme c) = Ok (port r) /\
  (exists p,
     (if authority_set c
      then validate_absolute_path (c_path c) = Ok tt /\ p = normalize_path (c_path c)
      else p = c_path c) /\
     quote p (SUB_DELIMS ++ lit ":@/") = Ok (path r)) /\
  quote_opt (c_query c) (SUB_DELIMS ++ lit "/?") = Ok (query r) /\
  quote_opt (c_fragment c) (SUB_DELIMS ++ lit "/?") = Ok (fragment r).
Proof.
  unfold normalize_components. fold (authority_set c). intros H.
  apply bind_ok in H as (u & Hu & H). apply bind_ok in H as (h & Hh & H).
  apply bind_ok in H as (po & Hpo & H). apply bind_ok in H as (p & Hp & H).
  apply bind_ok in H as (pp & Hpp & H). apply bind_ok in H as (q & Hq & H).
  apply bind_ok in H as (f & Hf & H). injection H as <-. cbn.
  repeat split; auto. exists p. split; [|exact Hpp].
  destruct (authority_set c); [|injection Hp as <-; reflexivity].
  apply bind_ok in Hp as ([] & Hv & Hp). injection Hp as <-. auto.
Qed.

Lemma normalize_components_intro rt c r p :
  scheme r = str_lower rt (c_scheme c) ->
  quote (c_userinfo c) (SUB_DELIMS ++ lit ":") = Ok (userinfo r) ->
  encode_host rt (c_host c) = Ok (host r) ->
  normalize_port rt (c_port c) (c_scheme c) = Ok (port r) ->
  (if authority_set c
   then validate_absolute_path (c_path c) = Ok tt /\ p = normalize_path (c_path c)
   else p = c_path c) ->
  quote p (SUB_DELIMS ++ lit ":@/") = Ok (path r) ->
  quote_opt (c_query c) (SUB_DELIMS ++ lit "/?") = Ok (query r) ->
  quote_opt (c_fragment c) (SUB_DELIMS ++ lit "/?") = Ok (fragment r) ->
  normalize_components rt c = Ok r.
Proof.
  intros Hs Hu Hh Hpo Hp Hpp Hq Hf. unfold normalize_components. fold (authority_set c).
  rewrite Hu, Hh, Hpo. cbn [bind].
  assert (E : (if authority_set c
               then _ <- validate_absolute_path (c_path c) ;; Ok (normalize_path (c_path c))
               else Ok (c_path c)) = Ok p).
  { destruct (authority_set c); [|congruence].
    destruct Hp as [Hv ->]. rewrite Hv. reflexivity. }
  rewrite E. cbn [bind]. rewrite Hpp, Hq, Hf. cbn [bind]. rewrite <- Hs.
  destruct r; reflexivity.
Qed.

Lemma normalize_port_some rt port scheme p :
  normalize_port rt port scheme = Ok (Some p) ->
  default_port scheme <> Some p /\
  exists s, port = Some s /\ s <> [] /\ int_of_str rt s = Some p.
Proof.
  unfold normalize_port. destruct port as [[|c s]|]; try discriminate.
  destruct (int_of_str rt (c :: s)) as [n|] eqn:En; [|discriminate].
  intros H. split.
  - destruct (default_port scheme) as [d|]; [|discriminate].
    destruct (Z.eqb_spec n d); [discriminate|]. injection H as <-. congruence.
  - exists (c :: s). split; [reflexivity|]. split; [discriminate|]. rewrite En.
    destruct (default_port scheme) as [d|]; [destruct (n =? d)%Z|];
      congruence.
Qed.

(** ** Ports *)

(** C5, as the code has it.  A port that is present is an integer, with
    no sign or range check, and differs from the default port of the scheme
    as it was supplied; so when the scheme was supplied as it is stored (in
    lower case), the port differs from the default port of the stored
    scheme.  The three URLs of the claim lose port 80 and 443 and keep
    8080. *)
Theorem C5_port_elision : forall rt,
  (forall url kw r p,
     urlparse rt url kw = Ok r -> port r = Some p ->
     exists c, merge_components url kw = Ok c /\
               scheme r = str_lower rt (c_scheme c) /\
               default_port (c_scheme c) <> Some p /\
               (c_scheme c = scheme r -> default_port (scheme r) <> Some p)) /\
  urlparse rt (lit "http://example.com:80/") [] = Ok (example_com None (lit "/") None None) /\
  urlparse rt (lit "http://example.com:8080/") [] =
    Ok (example_com (Some 8080%Z) (lit "/") None None) /\
  urlparse rt (lit "https://example.com:443/") [] =
    Ok (with_scheme (example_com None (lit "/") None None) (lit "https")).
Proof.
  intros rt. split; [|repeat split; vm_compute; reflexivity].
  intros url kw r p H Hp. apply urlparse_ok in H as (c & Hc & H).
  apply normalize_components_ok in H as (Hs & _ & _ & Hpo & _).
  rewrite Hp in Hpo. apply normalize_port_some in Hpo as [Hd _].
  exists c. split; [exact Hc|]. split; [exact Hs|]. split; [exact Hd|].
  intros <-. exact Hd.
Qed.

Lemma C5_port_elision_witness :
  exists c,
    merge_components (lit "http://example.com:8080/") [] = Ok c /\
    lit "http" = str_lower ascii_only (c_scheme c) /\
    default_port (c_scheme c) <> Some 8080%Z /\
    (c_scheme c = lit "http" -> default_port (lit "http") <> Some 8080%Z).
Proof.
  apply (proj1 (C5_port_elision ascii_only)
           (lit "http://example.com:8080/") [] (example_com (Some 8080%Z) (lit "/") None None)
           8080%Z); vm_compute; reflexivity.
Defined.

(** C5 as stated fails: a port that is present need not be positive. *)
Lemma C5_counterexample :
  exists r, (forall rt, urlparse rt (lit "http://example.com:0/") [] = Ok r) /\
            port r = Some 0%Z /\ ~ (0 < 0)%Z.
Proof.
  exists (example_com (Some 0%Z) (lit "/") None None).
  split; [intros rt; vm_compute; reflexivity|]. split; [reflexivity|lia].
Qed.

(** ** Which exceptions the second half raises *)

Lemma utf8_encode_raise c e : utf8_encode c = Raise e -> e = UnicodeEncodeError.
Proof.
  unfold utf8_encode.
  repeat match goal with |- context [if ?b then _ else _] => destruct b end;
    intros H; congruence.
Qed.

Lemma percent_encode_raise c e : percent_encode c = Raise e -> e = UnicodeEncodeError.
Proof.
  unfold percent_encode, bind. destruct (utf8_encode c) eqn:E; [discriminate|].
  intros H. injection H as <-. apply (utf8_encode_raise _ _ E).
Qed.

Lemma concat_map_raise f s e :
  concat_map f s = Raise e -> exists c, In c s /\ f c = Raise e.
Proof.
  induction s as [|c s IH]; cbn [concat_map]; [discriminate|].
  destruct (f c) as [a|e'] eqn:E; cbn [bind].
  - destruct (concat_map f s) as [b|e'']; cbn [bind]; [discriminate|].
    intros H. injection H as <-. destruct (IH eq_refl) as (x & Hx & Hf).
    exists x. split; [right; exact Hx|exact Hf].
  - intros H. injection H as <-. exists c. split; [left; reflexivity|exact E].
Qed.

Lemma quote_raise s safe e : quote s safe = Raise e -> e = UnicodeEncodeError.
Proof.
  rewrite quote_unfold. intros H. apply concat_map_raise in H as (c & _ & H).
  destruct (char_in c (non_escaped s safe)); [discriminate|].
  apply (percent_encode_raise _ _ H).
Qed.

Lemma quote_ascii_total s safe :
  forallb (fun c => c <=? 127) s = true -> exists o, quote s safe = Ok o.
Proof.
  intros H. destruct (quote s safe) as [o|e] eqn:Q; [eauto|exfalso].
  rewrite quote_unfold in Q. apply concat_map_raise in Q as (c & Hc & Q).
  rewrite forallb_forall in H. specialize (H c Hc). apply N.leb_le in H.
  destruct (char_in c (non_escaped s safe)); [discriminate|].
  unfold percent_encode, utf8_encode in Q.
  destruct (N.ltb_spec c 128); [discriminate|lia].
Qed.

Lemma forallb_ext_in (p q : char -> bool) s :
  (forall c, p c = q c) -> forallb p s = forallb q s.
Proof. intros H. induction s as [|c s IH]; cbn; [|rewrite H, IH]; reflexivity. Qed.

Lemma ascii_forallb s : forallb (fun c => c <=? 127) s = forallb isascii s.
Proof.
  apply forallb_ext_in. intros c. unfold isascii.
  destruct (N.leb_spec c 127), (N.ltb_spec c 128); try reflexivity; lia.
Qed.

Lemma str_lower_ascii rt s :
  forallb isascii s = true -> str_lower rt s = map ascii_lower s.
Proof. unfold str_lower. intros ->. reflexivity. Qed.

Lemma ascii_lower_ascii c : implb (isascii c) (isascii (ascii_lower c)) = true.
Proof. char_cases c. Qed.

Lemma map_lower_ascii s :
  forallb isascii s = true -> forallb isascii (map ascii_lower s) = true.
Proof.
  induction s as [|c s IH]; [reflexivity|]. cbn [forallb map]. intros H.
  apply andb_prop in H as [H1 H2].
  rewrite (implb_true _ _ (ascii_lower_ascii c) H1), (IH H2). reflexivity.
Qed.

Lemma encode_host_raise rt h e :
  encode_host rt h = Raise e -> exists msg, e = InvalidURL msg.
Proof.
  unfold encode_host.
  destruct (nonempty h); cbn [negb]; [|discriminate].
  destruct (match_anchored IPv4_STYLE_HOSTNAME h).
  { destruct (IPv4Address h); [discriminate|]. intros H. injection H as <-. eauto. }
  destruct (match_anchored IPv6_STYLE_HOSTNAME h).
  { destruct (IPv6Address_ok _); [discriminate|]. intros H. injection H as <-. eauto. }
  destruct (forallb (fun c => c <=? 127) h) eqn:A.
  - rewrite ascii_forallb in A. rewrite (str_lower_ascii rt h A).
    destruct (quote_ascii_total (map ascii_lower h) SUB_DELIMS) as [o ->];
      [|discriminate].
    rewrite ascii_forallb. apply map_lower_ascii, A.
  - destruct (idna_hostname rt _); [discriminate|]. intros H. injection H as <-. eauto.
Qed.

Lemma normalize_port_raise rt port scheme e :
  normalize_port rt port scheme = Raise e -> e = InvalidURL "Invalid port".
Proof.
  unfold normalize_port. destruct port as [[|c s]|]; try discriminate.
  destruct (int_of_str rt (c :: s)); [|congruence].
  destruct (default_port scheme); [destruct (_ =? _)%Z|]; discriminate.
Qed.

(** ** The absolute path rule *)

Lemma quote_nil safe : quote [] safe = Ok [].
Proof. reflexivity. Qed.

Lemma authority_set_false rt c r :
  normalize_components rt c = Ok r -> authority_set c = false -> authority r = [].
Proof.
  intros H A. apply normalize_components_ok in H as (_ & Hu & Hh & Hp & _).
  unfold authority_set in A.
  apply orb_false_elim in A as [A A3]. apply orb_false_elim in A as [A1 A2].
  destruct (c_userinfo c); [|discriminate]. destruct (c_host c); [|discriminate].
  cbn in Hu, Hh. injection Hu as Hu. injection Hh as Hh.
  assert (port r = None) as Hp'.
  { destruct (c_port c) as [[|x s]|]; cbn in Hp, A3; congruence. }
  unfold authority. rewrite <- Hu, <- Hh, Hp'. reflexivity.
Qed.

Lemma quote_keeps_slash q safe o :
  char_in 47 safe = true -> quote (47 :: q) safe = Ok o -> startswith 47 o = true.
Proof.
  intros Hs Q. apply quote_quoted in Q.
  inversion Q as [|c s o' Hc Q'|c e' s o' Hc Hne He Q']; subst; [reflexivity|].
  rewrite non_escaped_spec, Hs, orb_true_r in Hc. discriminate.
Qed.

Lemma normalized_path_absolute rt c r :
  normalize_components rt c = Ok r -> authority_set c = true ->
  path r = [] \/ startswith 47 (path r) = true.
Proof.
  intros H A. apply normalize_components_ok in H as (_ & _ & _ & _ & (p & Hp & Q) & _).
  rewrite A in Hp. destruct Hp as [Hv ->].
  unfold validate_absolute_path in Hv. revert Hv Q.
  destruct (c_path c) as [|x t]; intros Hv Q.
  - left. cbn in Q. congruence.
  - cbn [nonempty startswith andb] in Hv.
    destruct (N.eqb_spec x 47) as [->|]; [|discriminate].
    destruct (normalize_path_rooted t) as [HN|[q HN]]; rewrite HN in Q.
    + left. cbn in Q. congruence.
    + right. eapply quote_keeps_slash; [|exact Q]. reflexivity.
Qed.

(** C7, as the code has it.  When the merged userinfo, host or port is
    set and the merged path is not empty and does not begin with a slash,
    [urlparse] fails: with [InvalidURL], or with [UnicodeEncodeError] when
    percent-encoding the userinfo, which comes first, meets a code point
    that UTF-8 cannot encode.  The overrides host ["x"], path ["y"] fail
    with [InvalidURL].  Every result whose authority is not empty has a
    path that is empty or begins with a slash. *)
Theorem C7_absolute_path : forall rt,
  (forall url kw c,
     merge_components url kw = Ok c ->
     authority_set c = true ->
     nonempty (c_path c) = true -> startswith 47 (c_path c) = false ->
     (exists msg, urlparse rt url kw = Raise (InvalidURL msg)) \/
     (urlparse rt url kw = Raise UnicodeEncodeError /\
      quote (c_userinfo c) (SUB_DELIMS ++ lit ":") = Raise UnicodeEncodeError)) /\
  urlparse rt [] [("host", KStr (lit "x")); ("path", KStr (lit "y"))]%string =
    Raise (InvalidURL "For absolute URLs, path must be empty or begin with '/'") /\
  (forall url kw r,
     urlparse rt url kw = Ok r -> nonempty (authority r) = true ->
     path r = [] \/ startswith 47 (path r) = true).
Proof.
  intros rt. split; [|split; [vm_compute; reflexivity|]].
  - intros url kw c Hc A Hne Hrel. unfold urlparse. rewrite Hc. cbn [bind].
    unfold normalize_components. fold (authority_set c). rewrite A.
    destruct (quote (c_userinfo c) _) as [u|e] eqn:Qu; cbn [bind].
    2:{ right. rewrite (quote_raise _ _ _ Qu). auto. }
    left. destruct (encode_host rt (c_host c)) as [h|e] eqn:Eh; cbn [bind].
    2:{ destruct (encode_host_raise _ _ _ Eh) as [msg ->]. eauto. }
    destruct (normalize_port rt (c_port c) (c_scheme c)) as [p|e] eqn:Ep; cbn [bind].
    2:{ rewrite (normalize_port_raise _ _ _ _ Ep). eauto. }
    unfold validate_absolute_path. rewrite Hne, Hrel. cbn. eauto.
  - intros url kw r H Hne. apply urlparse_ok in H as (c & _ & H).
    destruct (authority_set c) eqn:A.
    + apply (normalized_path_absolute _ _ _ H A).
    + rewrite (authority_set_false _ _ _ H A) in Hne. discriminate.
Qed.

Lemma C7_absolute_path_witness :
  (exists msg,
     urlparse ascii_only [] [("host", KStr (lit "x")); ("path", KStr (lit "y"))]%string =
     Raise (InvalidURL msg)) \/
  (urlparse ascii_only [] [("host", KStr (lit "x")); ("path", KStr (lit "y"))]%string =
     Raise UnicodeEncodeError /\
   quote [] (SUB_DELIMS ++ lit ":") = Raise UnicodeEncodeError).
Proof.
  apply (proj1 (C7_absolute_path ascii_only) []
           [("host", KStr (lit "x")); ("path", KStr (lit "y"))]%string
           {| c_scheme := []; c_userinfo := []; c_host := lit "x"; c_port := Some [];
              c_path := lit "y"; c_query := None; c_fragment := None |});
    vm_compute; reflexivity.
Defined.

(** C7 as stated fails: with a lone surrogate in the userinfo, an
    authority and a relative path, the failure is not [InvalidURL]. *)
Lemma C7_counterexample :
  exists c e,
    merge_components []
      [("userinfo", KStr [55296]); ("host", KStr (lit "x")); ("path", KStr (lit "y"))]%string
      = Ok c /\
    authority_set c = true /\ nonempty (c_path c) = true /\
    startswith 47 (c_path c) = false /\
    (forall rt,
       urlparse rt []
         [("userinfo", KStr [55296]); ("host", KStr (lit "x")); ("path", KStr (lit "y"))]%string
       = Raise e) /\
    is_InvalidURL e = false.
Proof.
  exists {| c_scheme := []; c_userinfo := [55296]; c_host := lit "x"; c_port := Some [];
            c_path := lit "y"; c_query := None; c_fragment := None |}, UnicodeEncodeError.
  repeat split; try intros rt; vm_compute; reflexivity.
Qed.

(** ** Unrecognized keyword arguments *)

Arguments recognized k : simpl never.

Lemma known_entry_pair k (v : kwval) : known_entry (k, v) = recognized k.
Proof. reflexivity. Qed.

Lemma unknown_entry_pair k (v : kwval) : unknown_entry (k, v) = negb (recognized k).
Proof. reflexivity. Qed.

Lemma kw_get_known k (kw : kwargs) :
  recognized k = true -> kw_get k (filter known_entry kw) = kw_get k kw.
Proof.
  intros Hk. induction kw as [|[k' v] kw IH]; [reflexivity|].
  cbn [filter kw_get]. rewrite known_entry_pair.
  destruct (recognized k') eqn:R; cbn [kw_get]; rewrite IH; [reflexivity|].
  destruct (String.eqb_spec k' k); [congruence|reflexivity].
Qed.

Lemma kw_set_known k v (kw : kwargs) :
  recognized k = true ->
  kw_set k v (filter known_entry kw) = filter known_entry (kw_set k v kw).
Proof.
  intros Hk. induction kw as [|[k' v'] kw IH].
  - cbn [filter kw_set]. rewrite known_entry_pair, Hk. reflexivity.
  - cbn [filter kw_set]. rewrite known_entry_pair.
    destruct (String.eqb_spec k' k) as [->|Hne].
    + rewrite Hk. cbn [kw_set filter]. rewrite String.eqb_refl, known_entry_pair, Hk.
      reflexivity.
    + destruct (recognized k') eqn:R; cbn [kw_set filter];
        rewrite known_entry_pair, R, <- IH; [|reflexivity].
      destruct (String.eqb_spec k' k); [congruence|reflexivity].
Qed.

Lemma kw_set_unknown k v (kw : kwargs) :
  recognized k = true ->
  filter unknown_entry (kw_set k v kw) = filter unknown_entry kw.
Proof.
  intros Hk. induction kw as [|[k' v'] kw IH].
  - cbn [filter kw_set]. rewrite unknown_entry_pair, Hk. reflexivity.
  - cbn [kw_set]. destruct (String.eqb_spec k' k) as [->|Hne].
    + cbn [filter]. rewrite !unknown_entry_pair, Hk. reflexivity.
    + cbn [filter]. rewrite IH. reflexivity.
Qed.

Lemma kw_del_known k (kw : kwargs) :
  kw_del k (filter known_entry kw) = filter known_entry (kw_del k kw).
Proof.
  unfold kw_del. induction kw as [|e kw IH]; [reflexivity|].
  cbn [filter]. destruct (known_entry e) eqn:K;
    destruct (negb (String.eqb (fst e) k)) eqn:D; cbn [filter];
    rewrite ?K, ?D, IH; reflexivity.
Qed.

Lemma kw_del_unknown k (kw : kwargs) :
  recognized k = true ->
  filter unknown_entry (kw_del k kw) = filter unknown_entry kw.
Proof.
  intros Hk. unfold kw_del. induction kw as [|[k' v] kw IH]; [reflexivity|].
  cbn [filter fst]. destruct (String.eqb_spec k' k) as [->|Hne]; cbn [negb filter].
  - rewrite unknown_entry_pair, Hk. exact IH.
  - rewrite IH. reflexivity.
Qed.

Lemma kw_in_known k (kw : kwargs) :
  recognized k = true -> kw_in k (filter known_entry kw) = kw_in k kw.
Proof. intros Hk. unfold kw_in. rewrite kw_get_known by exact Hk. reflexivity. Qed.

Lemma kw_get_default_known k (kw : kwargs) d :
  recognized k = true ->
  kw_get_default k (filter known_entry kw) d = kw_get_default k kw d.
Proof. intros Hk. unfold kw_get_default. rewrite kw_get_known by exact Hk. reflexivity. Qed.

(** Rewriting with the lemmas above, for the recognized names. *)
Ltac known_keys :=
  repeat first
    [ rewrite kw_del_known
    | rewrite kw_get_known by reflexivity
    | rewrite kw_in_known by reflexivity
    | rewrite kw_get_default_known by reflexivity
    | rewrite kw_set_known by reflexivity
    | rewrite kw_set_unknown by reflexivity
    | rewrite kw_del_unknown by reflexivity ].

Lemma coerce_port_respects : respects_unknown coerce_port.
Proof.
  intros kw. unfold coerce_port. known_keys.
  destruct (kw_get "port" kw) as [[| |z]|]; known_keys; auto.
  destruct (str_of_int z) as [s|e]; cbn [bind]; known_keys; auto.
Qed.

Lemma replace_netloc_respects : respects_unknown replace_netloc.
Proof.
  intros kw. unfold replace_netloc. known_keys.
  destruct (kw_get "netloc" kw) as [v|]; [|auto].
  destruct (as_str _ (or_empty v)) as [n|e]; cbn [bind]; [|reflexivity].
  destruct (partition 58 n) as [[h s] p]. known_keys. auto.
Qed.

Lemma replace_username_password_respects : respects_unknown replace_username_password.
Proof.
  intros kw. unfold replace_username_password. known_keys.
  destruct (kw_in "username" kw || kw_in "password" kw); [|auto].
  destruct (as_str _ (or_empty (kw_get_default "username" kw _))) as [u|e];
    cbn [bind]; [|reflexivity].
  destruct (quote u _) as [username|e]; cbn [bind]; [|reflexivity].
  known_keys.
  destruct (as_str _ (or_empty (kw_get_default "password" _ _))) as [p|e];
    cbn [bind]; [|reflexivity].
  destruct (quote p _) as [password|e]; cbn [bind]; [|reflexivity].
  known_keys. auto.
Qed.

Lemma replace_full_path_respects : respects_unknown replace_full_path.
Proof.
  intros kw. unfold replace_full_path. known_keys.
  destruct (kw_get "full_path" kw) as [v|]; [|auto].
  destruct (as_str _ (or_empty v)) as [n|e]; cbn [bind]; [|reflexivity].
  destruct (partition 63 n) as [[p s] q]. destruct s; known_keys; auto.
Qed.

Lemma bracket_host_respects : respects_unknown bracket_host.
Proof.
  intros kw. unfold bracket_host. known_keys.
  destruct (kw_get "host" kw) as [v|]; [|auto].
  destruct (as_str _ (or_empty v)) as [h|e]; cbn [bind]; [|reflexivity].
  destruct (_ && _); known_keys; auto.
Qed.

Lemma respects_bind f g :
  respects_unknown f -> respects_unknown g ->
  respects_unknown (fun kw => kw' <- f kw ;; g kw').
Proof.
  intros Hf Hg kw. specialize (Hf kw).
  destruct (f kw) as [kw1|e]; cbn [bind].
  - destruct Hf as [Hf1 Hf2]. rewrite Hf1. cbn [bind]. specialize (Hg kw1).
    destruct (g kw1) as [kw2|e]; [|exact Hg].
    destruct Hg as [Hg1 Hg2]. split; [exact Hg1|congruence].
  - rewrite Hf. reflexivity.
Qed.

Lemma special_keys_respects : respects_unknown special_keys.
Proof.
  unfold special_keys.
  apply (respects_bind coerce_port); [apply coerce_port_respects|].
  apply (respects_bind replace_netloc); [apply replace_netloc_respects|].
  apply (respects_bind replace_username_password);
    [apply replace_username_password_respects|].
  apply (respects_bind replace_full_path);
    [apply replace_full_path_respects|].
  intros kw. assert (B := bracket_host_respects kw).
  destruct (bracket_host kw); exact B.
Qed.

Lemma component_regex_recognized k :
  recognized k = false -> COMPONENT_REGEX k = None.
Proof.
  unfold recognized, COMPONENT_REGEX. cbn [existsb].
  repeat (destruct (String.eqb k _); [discriminate|cbn [orb]]). reflexivity.
Qed.

Lemma validate_kwargs_known kw kw' :
  validate_kwargs kw = Ok kw' -> filter unknown_entry kw = [].
Proof.
  revert kw'. induction kw as [|[k v] kw IH]; intros kw' H; [reflexivity|].
  cbn [validate_kwargs] in H. cbn [filter]. rewrite unknown_entry_pair.
  destruct (recognized k) eqn:R; cbn [negb].
  - destruct (COMPONENT_REGEX k); [|discriminate].
    destruct v as [|s|z]; [| |discriminate].
    + apply bind_ok in H as (y & Hr & _). apply (IH _ Hr).
    + destruct (too_long s); [discriminate|]. destruct (has_control s); [discriminate|].
      destruct (negb (fullmatch _ s)); [discriminate|].
      apply bind_ok in H as (y & Hr & _). apply (IH _ Hr).
  - rewrite (component_regex_recognized _ R) in H. discriminate.
Qed.

(** The loop stops at the first bad entry: up to the first unrecognized
    name it does what it does on the entries before that name. *)
Lemma validate_kwargs_before kw :
  forall k v rest,
    filter unknown_entry kw = (k, v) :: rest ->
    validate_kwargs kw =
    (_ <- validate_kwargs (before_unrecognized kw) ;; Raise (invalid_keyword k)).
Proof.
  induction kw as [|[k' v'] kw IH]; intros k v rest Hu; [discriminate|].
  cbn [filter] in Hu. rewrite unknown_entry_pair in Hu.
  cbn [before_unrecognized fst]. destruct (recognized k') eqn:R; cbn [negb] in Hu.
  - cbn [validate_kwargs]. destruct (COMPONENT_REGEX k'); [|reflexivity].
    destruct v' as [|s|z]; [| |reflexivity].
    + rewrite (IH _ _ _ Hu).
      destruct (validate_kwargs (before_unrecognized kw)); reflexivity.
    + destruct (too_long s); [reflexivity|]. destruct (has_control s); [reflexivity|].
      destruct (negb (fullmatch _ s)); [reflexivity|]. rewrite (IH _ _ _ Hu).
      destruct (validate_kwargs (before_unrecognized kw)); reflexivity.
  - injection Hu as -> _ _. cbn [validate_kwargs bind].
    rewrite (component_regex_recognized _ R). reflexivity.
Qed.

Lemma merge_components_ok url kw c :
  merge_components url kw = Ok c ->
  too_long url = false /\ has_control url = false /\
  exists kw1 kw2,
    special_keys kw = Ok kw1 /\ validate_kwargs kw1 = Ok kw2 /\ c = merge_groups url kw2.
Proof.
  unfold merge_components. destruct (too_long url); [discriminate|].
  destruct (has_control url); [discriminate|]. intros H.
  apply bind_ok in H as (kw1 & H1 & H). apply bind_ok in H as (kw2 & H2 & H).
  injection H as <-. eauto 7.
Qed.

Lemma first_unrecognized_some kw k :
  first_unrecognized kw = Some k ->
  recognized k = false /\ exists v rest, filter unknown_entry kw = (k, v) :: rest.
Proof.
  unfold first_unrecognized.
  destruct (filter unknown_entry kw) as [|[k' v] rest] eqn:F; [discriminate|].
  intros H. injection H as ->. split; [|eauto].
  assert (J : In (k, v) (filter unknown_entry kw)) by (rewrite F; left; reflexivity).
  apply filter_In in J as [_ J]. rewrite unknown_entry_pair in J.
  apply negb_true_iff in J. exact J.
Qed.

(** C9, as the code has it.  With a keyword argument of an unrecognized
    name [urlparse] returns no result, and what it raises is fixed by the
    order of its checks: the length of the URL, its control characters,
    the special keys, then the loop over the entries, which stops at the
    first bad one.  So it raises the [TypeError] for the first unrecognized
    name unless one of the two checks of the URL fails, the special keys
    raise, or an entry that stands before that name after the special keys
    is invalid; what is found in the normalisation only, as the port of
    ["http://a.com:abc/"], comes too late to be raised. *)
Theorem C9_unrecognized_keyword : forall rt url kw k,
  first_unrecognized kw = Some k ->
  recognized k = false /\
  (forall r, urlparse rt url kw <> Ok r) /\
  urlparse rt url kw =
    (if too_long url then Raise (InvalidURL "URL too long")
     else if has_control url then
       Raise (InvalidURL "Invalid non-printable ASCII character in URL")
     else
       kw1 <- special_keys kw ;;
       _ <- validate_kwargs (before_unrecognized kw1) ;;
       Raise (invalid_keyword k)) /\
  urlparse rt (lit "http://a.com:abc/") [("colour", KStr (lit "red"))]%string =
    Raise (invalid_keyword "colour") /\
  urlparse rt (lit "http://a.com:abc/") [] = Raise (InvalidURL "Invalid port").
Proof.
  intros rt url kw k Hk. destruct (first_unrecognized_some _ _ Hk) as (Rk & v & rest & F).
  assert (E : urlparse rt url kw =
    (if too_long url then Raise (InvalidURL "URL too long")
     else if has_control url then
       Raise (InvalidURL "Invalid non-printable ASCII character in URL")
     else
       kw1 <- special_keys kw ;;
       _ <- validate_kwargs (before_unrecognized kw1) ;;
       Raise (invalid_keyword k))).
  { unfold urlparse, merge_components. destruct (too_long url); [reflexivity|].
    destruct (has_control url); [reflexivity|].
    assert (S := special_keys_respects kw).
    destruct (special_keys kw) as [kw1|e]; [|reflexivity]. destruct S as [_ S].
    rewrite <- S in F. cbn [bind]. rewrite (validate_kwargs_before _ _ _ _ F).
    destruct (validate_kwargs (before_unrecognized kw1)); reflexivity. }
  split; [exact Rk|]. split; [|split; [exact E|split; vm_compute; reflexivity]].
  intros r H. rewrite E in H. destruct (too_long url); [discriminate|].
  destruct (has_control url); [discriminate|].
  destruct (special_keys kw) as [kw1|e]; [|discriminate]. cbn [bind] in H.
  destruct (validate_kwargs (before_unrecognized kw1)); discriminate.
Qed.

Lemma C9_unrecognized_keyword_witness :
  recognized "colour" = false /\
  (forall r, urlparse ascii_only (lit "http://a.com/")
               [("path", KStr (lit "/p")); ("colour", KStr (lit "red"));
                ("port", KStr (lit "x"))]%string <> Ok r) /\
  urlparse ascii_only (lit "http://a.com/")
    [("path", KStr (lit "/p")); ("colour", KStr (lit "red")); ("port", KStr (lit "x"))]%string
  = Raise (invalid_keyword "colour").
Proof.
  destruct (C9_unrecognized_keyword ascii_only (lit "http://a.com/")
              [("path", KStr (lit "/p")); ("colour", KStr (lit "red"));
               ("port", KStr (lit "x"))]%string
              "colour"%string eq_refl) as (R & N & E & _).
  split; [exact R|]. split; [exact N|]. rewrite E. vm_compute. reflexivity.
Defined.

(** C9 as stated fails: an invalid argument met before the unrecognized
    one decides the failure, here [InvalidURL] for the path. *)
Lemma C9_counterexample :
  recognized "colour" = false /\
  forall rt,
    urlparse rt (lit "http://a.com/")
      [("path", KStr (lit "a#b")); ("colour", KStr (lit "red"))]%string
    = Raise (InvalidURL "Invalid URL component 'path'").
Proof. split; [reflexivity|]. intros rt. vm_compute. reflexivity. Qed.

(** ** Explicit [None] *)

Lemma kw_get_set k k' v (kw : kwargs) :
  kw_get k (kw_set k' v kw) = if String.eqb k' k then Some v else kw_get k kw.
Proof.
  induction kw as [|[k0 v0] kw IH]; cbn [kw_set kw_get].
  - destruct (String.eqb k' k); reflexivity.
  - destruct (String.eqb_spec k0 k') as [->|Hne]; cbn [kw_get].
    + destruct (String.eqb k' k); reflexivity.
    + rewrite IH. destruct (String.eqb_spec k0 k) as [->|]; [|reflexivity].
      destruct (String.eqb_spec k' k); [congruence|reflexivity].
Qed.

Lemma In_component_names name :
  In name component_names ->
  name = "scheme"%string \/ name = "userinfo"%string \/ name = "host"%string \/
  name = "port"%string \/ name = "path"%string \/ name = "query"%string \/
  name = "fragment"%string.
Proof. cbn. intuition auto. Qed.

(** Case analysis on a component name. *)
Ltac component_cases H :=
  apply In_component_names in H;
  destruct H as [->|[->|[->|[->|[->|[->| ->]]]]]].

Lemma special_keys_none kw name kw1 :
  In name component_names -> no_alias kw -> kw_get name kw = Some KNone ->
  special_keys kw = Ok kw1 -> kw_get name kw1 = Some KNone.
Proof.
  intros Hn (A1 & A2 & A3 & A4) Hk. unfold special_keys.
  assert (P : forall kw0, coerce_port kw = Ok kw0 ->
              kw_get name kw0 = Some KNone /\
              kw_get "netloc" kw0 = None /\
              kw_get "username" kw0 = None /\
              kw_get "password" kw0 = None /\
              kw_get "full_path" kw0 = None /\
              (kw_get "host" kw0 = kw_get "host" kw)).
  { unfold coerce_port. intros kw0.
    destruct (kw_get "port" kw) as [[| |z]|] eqn:Ep;
      [| |destruct (str_of_int z) as [s|e]; cbn [bind]; [|discriminate]|];
      intros E; injection E as <-;
      rewrite ?kw_get_set; cbn [String.eqb Ascii.eqb Bool.eqb]; auto 10;
      (split; [|auto 10]); component_cases Hn; cbn; congruence. }
  destruct (coerce_port kw) as [kw0|e]; cbn [bind]; [|discriminate].
  destruct (P kw0 eq_refl) as (P0 & P1 & P2 & P3 & P4 & P5).
  unfold replace_netloc. rewrite P1. cbn [bind].
  unfold replace_username_password, kw_in. rewrite P2, P3. cbn [is_some orb bind].
  unfold replace_full_path. rewrite P4. cbn [bind].
  unfold bracket_host. destruct (kw_get "host" kw0) as [v|] eqn:Eh.
  2:{ intros H. injection H as <-. exact P0. }
  destruct (as_str _ (or_empty v)) as [h|e] eqn:Es; cbn [bind]; [|discriminate].
  destruct (char_in 58 h && _) eqn:Ec; intros H; injection H as <-; [|exact P0].
  rewrite kw_get_set. destruct (String.eqb_spec "host" name) as [<-|]; [|exact P0].
  rewrite P0 in Eh. injection Eh as <-. cbn in Es. injection Es as <-. discriminate Ec.
Qed.

Lemma validate_kwargs_get kw : forall kw' k,
  validate_kwargs kw = Ok kw' -> kw_get k kw' = option_map validated (kw_get k kw).
Proof.
  induction kw as [|[k0 v0] kw IH]; intros kw' k H; cbn [validate_kwargs] in H.
  - injection H as <-. reflexivity.
  - destruct (COMPONENT_REGEX k0); [|discriminate].
    destruct v0 as [|s|z]; [| |discriminate].
    + apply bind_ok in H as (y & Hy & H). injection H as <-. cbn [kw_get].
      destruct (String.eqb k0 k); [reflexivity|apply IH, Hy].
    + destruct (too_long s); [discriminate|]. destruct (has_control s); [discriminate|].
      destruct (negb (fullmatch _ s)); [discriminate|].
      apply bind_ok in H as (y & Hy & H). injection H as <-. cbn [kw_get].
      destruct (String.eqb k0 k); [reflexivity|apply IH, Hy].
Qed.

Lemma merge_groups_none url kw name :
  In name component_names -> kw_get name kw = Some None ->
  cleared_component name (merge_groups url kw).
Proof.
  intros Hn Hk. unfold merge_groups, kw_get_default.
  component_cases Hn; cbn; rewrite Hk; reflexivity.
Qed.

Lemma str_lower_nil rt : str_lower rt [] = [].
Proof. reflexivity. Qed.

Lemma normalize_components_none rt c r name :
  In name component_names -> cleared_component name c ->
  normalize_components rt c = Ok r -> cleared name r.
Proof.
  intros Hn Hc H.
  apply normalize_components_ok in H as (Hs & Hu & Hh & Hp & (p & Hpp & Hq) & Hy & Hf).
  component_cases Hn; cbn in Hc |- *.
  - rewrite Hs, Hc. reflexivity.
  - rewrite Hc in Hu. cbn in Hu. congruence.
  - rewrite Hc in Hh. cbn in Hh. congruence.
  - rewrite Hc in Hp. cbn in Hp. congruence.
  - rewrite Hc in Hpp. assert (p = []) as ->.
    { destruct (authority_set c); [destruct Hpp as [_ ->]; reflexivity|exact Hpp]. }
    cbn in Hq. congruence.
  - rewrite Hc in Hy. cbn in Hy. congruence.
  - rewrite Hc in Hf. cbn in Hf. congruence.
Qed.

Lemma urlparse_none rt url kw name r :
  In name component_names -> kw_get name kw = Some KNone -> no_alias kw ->
  urlparse rt url kw = Ok r -> cleared name r.
Proof.
  intros Hn Hk Ha H. apply urlparse_ok in H as (c & Hc & H).
  apply merge_components_ok in Hc as (_ & _ & kw1 & kw2 & H1 & H2 & ->).
  eapply normalize_components_none; [exact Hn| |exact H].
  apply merge_groups_none; [exact Hn|].
  rewrite (validate_kwargs_get _ _ name H2), (special_keys_none _ _ _ Hn Ha Hk H1).
  reflexivity.
Qed.

Lemma copy_with_none rt self name r :
  In name component_names -> copy_with rt self [(name, KNone)] = Ok r -> cleared name r.
Proof.
  intros Hn H. unfold copy_with in H. cbn [fold_left fst snd] in H.
  apply (urlparse_none rt _ _ name r Hn) in H; [exact H| |].
  - rewrite kw_get_set, String.eqb_refl. reflexivity.
  - unfold no_alias. rewrite !kw_get_set.
    component_cases Hn; cbn; auto.
Qed.

Lemma quote_total s safe : encodable s -> exists o, quote s safe = Ok o.
Proof.
  intros E. destruct (quote s safe) as [o|e] eqn:Q; [eauto|exfalso].
  assert (e = UnicodeEncodeError) as -> by apply (quote_raise _ _ _ Q).
  rewrite quote_unfold in Q. apply concat_map_raise in Q as (c & Hc & Q).
  destruct (char_in c _); [discriminate|]. unfold percent_encode, bind in Q.
  destruct (utf8_encode c) eqn:U; [discriminate|].
  apply (E c Hc). rewrite U. f_equal. apply (utf8_encode_raise _ _ U).
Qed.

Lemma span_app p s : s = fst (span p s) ++ snd (span p s).
Proof.
  induction s as [|c s IH]; [reflexivity|]. cbn [span].
  destruct (p c); [|reflexivity]. destruct (span p s) as [a b]. cbn in *.
  congruence.
Qed.

Lemma match_scheme_app s x rest : match_scheme s = Some (x, rest) -> s = x ++ 58 :: rest.
Proof.
  unfold match_scheme. destruct s as [|c t]; [discriminate|].
  destruct (is_alpha c); [|discriminate].
  rewrite (span_app is_scheme_char t) at 2. destruct (span is_scheme_char t) as [a b].
  cbn [fst snd]. destruct b as [|y b]; [discriminate|].
  destruct (N.eqb_spec y 58) as [->|Hy].
  - intros H. injection H as <- <-. reflexivity.
  - intros H. exfalso. revert H. clear -Hy.
    destruct y as [|y]; [discriminate|].
    do 6 (destruct y as [y|y|]; try discriminate). congruence.
Qed.

Lemma match_authority_app s x rest :
  match_authority s = Some (x, rest) -> s = 47 :: 47 :: x ++ rest.
Proof.
  unfold match_authority. intros H.
  assert (exists t, s = 47 :: 47 :: t /\
                    span (fun c => negb (char_in c (lit "/?#"))) t = (x, rest))
    as (t & -> & E).
  { destruct s as [|a [|b t]]; try discriminate;
      [destruct a as [|a]; [discriminate|];
       do 6 (destruct a as [a|a|]; try discriminate)|].
    destruct a as [|a]; [discriminate|].
    do 6 (destruct a as [a|a|]; try discriminate).
    destruct b as [|b]; [discriminate|].
    do 6 (destruct b as [b|b|]; try discriminate).
    exists t. split; [reflexivity|congruence]. }
  rewrite (span_app (fun c => negb (char_in c (lit "/?#"))) t) at 1. rewrite E. reflexivity.
Qed.

Lemma path_group_eq url :
  g_path (URL_REGEX_match url) =
  fst (span (fun c => negb (char_in c (lit "?#"))) (after_authority (after_scheme url))).
Proof.
  unfold URL_REGEX_match, after_scheme, after_authority.
  destruct (match_scheme url) as [[sc s1]|];
    [destruct (match_authority s1) as [[au s2]|]
    |destruct (match_authority url) as [[au s2]|]];
    match goal with |- context [span ?p ?s] => destruct (span p s) as [pa s3] end;
    destruct (match_query s3) as [[q s4]|]; reflexivity.
Qed.

Lemma after_scheme_in url x : In x (after_scheme url) -> In x url.
Proof.
  unfold after_scheme. destruct (match_scheme url) as [[sc s1]|] eqn:E; [|auto].
  apply match_scheme_app in E. subst url. intros H.
  apply in_or_app. right. right. exact H.
Qed.

Lemma after_authority_in s x : In x (after_authority s) -> In x s.
Proof.
  unfold after_authority. destruct (match_authority s) as [[au s2]|] eqn:E; [|auto].
  apply match_authority_app in E. subst s. intros H.
  right. right. apply in_or_app. right. exact H.
Qed.

Lemma path_group_in url x : In x (g_path (URL_REGEX_match url)) -> In x url.
Proof.
  rewrite path_group_eq. intros H.
  apply after_scheme_in, after_authority_in.
  rewrite (span_app (fun c => negb (char_in c (lit "?#"))) _).
  apply in_or_app. left. exact H.
Qed.

Lemma normalize_port_total rt p s s' x :
  normalize_port rt p s = Ok x -> exists y, normalize_port rt p s' = Ok y.
Proof.
  unfold normalize_port. destruct p as [[|c t]|]; eauto.
  destruct (int_of_str rt (c :: t)); [|discriminate]. intros _.
  destruct (default_port s'); [destruct (_ =? _)%Z|]; eauto.
Qed.

Lemma authority_set_cleared c0 c' :
  (c_userinfo c' = c_userinfo c0 \/ c_userinfo c' = []) ->
  (c_host c' = c_host c0 \/ c_host c' = []) ->
  (c_port c' = c_port c0 \/ c_port c' = None) ->
  authority_set c' = true -> authority_set c0 = true.
Proof.
  unfold authority_set. intros Du Dh Dp H.
  assert (Hu : nonempty (c_userinfo c') = true -> nonempty (c_userinfo c0) = true)
    by (destruct Du as [->| ->]; [auto|discriminate]).
  assert (Hh : nonempty (c_host c') = true -> nonempty (c_host c0) = true)
    by (destruct Dh as [->| ->]; [auto|discriminate]).
  assert (Hp : nonempty (opt_or_empty (c_port c')) = true ->
               nonempty (opt_or_empty (c_port c0)) = true)
    by (destruct Dp as [->| ->]; [auto|discriminate]).
  apply orb_prop in H as [H|H]; [apply orb_prop in H as [H|H]|].
  - rewrite (Hu H). reflexivity.
  - rewrite (Hh H). apply orb_true_iff. left. apply orb_true_r.
  - rewrite (Hp H). apply orb_true_r.
Qed.

Lemma normalize_components_cleared rt c0 c' r0 :
  normalize_components rt c0 = Ok r0 ->
  (c_userinfo c' = c_userinfo c0 \/ c_userinfo c' = []) ->
  (c_host c' = c_host c0 \/ c_host c' = []) ->
  (c_port c' = c_port c0 \/ c_port c' = None) ->
  (c_path c' = c_path c0 \/ c_path c' = []) ->
  (c_query c' = c_query c0 \/ c_query c' = None) ->
  (c_fragment c' = c_fragment c0 \/ c_fragment c' = None) ->
  encodable (c_path c0) ->
  exists r', normalize_components rt c' = Ok r'.
Proof.
  intros H Du Dh Dp Dpa Dq Df En.
  assert (A := authority_set_cleared c0 c' Du Dh Dp).
  apply normalize_components_ok in H as (_ & Hu & Hh & Hp & (p & Hpp & Hq) & Hy & Hf).
  assert (exists u, quote (c_userinfo c') (SUB_DELIMS ++ lit ":") = Ok u) as [u Hu'].
  { destruct Du as [->| ->]; [eauto|exists []; reflexivity]. }
  assert (exists h, encode_host rt (c_host c') = Ok h) as [h Hh'].
  { destruct Dh as [->| ->]; [eauto|exists []; reflexivity]. }
  assert (exists po, normalize_port rt (c_port c') (c_scheme c') = Ok po) as [po Hp'].
  { destruct Dp as [->| ->];
      [eapply normalize_port_total; exact Hp|exists None; reflexivity]. }
  assert (exists q, quote_opt (c_query c') (SUB_DELIMS ++ lit "/?") = Ok q) as [q Hy'].
  { destruct Dq as [->| ->]; [eauto|exists None; reflexivity]. }
  assert (exists f, quote_opt (c_fragment c') (SUB_DELIMS ++ lit "/?") = Ok f) as [f Hf'].
  { destruct Df as [->| ->]; [eauto|exists None; reflexivity]. }
  assert (exists p' o,
            (if authority_set c'
             then validate_absolute_path (c_path c') = Ok tt /\
                  p' = normalize_path (c_path c')
             else p' = c_path c') /\
            quote p' (SUB_DELIMS ++ lit ":@/") = Ok o) as (p' & o & Hp1 & Hp2).
  { destruct Dpa as [E|E]; rewrite E.
    - destruct (authority_set c') eqn:A'.
      + rewrite (A eq_refl) in Hpp. exists p, (path r0). auto.
      + destruct (quote_total (c_path c0) (SUB_DELIMS ++ lit ":@/") En) as [o Ho].
        exists (c_path c0), o. auto.
    - exists [], []. split; [|reflexivity].
      destruct (authority_set c'); [split|]; reflexivity. }
  exists {| scheme := str_lower rt (c_scheme c'); userinfo := u; host := h; port := po;
            path := o; query := q; fragment := f |}.
  apply (normalize_components_intro rt c' _ p'); auto.
Qed.

Lemma merge_components_nil url c :
  merge_components url [] = Ok c ->
  too_long url = false /\ has_control url = false /\ c = merge_groups url [].
Proof.
  intros H. apply merge_components_ok in H as (Hl & Hc & kw1 & kw2 & H1 & H2 & ->).
  cbn in H1. injection H1 as <-. cbn in H2. injection H2 as <-. auto.
Qed.

Lemma merge_components_single url name :
  In name component_names -> too_long url = false -> has_control url = false ->
  merge_components url [(name, KNone)] = Ok (merge_groups url [(name, None)]).
Proof.
  intros Hn Hl Hc. unfold merge_components. rewrite Hl, Hc.
  component_cases Hn; reflexivity.
Qed.

Lemma urlparse_none_total rt url name r0 :
  In name component_names -> urlparse rt url [] = Ok r0 -> encodable url ->
  exists r, urlparse rt url [(name, KNone)] = Ok r.
Proof.
  intros Hn H En. apply urlparse_ok in H as (c0 & Hc0 & H).
  apply merge_components_nil in Hc0 as (Hl & Hc & ->).
  unfold urlparse. rewrite (merge_components_single url name Hn Hl Hc). cbn [bind].
  apply (normalize_components_cleared rt _ _ r0 H);
    [component_cases Hn; cbn; auto ..|].
  intros x Hx. apply En. apply path_group_in. exact Hx.
Qed.

(** C10.  An explicit [None] for one of the seven components wins over
    the value parsed from the URL, and in [copy_with] over the value of the
    result copied: whenever [urlparse], given no key that stands for
    several components, or [copy_with] returns a result, that component is
    absent (query, fragment, port) or empty (scheme, path, userinfo, host).
    [urlparse] does return one for a URL that parses on its own and that
    UTF-8 can encode, and [copy_with(query=None)] on the result for
    ["http://a.com/p?q=1"] returns the result for ["http://a.com/p"]. *)
Theorem C10_explicit_none : forall rt,
  (forall url kw name r,
     In name component_names -> kw_get name kw = Some KNone -> no_alias kw ->
     urlparse rt url kw = Ok r -> cleared name r) /\
  (forall self name r,
     In name component_names ->
     copy_with rt self [(name, KNone)] = Ok r -> cleared name r) /\
  (forall url name r0,
     In name component_names -> urlparse rt url [] = Ok r0 -> encodable url ->
     exists r, urlparse rt url [(name, KNone)] = Ok r /\ cleared name r) /\
  (exists r0 r,
     urlparse rt (lit "http://a.com/p?q=1") [] = Ok r0 /\
     query r0 = Some (lit "q=1") /\
     copy_with rt r0 [("query", KNone)]%string = Ok r /\
     query r = None /\ to_str r = lit "http://a.com/p").
Proof.
  intros rt. split; [|split; [|split]].
  - apply urlparse_none.
  - apply copy_with_none.
  - intros url name r0 Hn H En.
    destruct (urlparse_none_total rt url name r0 Hn H En) as [r Hr].
    exists r. split; [exact Hr|].
    apply (urlparse_none rt url [(name, KNone)] name r Hn); [| |exact Hr].
    + cbn. rewrite String.eqb_refl. reflexivity.
    + unfold no_alias. component_cases Hn; cbn; auto.
  - exists {| scheme := lit "http"; userinfo := []; host := lit "a.com"; port := None;
              path := lit "/p"; query := Some (lit "q=1"); fragment := None |},
           {| scheme := lit "http"; userinfo := []; host := lit "a.com"; port := None;
              path := lit "/p"; query := None; fragment := None |}.
    repeat split; vm_compute; reflexivity.
Qed.

Lemma C10_explicit_none_witness :
  cleared "host"
    {| scheme := lit "http"; userinfo := lit "u"; host := []; port := Some 8080%Z;
       path := lit "/p"; query := None; fragment := None |}.
Proof.
  apply (proj1 (C10_explicit_none ascii_only) (lit "http://u@a.com:8080/p")
           [("host", KNone)]%string "host"%string).
  - right. right. left. reflexivity.
  - reflexivity.
  - repeat split.
  - vm_compute. reflexivity.
Defined.

(** ** Matching *)

Lemma fullmatch_Void s : fullmatch Void s = false.
Proof. induction s; [reflexivity|assumption]. Qed.

Lemma fullmatch_Alt s : forall a b, fullmatch (Alt a b) s = fullmatch a s || fullmatch b s.
Proof. induction s as [|c s IH]; intros a b; [reflexivity|apply IH]. Qed.

Lemma fullmatch_Cat_Void s r : fullmatch (Cat Void r) s = false.
Proof. induction s; [reflexivity|assumption]. Qed.

Lemma fullmatch_Cat_Eps s r : fullmatch (Cat Eps r) s = fullmatch r s.
Proof.
  destruct s as [|c s]; [reflexivity|]. cbn [fullmatch deriv nullable].
  rewrite fullmatch_Alt, fullmatch_Cat_Void. reflexivity.
Qed.

Lemma fullmatch_Star_Cls p s : fullmatch (Star (Cls p)) s = forallb p s.
Proof.
  induction s as [|c s IH]; [reflexivity|]. cbn [fullmatch deriv forallb].
  destruct (p c); [rewrite fullmatch_Cat_Eps; exact IH|apply fullmatch_Cat_Void].
Qed.

Lemma fullmatch_scheme s :
  fullmatch (Opt (Cat (Cls is_alpha) (Star (Cls is_scheme_char)))) s = scheme_shape s.
Proof.
  destruct s as [|c s]; [reflexivity|]. unfold Opt. cbn [fullmatch deriv nullable scheme_shape].
  rewrite fullmatch_Alt, fullmatch_Void, orb_false_r.
  destruct (is_alpha c); [rewrite fullmatch_Cat_Eps; apply fullmatch_Star_Cls|].
  apply fullmatch_Cat_Void.
Qed.

Lemma span_forallb p s : forallb p (fst (span p s)) = true.
Proof.
  induction s as [|c s IH]; [reflexivity|]. cbn [span].
  destruct (p c) eqn:E; [|reflexivity]. destruct (span p s) as [a b]. cbn in *.
  rewrite E. exact IH.
Qed.

Lemma span_stop p a b :
  forallb p a = true -> match b with [] => true | c :: _ => negb (p c) end = true ->
  span p (a ++ b) = (a, b).
Proof.
  intros Ha Hb. induction a as [|c a IH]; cbn [app span].
  - destruct b as [|c b]; [reflexivity|]. cbn [span].
    apply negb_true_iff in Hb. rewrite Hb. reflexivity.
  - cbn [forallb] in Ha. apply andb_prop in Ha as [H1 H2]. rewrite H1, (IH H2).
    reflexivity.
Qed.

Lemma match_scheme_shape s x rest : match_scheme s = Some (x, rest) -> scheme_shape x = true.
Proof.
  unfold match_scheme. destruct s as [|c t]; [discriminate|].
  destruct (is_alpha c) eqn:Ea; [|discriminate].
  assert (F := span_forallb is_scheme_char t).
  destruct (span is_scheme_char t) as [a b]. cbn [fst] in F.
  destruct b as [|[|y] b]; try discriminate.
  do 6 (destruct y as [y|y|]; try discriminate).
  intros H. injection H as <- _. cbn [scheme_shape]. rewrite Ea, F. reflexivity.
Qed.

Lemma scheme_group_eq url :
  g_scheme (URL_REGEX_match url) = option_map fst (match_scheme url).
Proof.
  unfold URL_REGEX_match.
  destruct (match_scheme url) as [[sc s1]|];
    [destruct (match_authority s1) as [[au s2]|]
    |destruct (match_authority url) as [[au s2]|]];
    match goal with |- context [span ?p ?s] => destruct (span p s) as [pa s3] end;
    destruct (match_query s3) as [[q s4]|]; reflexivity.
Qed.

Lemma validate_kwargs_valid kw : forall kw' k v,
  validate_kwargs kw = Ok kw' -> kw_get k kw' = Some (Some v) ->
  exists re, COMPONENT_REGEX k = Some re /\ fullmatch re v = true /\
             has_control v = false /\ too_long v = false.
Proof.
  induction kw as [|[k0 v0] kw IH]; intros kw' k v H G; cbn [validate_kwargs] in H.
  - injection H as <-. discriminate G.
  - destruct (COMPONENT_REGEX k0) as [re|] eqn:Ere; [|discriminate].
    destruct v0 as [|s|z]; [| |discriminate].
    + apply bind_ok in H as (y & Hy & H). injection H as <-. cbn [kw_get] in G.
      destruct (String.eqb k0 k); [discriminate|apply (IH _ _ _ Hy G)].
    + destruct (too_long s) eqn:El; [discriminate|].
      destruct (has_control s) eqn:Ec; [discriminate|].
      destruct (fullmatch re s) eqn:Ef; [|discriminate]. cbn [negb] in H.
      apply bind_ok in H as (y & Hy & H). injection H as <-. cbn [kw_get] in G.
      destruct (String.eqb_spec k0 k) as [->|]; [|apply (IH _ _ _ Hy G)].
      injection G as <-. eauto 6.
Qed.

Lemma merged_scheme_shape url kw c :
  merge_components url kw = Ok c -> scheme_shape (c_scheme c) = true.
Proof.
  intros H. apply merge_components_ok in H as (_ & _ & kw1 & kw2 & _ & H2 & ->).
  unfold merge_groups, kw_get_default. cbn [c_scheme].
  destruct (kw_get "scheme" kw2) as [[v|]|] eqn:G; cbn [opt_or_empty]; [| reflexivity |].
  - destruct (validate_kwargs_valid _ _ _ _ H2 G) as (re & Hre & Hf & _).
    cbn in Hre. injection Hre as <-. rewrite fullmatch_scheme in Hf. exact Hf.
  - rewrite scheme_group_eq.
    destruct (match_scheme url) as [[x rest]|] eqn:E; [|reflexivity].
    apply (match_scheme_shape _ _ _ E).
Qed.

(** ** The alphabet of a result *)

Lemma printable_userinfo c :
  implb (char_in c (UNRESERVED_CHARACTERS ++ (SUB_DELIMS ++ lit ":") ++ lit "%"))
        (isprintable_ascii c) = true.
Proof. char_cases c. Qed.

Lemma printable_path c :
  implb (char_in c (UNRESERVED_CHARACTERS ++ (SUB_DELIMS ++ lit ":@/") ++ lit "%"))
        (isprintable_ascii c) = true.
Proof. char_cases c. Qed.

Lemma printable_query c :
  implb (char_in c (UNRESERVED_CHARACTERS ++ (SUB_DELIMS ++ lit "/?") ++ lit "%"))
        (isprintable_ascii c) = true.
Proof. char_cases c. Qed.

Lemma printable_host c :
  implb (char_in c (UNRESERVED_CHARACTERS ++ SUB_DELIMS ++ lit "%"))
        (isprintable_ascii c) = true.
Proof. char_cases c. Qed.

Lemma quote_canonical s safe o :
  quote s safe = Ok o -> char_in 37 safe = false ->
  (forall c, implb (char_in c (UNRESERVED_CHARACTERS ++ safe ++ lit "%"))
                   (isprintable_ascii c) = true) ->
  canonical_text safe o.
Proof.
  intros Q Hs Hp. split.
  - assert (A := quoted_alphabet _ _ _ (quote_quoted _ _ _ Q)).
    rewrite Forall_forall in A. intros c Hc. specialize (A c Hc).
    assert (I : char_in c (UNRESERVED_CHARACTERS ++ safe ++ lit "%") = true).
    { rewrite !char_in_app, char_in_percent. destruct A as [A|[A|A]].
      - rewrite non_escaped_spec in A.
        destruct (char_in c UNRESERVED_CHARACTERS); [reflexivity|].
        destruct (char_in c safe); [reflexivity|]. cbn [orb] in A |- *.
        apply andb_prop in A as [_ A]. exact A.
      - subst c. rewrite !orb_true_r. reflexivity.
      - rewrite (implb_true _ _ (upper_hex_unreserved c) A). reflexivity. }
    split; [|exact I]. apply (implb_true _ _ (Hp c) I).
  - apply all_escapes_spec. apply (quote_all_escapes _ _ _ Q Hs).
Qed.

Lemma quote_opt_ok o safe q :
  quote_opt o safe = Ok q ->
  match o, q with
  | Some s, Some t => quote s safe = Ok t
  | None, None => True
  | _, _ => False
  end.
Proof.
  destruct o as [s|]; cbn [quote_opt].
  - intros H. apply bind_ok in H as (t & Ht & H). injection H as <-. exact Ht.
  - intros H. injection H as <-. exact I.
Qed.

Lemma quote_opt_canonical o safe q :
  quote_opt o safe = Ok q -> char_in 37 safe = false ->
  (forall c, implb (char_in c (UNRESERVED_CHARACTERS ++ safe ++ lit "%"))
                   (isprintable_ascii c) = true) ->
  canonical_opt safe q.
Proof.
  intros H Hs Hp. apply quote_opt_ok in H. destruct o as [s|], q as [t|]; try easy.
  apply (quote_canonical _ _ _ H Hs Hp).
Qed.

(** Schemes *)

Lemma scheme_char_lower c :
  implb (is_scheme_char c)
        (isascii c && isprintable_ascii (ascii_lower c) && is_scheme_char (ascii_lower c)
         && negb (is_upper (ascii_lower c))) = true.
Proof. char_cases c. Qed.

Lemma alpha_scheme_char c : implb (is_alpha c) (is_scheme_char c) = true.
Proof. char_cases c. Qed.

Lemma alpha_lower c : implb (is_alpha c) (is_alpha (ascii_lower c)) = true.
Proof. char_cases c. Qed.

Lemma scheme_shape_chars s : scheme_shape s = true -> forallb is_scheme_char s = true.
Proof.
  destruct s as [|c t]; [reflexivity|]. cbn [scheme_shape forallb]. intros H.
  apply andb_prop in H as [H1 H2].
  rewrite (implb_true _ _ (alpha_scheme_char c) H1), H2. reflexivity.
Qed.

Lemma scheme_chars_ascii s : forallb is_scheme_char s = true -> forallb isascii s = true.
Proof.
  induction s as [|c s IH]; [reflexivity|]. cbn [forallb]. intros H.
  apply andb_prop in H as [H1 H2]. rewrite (IH H2), andb_true_r.
  assert (L := implb_true _ _ (scheme_char_lower c) H1).
  repeat (apply andb_prop in L as [L _]). exact L.
Qed.

Lemma lowered_scheme_chars s c :
  forallb is_scheme_char s = true -> In c (map ascii_lower s) ->
  isprintable_ascii c = true /\ is_scheme_char c = true /\ is_upper c = false.
Proof.
  intros H Hc. apply in_map_iff in Hc as (x & <- & Hx).
  rewrite forallb_forall in H.
  assert (L := implb_true _ _ (scheme_char_lower x) (H x Hx)).
  apply andb_prop in L as [L L4]. apply andb_prop in L as [L L3].
  apply andb_prop in L as [_ L2]. apply negb_true_iff in L4. auto.
Qed.

Lemma lowered_scheme_shape s :
  scheme_shape s = true -> scheme_shape (map ascii_lower s) = true.
Proof.
  destruct s as [|c t]; [reflexivity|]. cbn [scheme_shape map]. intros H.
  apply andb_prop in H as [H1 H2].
  rewrite (implb_true _ _ (alpha_lower c) H1). cbn [andb].
  apply forallb_forall. intros x Hx.
  apply (lowered_scheme_chars t x H2 Hx).
Qed.

(** Hosts *)

Lemma mapM_some (A B : Type) (f : A -> option B) l r x :
  mapM f l = Some r -> In x l -> exists y, f x = Some y.
Proof.
  revert r. induction l as [|a l IH]; intros r H Hx; [destruct Hx|].
  cbn [mapM] in H. destruct (f a) as [y|] eqn:Ea; [|discriminate].
  destruct (mapM f l) as [r'|]; [|discriminate].
  destruct Hx as [<-|Hx]; [eauto|apply (IH _ eq_refl Hx)].
Qed.

Lemma split_nonempty sep s : split sep s <> [].
Proof.
  destruct s as [|c s]; cbn [split]; [discriminate|].
  destruct (c =? sep); [discriminate|]. destruct (split sep s); discriminate.
Qed.

Lemma split_chars sep s c :
  In c s -> c = sep \/ exists p, In p (split sep s) /\ In c p.
Proof.
  induction s as [|x s IH]; intros H; [destruct H|].
  cbn [split]. destruct (N.eqb_spec x sep) as [->|Hx].
  - destruct H as [<-|H]; [left; reflexivity|].
    destruct (IH H) as [->|(p & Hp & Hc)]; [left; reflexivity|].
    right. exists p. split; [right; exact Hp|exact Hc].
  - destruct (split sep s) as [|h r] eqn:E; [destruct (split_nonempty _ _ E)|].
    destruct H as [<-|H].
    + right. exists (x :: h). split; left; reflexivity.
    + destruct (IH H) as [->|(p & Hp & Hc)]; [left; reflexivity|].
      right. destruct Hp as [<-|Hp].
      * exists (x :: h). split; [left; reflexivity|right; exact Hc].
      * exists p. split; [right; exact Hp|exact Hc].
Qed.

Lemma parse_octet_digits o n : parse_octet o = Some n -> forallb is_digit o = true.
Proof.
  unfold parse_octet. destruct (nonempty o); [|discriminate]. cbn [negb].
  destruct (forallb is_digit o); [reflexivity|discriminate].
Qed.

Lemma IPv4Address_chars h n c :
  IPv4Address h = Some n -> In c h -> is_digit c = true \/ c = 46.
Proof.
  unfold IPv4Address. destruct (char_in 47 h); [discriminate|].
  destruct (nonempty h); [|discriminate]. cbn [negb].
  destruct (Nat.eqb _ 4); [|discriminate]. cbn [negb].
  destruct (mapM parse_octet (split 46 h)) as [bytes|] eqn:E; [|discriminate].
  intros _ Hc. destruct (split_chars 46 h c Hc) as [->|(p & Hp & Hcp)]; [auto|left].
  destruct (mapM_some _ _ _ _ _ _ E Hp) as [y Hy].
  apply parse_octet_digits in Hy. rewrite forallb_forall in Hy. apply (Hy c Hcp).
Qed.

Lemma digit_dot_host c :
  implb (is_digit c || (c =? 46))
        (isprintable_ascii c && char_in c UNRESERVED_CHARACTERS && negb (c =? 37)) = true.
Proof. char_cases c. Qed.

Lemma all_escapes_no_percent s :
  (forall c, In c s -> (c =? 37) = false) -> all_escapes s = true.
Proof.
  induction s as [|c s IH]; intros H; [reflexivity|]. cbn [all_escapes].
  rewrite (H c (or_introl eq_refl)). apply IH. intros x Hx. apply H. right. exact Hx.
Qed.

Lemma IPv4Address_canonical h n : IPv4Address h = Some n -> canonical_text SUB_DELIMS h.
Proof.
  intros H.
  assert (D : forall c, In c h ->
                isprintable_ascii c = true /\ char_in c UNRESERVED_CHARACTERS = true /\
                (c =? 37) = false).
  { intros c Hc. assert (L := digit_dot_host c).
    destruct (IPv4Address_chars _ _ _ H Hc) as [E|E]; [rewrite E in L|subst c];
      cbn [orb implb] in L; [|clear L; repeat split; reflexivity].
    apply andb_prop in L as [L L3]. apply andb_prop in L as [L1 L2].
    apply negb_true_iff in L3. auto. }
  split.
  - intros c Hc. destruct (D c Hc) as (D1 & D2 & _). split; [exact D1|].
    rewrite char_in_app, D2. reflexivity.
  - apply all_escapes_spec, all_escapes_no_percent. intros c Hc. apply (D c Hc).
Qed.

Lemma canonical_nil safe : canonical_text safe [].
Proof.
  split; [intros c []|]. intros a b E. destruct a; discriminate.
Qed.

(** IPv6 addresses *)

Lemma in_firstn_nth (A : Type) (l : list A) d : forall j k,
  (j < k)%nat -> (j < List.length l)%nat -> In (nth j l d) (firstn k l).
Proof.
  induction l as [|x l IH]; intros j k Hj Hl; [cbn in Hl; lia|].
  destruct k as [|k]; [lia|].
  destruct j as [|j]; cbn [nth firstn]; [left; reflexivity|].
  right. apply IH; cbn in Hl; lia.
Qed.

Lemma in_skipn_nth (A : Type) (l : list A) d : forall j k,
  (k <= j)%nat -> (j < List.length l)%nat -> In (nth j l d) (skipn k l).
Proof.
  induction l as [|x l IH]; intros j k Hk Hl; [cbn in Hl; lia|].
  destruct k as [|k]; [cbn [skipn]; apply nth_In; exact Hl|].
  destruct j as [|j]; [lia|]. cbn [nth skipn]. apply IH; cbn in Hl; lia.
Qed.

Lemma removelast_cons (A : Type) (x y : A) l :
  removelast (x :: y :: l) = x :: removelast (y :: l).
Proof. reflexivity. Qed.

Lemma last_cons (A : Type) (x y : A) l d : last (x :: y :: l) d = last (y :: l) d.
Proof. reflexivity. Qed.

Lemma removelast_length (A : Type) (l : list A) :
  List.length (removelast l) = (List.length l - 1)%nat.
Proof.
  induction l as [|x l IH]; [reflexivity|]. destruct l as [|y l]; [reflexivity|].
  rewrite removelast_cons. cbn [List.length] in *. lia.
Qed.

Lemma nth_removelast (A : Type) (l : list A) d : forall j,
  (S j < List.length l)%nat -> nth j (removelast l) d = nth j l d.
Proof.
  induction l as [|x l IH]; intros j H; [reflexivity|].
  destruct l as [|y l]; [cbn in H; lia|]. rewrite removelast_cons.
  destruct j as [|j]; [reflexivity|]. cbn [nth]. apply IH. cbn [List.length] in *. lia.
Qed.

Lemma nth_last (A : Type) (l : list A) d : nth (List.length l - 1) l d = last l d.
Proof.
  induction l as [|x l IH]; [reflexivity|]. destruct l as [|y l]; [reflexivity|].
  rewrite last_cons, <- IH. cbn [List.length]. rewrite !Nat.sub_succ, !Nat.sub_0_r.
  reflexivity.
Qed.

Lemma nth_tl (A : Type) (l : list A) d j : nth j (tl l) d = nth (S j) l d.
Proof. destruct l; [destruct j|]; reflexivity. Qed.

Lemma tl_length (A : Type) (l : list A) : List.length (tl l) = (List.length l - 1)%nat.
Proof. destruct l; cbn; lia. Qed.

Lemma not_nonempty (A : Type) (l : list A) : nonempty l = false -> l = [].
Proof. destruct l; [reflexivity|discriminate]. Qed.

Lemma find_skip_found inner : forall i s r,
  find_skip inner i (Some s) = Some r -> r = Some s.
Proof.
  induction inner as [|p rest IH]; intros i s r H; cbn [find_skip] in H.
  - injection H as <-. reflexivity.
  - destruct (nonempty p); [apply (IH _ _ _ H)|discriminate].
Qed.

Lemma find_skip_empty inner : forall i k,
  find_skip inner i None = Some (Some k) ->
  (i <= k)%nat /\ (k - i < List.length inner)%nat /\ nth (k - i) inner [] = [].
Proof.
  induction inner as [|p rest IH]; intros i k H; cbn [find_skip] in H; [discriminate|].
  destruct (nonempty p) eqn:E.
  - destruct (IH _ _ H) as (A & B & C). split; [lia|]. split; [cbn [List.length]; lia|].
    replace (k - i)%nat with (S (k - S i)) by lia. exact C.
  - apply find_skip_found in H. injection H as <-. rewrite Nat.sub_diag.
    split; [lia|]. split; [cbn [List.length]; lia|]. apply (not_nonempty _ _ E).
Qed.

(** The parts that the check of the hextets passes over are empty. *)
Lemma ipv6_hextets (parts : list (list N)) :
  (let n := List.length parts in
   if (9 <? n)%nat then false
   else
     match find_skip (removelast (tl parts)) 1 None with
     | None => false
     | Some (Some skip_index) =>
         let first_empty := negb (nonempty (hd [] parts)) in
         let last_empty := negb (nonempty (last parts [])) in
         let parts_hi := if first_empty then (skip_index - 1)%nat else skip_index in
         let parts_lo :=
           if last_empty then (n - skip_index - 1 - 1)%nat
           else (n - skip_index - 1)%nat in
         if first_empty && negb (Nat.eqb parts_hi 0) then false
         else if last_empty && negb (Nat.eqb parts_lo 0) then false
         else if (8 <=? parts_hi + parts_lo)%nat then false
         else
           forallb (fun p => is_some (parse_hextet p))
             (firstn parts_hi parts ++ skipn (n - parts_lo) parts)
     | Some None =>
         if negb (Nat.eqb n 8) then false
         else if negb (nonempty (hd [] parts)) then false
         else if negb (nonempty (last parts [])) then false
         else forallb (fun p => is_some (parse_hextet p)) parts
     end) = true ->
  forall p, In p parts -> p = [] \/ is_some (parse_hextet p) = true.
Proof.
  cbv zeta. intros H p Hp. destruct (9 <? List.length parts)%nat; [discriminate|].
  destruct (find_skip (removelast (tl parts)) 1 None) as [[i|]|] eqn:F; [| |discriminate].
  - apply find_skip_empty in F as (F1 & F2 & F3).
    rewrite removelast_length, tl_length in F2.
    rewrite nth_removelast in F3 by (rewrite tl_length; lia).
    rewrite nth_tl in F3. replace (S (i - 1)) with i in F3 by lia.
    assert (H0 : nonempty (hd [] parts) = false -> nth 0 parts [] = []).
    { intros E. apply not_nonempty in E. destruct parts; [reflexivity|exact E]. }
    assert (Hl : nonempty (last parts []) = false ->
                 nth (List.length parts - 1) parts [] = []).
    { intros E. apply not_nonempty in E. rewrite nth_last. exact E. }
    destruct (In_nth _ _ [] Hp) as (j & Hj & <-).
    assert (C : forall hi lo,
              forallb (fun p => is_some (parse_hextet p))
                (firstn hi parts ++ skipn (List.length parts - lo) parts) = true ->
              (forall x, (hi <= x)%nat -> (x < List.length parts - lo)%nat ->
                         nth x parts [] = []) ->
              nth j parts [] = [] \/ is_some (parse_hextet (nth j parts [])) = true).
    { intros hi lo A E. rewrite forallb_forall in A.
      destruct (Nat.lt_ge_cases j hi) as [L|L].
      { right. apply A, in_or_app. left. apply (in_firstn_nth _ _ _ _ _ L Hj). }
      destruct (Nat.lt_ge_cases j (List.length parts - lo)) as [M|M].
      { left. apply (E _ L M). }
      right. apply A, in_or_app. right. apply (in_skipn_nth _ _ _ _ _ M Hj). }
    destruct (nonempty (hd [] parts)) eqn:E1, (nonempty (last parts [])) eqn:E2;
      cbn [negb andb] in H.
    + destruct (8 <=? _)%nat; [discriminate|]. apply (C _ _ H). intros x X1 X2.
      replace x with i by lia. exact F3.
    + destruct (Nat.eqb_spec (List.length parts - i - 1 - 1) 0) as [Z|Z];
        cbn [negb] in H; [|discriminate].
      destruct (8 <=? _)%nat; [discriminate|]. apply (C _ _ H). intros x X1 X2.
      destruct (Nat.eq_dec x i) as [->|Nx]; [exact F3|].
      replace x with (List.length parts - 1)%nat by lia. apply (Hl eq_refl).
    + destruct (Nat.eqb_spec (i - 1) 0) as [Z|Z]; cbn [negb] in H; [|discriminate].
      destruct (8 <=? _)%nat; [discriminate|]. apply (C _ _ H). intros x X1 X2.
      destruct (Nat.eq_dec x i) as [->|Nx]; [exact F3|].
      replace x with 0%nat by lia. apply (H0 eq_refl).
    + destruct (Nat.eqb_spec (i - 1) 0) as [Z|Z]; cbn [negb] in H; [|discriminate].
      destruct (Nat.eqb_spec (List.length parts - i - 1 - 1) 0) as [Y|Y];
        cbn [negb] in H; [|discriminate].
      destruct (8 <=? _)%nat; [discriminate|]. apply (C _ _ H). intros x X1 X2.
      destruct (Nat.eq_dec x i) as [->|Nx]; [exact F3|].
      destruct (Nat.eq_dec x 0) as [->|N0]; [apply (H0 eq_refl)|].
      replace x with (List.length parts - 1)%nat by lia. apply (Hl eq_refl).
  - destruct (negb (Nat.eqb _ 8)); [discriminate|].
    destruct (negb (nonempty (hd [] parts))); [discriminate|].
    destruct (negb (nonempty (last parts []))); [discriminate|].
    right. rewrite forallb_forall in H. apply (H _ Hp).
Qed.

Lemma parse_hextet_hex p : is_some (parse_hextet p) = true -> forallb is_hex p = true.
Proof.
  unfold parse_hextet. destruct (forallb is_hex p); [reflexivity|discriminate].
Qed.

Lemma ipv6_int_ok_chars a : ipv6_int_ok a = true -> forallb is_ipv6_char a = true.
Proof.
  intros H. apply forallb_forall. intros c Hc. unfold is_ipv6_char.
  destruct (split_chars 58 a c Hc) as [->|(p & Hp & Hcp)]; [reflexivity|].
  assert (X : forall parts, In p parts ->
            (forall q, In q parts -> q = [] \/ is_some (parse_hextet q) = true) ->
            is_hex c = true).
  { intros parts I A. destruct (A p I) as [E|E]; [subst p; destruct Hcp|].
    apply parse_hextet_hex in E. rewrite forallb_forall in E. apply (E c Hcp). }
  unfold ipv6_int_ok in H. destruct (negb (nonempty a)); [discriminate|].
  cbv zeta in H. destruct (List.length (split 58 a) <? 3)%nat; [discriminate|].
  destruct (char_in 46 (last (split 58 a) [])).
  - destruct (IPv4Address (last (split 58 a) [])) as [v|] eqn:E4; [|discriminate].
    assert (D := app_removelast_last [] (split_nonempty 58 a)).
    rewrite D in Hp. apply in_app_or in Hp as [Hp|[<-|[]]].
    + rewrite (X _ (in_or_app _ _ _ (or_introl Hp)) (ipv6_hextets _ H)). reflexivity.
    + destruct (IPv4Address_chars _ _ _ E4 Hcp) as [Dg| ->]; [|apply orb_true_r].
      unfold is_hex. rewrite Dg. reflexivity.
  - rewrite (X _ Hp (ipv6_hextets _ H)). reflexivity.
Qed.

Lemma IPv6Address_chars h :
  IPv6Address_ok h = true -> forallb is_ipv6_char (before_zone h) = true.
Proof.
  unfold IPv6Address_ok, before_zone. destruct (char_in 47 h); [discriminate|].
  destruct (partition 37 h) as [[a sep] z]. cbn [fst].
  destruct (sep && _); [discriminate|]. apply ipv6_int_ok_chars.
Qed.

Lemma encode_host_form rt h h' : encode_host rt h = Ok h' -> host_form rt h'.
Proof.
  unfold encode_host, host_form.
  destruct (nonempty h); cbn [negb].
  2:{ intros H. injection H as <-. left. apply canonical_nil. }
  destruct (match_anchored IPv4_STYLE_HOSTNAME h).
  { destruct (IPv4Address h) as [n|] eqn:E; [|discriminate].
    intros H. injection H as <-. left. apply (IPv4Address_canonical _ _ E). }
  destruct (match_anchored IPv6_STYLE_HOSTNAME h).
  { destruct (IPv6Address_ok _) eqn:E; [|discriminate].
    intros H. injection H as <-. right. left. split; [exact E|].
    apply (IPv6Address_chars _ E). }
  destruct (forallb (fun c => c <=? 127) h).
  - intros Q. left. apply (quote_canonical _ _ _ Q eq_refl printable_host).
  - unfold idna_hostname. destruct (idna_encode rt _) as [e|] eqn:E; [|discriminate].
    destruct (forallb isascii e) eqn:A; [|discriminate].
    intros H. injection H as <-. right. right. eauto.
Qed.

(** C3, and where the code leaves it.  In every result the scheme is made
    of lower case letters, digits, [+], [.] and [-]; the userinfo, the
    path, the query and the fragment are printable ASCII, each character
    unreserved, in the safe set of its component or part of an escape, and
    every percent sign starts an escape.  The host is of that form too when
    it is a registered name or an IPv4 address; it is ASCII when
    [idna.encode] answered it; and when it is an IPv6 address it is made of
    hexadecimal digits, colons and dots up to its zone identifier.  The
    zone identifier is where the invariant breaks: no step looks into it,
    and the host of ["http://[::1%é]/"] keeps a character that is not
    ASCII. *)
Theorem C3_ascii_invariant :
  (forall rt url kw r,
     urlparse rt url kw = Ok r ->
     (forall c, In c (scheme r) ->
        isprintable_ascii c = true /\ is_scheme_char c = true /\ is_upper c = false) /\
     canonical_text (SUB_DELIMS ++ lit ":") (userinfo r) /\
     host_form rt (host r) /\
     canonical_text (SUB_DELIMS ++ lit ":@/") (path r) /\
     canonical_opt (SUB_DELIMS ++ lit "/?") (query r) /\
     canonical_opt (SUB_DELIMS ++ lit "/?") (fragment r)) /\
  (forall rt,
     urlparse rt (lit "http://[::1%" ++ [233] ++ lit "]/") [] =
     Ok {| scheme := lit "http"; userinfo := []; host := lit "::1%" ++ [233];
           port := None; path := lit "/"; query := None; fragment := None |}) /\
  isascii 233 = false.
Proof.
  split; [|split; [intros rt; vm_compute; reflexivity|reflexivity]].
  intros rt url kw r H. apply urlparse_ok in H as (c & Hc & H).
  apply merged_scheme_shape in Hc.
  apply normalize_components_ok in H as (Hs & Hu & Hh & _ & (p & _ & Hp) & Hq & Hf).
  split; [|split; [|split; [|split; [|split]]]].
  - intros x Hx. rewrite Hs in Hx. apply scheme_shape_chars in Hc.
    rewrite (str_lower_ascii rt _ (scheme_chars_ascii _ Hc)) in Hx.
    apply (lowered_scheme_chars _ _ Hc Hx).
  - apply (quote_canonical _ _ _ Hu eq_refl printable_userinfo).
  - apply (encode_host_form _ _ _ Hh).
  - apply (quote_canonical _ _ _ Hp eq_refl printable_path).
  - apply (quote_opt_canonical _ _ _ Hq eq_refl printable_query).
  - apply (quote_opt_canonical _ _ _ Hf eq_refl printable_query).
Qed.

Lemma C3_ascii_invariant_witness :
  (forall c, In c (lit "http") ->
     isprintable_ascii c = true /\ is_scheme_char c = true /\ is_upper c = false) /\
  canonical_text (SUB_DELIMS ++ lit ":") (lit "u%C3%A9") /\
  host_form ascii_only (lit "a%20b") /\
  canonical_text (SUB_DELIMS ++ lit ":@/") (lit "/%E2%82%AC") /\
  canonical_opt (SUB_DELIMS ++ lit "/?") (Some (lit "q%23")) /\
  canonical_opt (SUB_DELIMS ++ lit "/?") None.
Proof.
  apply (proj1 C3_ascii_invariant ascii_only
           (lit "HTTP://u" ++ [233] ++ lit "@A b/" ++ [8364] ++ lit "?q%23") []
           {| scheme := lit "http"; userinfo := lit "u%C3%A9"; host := lit "a%20b";
              port := None; path := lit "/%E2%82%AC"; query := Some (lit "q%23");
              fragment := None |}).
  vm_compute. reflexivity.
Defined.

(** ** Numbers as text *)

Lemma digits_value_digits s : forall acc after,
  forallb is_digit s = true ->
  digits_value s acc after =
  if nonempty s || after
  then Some (fold_left (fun a c => 10 * a + (c - 48)) s acc)
  else None.
Proof.
  induction s as [|c s IH]; intros acc after H.
  - cbn. destruct after; reflexivity.
  - cbn [forallb] in H. apply andb_prop in H as [H1 H2].
    cbn [digits_value nonempty orb fold_left]. rewrite H1, (IH _ _ H2).
    rewrite orb_true_r. reflexivity.
Qed.

Lemma digits_fuel_spec fuel : forall n,
  (0 < fuel)%nat -> n < 2 ^ N.of_nat fuel ->
  forallb is_digit (digits_fuel fuel n) = true /\
  nonempty (digits_fuel fuel n) = true /\
  decimal_value (digits_fuel fuel n) = n.
Proof.
  induction fuel as [|f IH]; intros n Hf Hn; [lia|].
  cbn [digits_fuel]. destruct (N.ltb_spec n 10) as [L|L].
  - split; [|split].
    + cbn [forallb]. unfold is_digit, in_range.
      destruct (N.leb_spec 48 (48 + n)), (N.leb_spec (48 + n) 57); try lia;
        reflexivity.
    + reflexivity.
    + unfold decimal_value. cbn [fold_left]. lia.
  - assert (B : n / 10 < 2 ^ N.of_nat f).
    { rewrite Nat2N.inj_succ, N.pow_succ_r' in Hn.
      remember (2 ^ N.of_nat f) as x. clear Heqx. div_lia. }
    assert (F : (0 < f)%nat).
    { destruct f; [|lia]. exfalso. change (2 ^ N.of_nat 0) with 1 in B. div_lia. }
    destruct (IH _ F B) as (I1 & I2 & I3). split; [|split].
    + rewrite forallb_app, I1. cbn [forallb]. unfold is_digit, in_range.
      assert (n mod 10 < 10) by (apply N.mod_lt; lia).
      destruct (N.leb_spec 48 (48 + n mod 10)), (N.leb_spec (48 + n mod 10) 57);
        try div_lia; reflexivity.
    + destruct (digits_fuel f (n / 10)); [discriminate I2|reflexivity].
    + unfold decimal_value in *. rewrite fold_left_app, I3. cbn [fold_left].
      div_lia.
Qed.

Lemma str_of_N_spec n :
  forallb is_digit (str_of_N n) = true /\
  nonempty (str_of_N n) = true /\
  decimal_value (str_of_N n) = n.
Proof.
  apply digits_fuel_spec; [lia|]. rewrite Nat2N.inj_succ, N2Nat.id.
  destruct (N.eq_dec n 0) as [->|Hn]; [reflexivity|].
  apply N.log2_spec. lia.
Qed.

Lemma str_of_Z_chars z : forallb is_number_char (str_of_Z z) = true.
Proof.
  assert (D : forallb is_number_char (str_of_N (Z.abs_N z)) = true).
  { destruct (str_of_N_spec (Z.abs_N z)) as (D & _).
    rewrite forallb_forall in *. intros c Hc. unfold is_number_char.
    rewrite (D c Hc). reflexivity. }
  unfold str_of_Z. destruct (z <? 0)%Z; [cbn [forallb]; rewrite D|exact D].
  reflexivity.
Qed.

Lemma number_char_not_space c : implb (is_number_char c) (negb (is_space c)) = true.
Proof. char_cases c. Qed.

Lemma lstrip_id s :
  match s with [] => true | c :: _ => negb (is_space c) end = true -> lstrip s = s.
Proof.
  destruct s as [|c s]; [reflexivity|]. cbn [lstrip]. intros H.
  apply negb_true_iff in H. rewrite H. reflexivity.
Qed.

Lemma strip_id s : forallb (fun c => negb (is_space c)) s = true -> strip s = s.
Proof.
  intros H. unfold strip. rewrite (lstrip_id s).
  - rewrite lstrip_id; [apply rev_involutive|].
    destruct (rev s) as [|c t] eqn:E; [reflexivity|].
    rewrite forallb_forall in H. apply H. apply in_rev. rewrite E. left. reflexivity.
  - destruct s as [|c t]; [reflexivity|]. cbn [forallb] in H.
    apply andb_prop in H as [H _]. exact H.
Qed.

Lemma digit_not_sign c : implb (is_digit c) (negb (c =? 45) && negb (c =? 43)) = true.
Proof. char_cases c. Qed.

(** *** The limit on the digits *)

Lemma filter_all (A : Type) (f : A -> bool) l : forallb f l = true -> filter f l = l.
Proof.
  induction l as [|x l IH]; [reflexivity|]. cbn [forallb filter]. intros H.
  apply andb_prop in H as [H1 H2]. rewrite H1, (IH H2). reflexivity.
Qed.

Lemma pow10_succ k : 10 ^ N.of_nat (S k) = 10 * 10 ^ N.of_nat k.
Proof. rewrite Nat2N.inj_succ. apply N.pow_succ_r'. Qed.

Lemma pow10_pos k : 0 < 10 ^ N.of_nat k.
Proof.
  induction k as [|k IH]; [reflexivity|]. rewrite pow10_succ.
  remember (10 ^ N.of_nat k) as x. clear Heqx. lia.
Qed.

Lemma digits_fuel_length fuel : forall n k,
  n < 10 ^ N.of_nat k -> (0 < k)%nat -> (List.length (digits_fuel fuel n) <= k)%nat.
Proof.
  induction fuel as [|f IH]; intros n k Hn Hk; [cbn; lia|].
  cbn [digits_fuel]. destruct (N.ltb_spec n 10) as [L|L]; [cbn; lia|].
  destruct k as [|k]; [lia|]. rewrite pow10_succ in Hn.
  rewrite length_app. cbn [List.length].
  assert (B : n / 10 < 10 ^ N.of_nat k).
  { remember (10 ^ N.of_nat k) as x. clear Heqx. div_lia. }
  assert (K : (0 < k)%nat).
  { destruct k; [|lia]. exfalso. change (10 ^ N.of_nat 0) with 1 in B. div_lia. }
  specialize (IH _ _ B K). lia.
Qed.

Lemma digits_value_bound s : forall acc after n k,
  digits_value s acc after = Some n -> acc < 10 ^ N.of_nat k ->
  n < 10 ^ N.of_nat (k + List.length (filter is_digit s)).
Proof.
  induction s as [|c s IH]; intros acc after n k H B.
  - cbn [digits_value] in H. destruct after; [|discriminate]. injection H as <-.
    cbn [filter List.length]. rewrite Nat.add_0_r. exact B.
  - cbn [digits_value filter] in H |- *. destruct (is_digit c) eqn:D.
    + cbn [List.length]. rewrite Nat.add_succ_r. apply (IH _ _ _ (S k) H).
      rewrite pow10_succ. unfold is_digit, in_range in D.
      apply andb_prop in D as [D1 D2]. apply N.leb_le in D1, D2.
      remember (10 ^ N.of_nat k) as x. clear Heqx. lia.
    + destruct ((c =? 95) && after); [|discriminate]. apply (IH _ _ _ _ H B).
Qed.

Lemma limited_digits_value_small t n :
  limited_digits_value t = Some n -> too_many_digits (str_of_N n) = false.
Proof.
  unfold limited_digits_value. destruct (too_many_digits t) eqn:T; [discriminate|].
  intros H. unfold too_many_digits in *. apply Z.ltb_ge in T. apply Z.ltb_ge.
  rewrite (filter_all _ _ _ (proj1 (str_of_N_spec n))).
  assert (B := digits_value_bound t 0 false n 0 H eq_refl). cbn [Nat.add] in B.
  remember (List.length (filter is_digit t)) as m. clear Heqm H.
  assert (L : (List.length (str_of_N n) <= Nat.max 1 m)%nat).
  { apply digits_fuel_length; [|lia]. destruct m as [|m].
    - change (10 ^ N.of_nat (Nat.max 1 0)) with 10.
      change (10 ^ N.of_nat 0) with 1 in B. lia.
    - rewrite Nat.max_r by lia. exact B. }
  unfold MAX_STR_DIGITS in *. lia.
Qed.

Lemma ascii_int_small s z :
  ascii_int s = Some z -> too_many_digits (str_of_N (Z.abs_N z)) = false.
Proof.
  unfold ascii_int.
  assert (P : forall t, option_map Z.of_N (limited_digits_value t) = Some z ->
                        too_many_digits (str_of_N (Z.abs_N z)) = false).
  { intros t H. destruct (limited_digits_value t) as [n|] eqn:E; [|discriminate].
    injection H as <-. rewrite Zabs2N.id. apply (limited_digits_value_small _ _ E). }
  assert (M : forall t, option_map (fun n => (- Z.of_N n)%Z) (limited_digits_value t) = Some z ->
                        too_many_digits (str_of_N (Z.abs_N z)) = false).
  { intros t H. destruct (limited_digits_value t) as [n|] eqn:E; [|discriminate].
    injection H as <-. rewrite Zabs2N.inj_opp, Zabs2N.id.
    apply (limited_digits_value_small _ _ E). }
  destruct (strip s) as [|c t]; [apply P|].
  destruct c as [|p]; [apply P|].
  do 6 (destruct p as [p|p|]; try apply P); first [apply M|apply P].
Qed.

Lemma int_of_str_small rt s z :
  int_of_str rt s = Some z -> too_many_digits (str_of_N (Z.abs_N z)) = false.
Proof.
  unfold int_of_str. destruct (forallb isascii s); [apply ascii_int_small|].
  destruct (unicode_int rt s) as [y|]; [|discriminate].
  destruct (too_many_digits (str_of_N (Z.abs_N y))) eqn:T; [discriminate|].
  intros H. injection H as <-. exact T.
Qed.

Lemma limited_digits_value_digits s :
  forallb is_digit s = true -> nonempty s = true -> too_many_digits s = false ->
  limited_digits_value s = Some (decimal_value s).
Proof.
  intros D Hne T. unfold limited_digits_value. rewrite T.
  rewrite (digits_value_digits s 0 false D), Hne. reflexivity.
Qed.

Lemma ascii_int_digits s :
  forallb is_digit s = true -> nonempty s = true -> too_many_digits s = false ->
  ascii_int s = Some (Z.of_N (decimal_value s)).
Proof.
  intros D Hne T. unfold ascii_int. rewrite strip_id.
  2:{ rewrite forallb_forall in *. intros c Hc.
      apply (implb_true _ _ (number_char_not_space c)). unfold is_number_char.
      rewrite (D c Hc). reflexivity. }
  assert (V := limited_digits_value_digits s D Hne T).
  destruct s as [|c t]; [discriminate Hne|].
  cbn [forallb] in D. apply andb_prop in D as [D1 _].
  assert (S := implb_true _ _ (digit_not_sign c) D1).
  apply andb_prop in S as [S1 S2]. apply negb_true_iff in S1, S2.
  apply N.eqb_neq in S1, S2.
  destruct c as [|p]; [rewrite V; reflexivity|].
  do 6 (destruct p as [p|p|]; try (rewrite V; reflexivity)); congruence.
Qed.

Lemma ascii_int_str_of_Z z :
  too_many_digits (str_of_N (Z.abs_N z)) = false -> ascii_int (str_of_Z z) = Some z.
Proof.
  intros T. destruct (str_of_N_spec (Z.abs_N z)) as (D & Hne & V).
  unfold str_of_Z. destruct (Z.ltb_spec z 0) as [L|L].
  - unfold ascii_int. rewrite strip_id.
    2:{ cbn [forallb]. change (negb (is_space 45)) with true. cbn [andb].
        rewrite forallb_forall in *. intros c Hc.
        apply (implb_true _ _ (number_char_not_space c)). unfold is_number_char.
        rewrite (D c Hc). reflexivity. }
    rewrite (limited_digits_value_digits _ D Hne T). cbn [option_map].
    rewrite V. f_equal. lia.
  - rewrite (ascii_int_digits _ D Hne T), V. f_equal. lia.
Qed.

Lemma number_chars_ascii s : forallb is_number_char s = true -> forallb isascii s = true.
Proof.
  intros H. rewrite forallb_forall in *. intros c Hc. specialize (H c Hc).
  revert H. clear. revert c.
  assert (G : forall c, implb (is_number_char c) (isascii c) = true) by (intros c; char_cases c).
  intros c H. apply (implb_true _ _ (G c) H).
Qed.

Lemma int_of_str_str_of_Z rt z :
  too_many_digits (str_of_N (Z.abs_N z)) = false -> int_of_str rt (str_of_Z z) = Some z.
Proof.
  intros T. unfold int_of_str. rewrite (number_chars_ascii _ (str_of_Z_chars z)).
  apply (ascii_int_str_of_Z _ T).
Qed.

Lemma str_of_Z_nonempty z : nonempty (str_of_Z z) = true.
Proof.
  unfold str_of_Z. destruct (z <? 0)%Z; [reflexivity|].
  apply (str_of_N_spec (Z.abs_N z)).
Qed.

(** ** Paths without dot segments *)

Lemma normalize_step_plain output p :
  is_dot_segment p = false -> normalize_step output p = output ++ [p].
Proof.
  unfold is_dot_segment, normalize_step. intros H.
  apply orb_false_elim in H as [-> ->]. reflexivity.
Qed.

Lemma normalize_fold_plain l : forall output,
  forallb (fun p => negb (is_dot_segment p)) l = true ->
  fold_left normalize_step l output = output ++ l.
Proof.
  induction l as [|p l IH]; intros output H; [symmetry; apply app_nil_r|].
  cbn [forallb] in H. apply andb_prop in H as [H1 H2]. apply negb_true_iff in H1.
  cbn [fold_left]. rewrite (normalize_step_plain _ _ H1), (IH _ H2), <- app_assoc.
  reflexivity.
Qed.

Lemma join_split sep s : join sep (split sep s) = s.
Proof.
  induction s as [|c s IH]; [reflexivity|]. cbn [split].
  destruct (N.eqb_spec c sep) as [->|Hc].
  - destruct (split sep s) as [|h r] eqn:E; [destruct (split_nonempty _ _ E)|].
    cbn [join app] in *. rewrite IH. reflexivity.
  - destruct (split sep s) as [|h r] eqn:E; [destruct (split_nonempty _ _ E)|].
    destruct r as [|h' r]; cbn [join app] in *; rewrite <- IH; reflexivity.
Qed.

Lemma normalize_path_fixed s : dot_free s = true -> normalize_path s = s.
Proof.
  intros H. unfold normalize_path. rewrite (normalize_fold_plain _ _ H).
  apply join_split.
Qed.

Lemma split_no_sep sep s p : In p (split sep s) -> char_in sep p = false.
Proof.
  revert p. induction s as [|c s IH]; intros p H.
  - destruct H as [<-|[]]. reflexivity.
  - cbn [split] in H. destruct (N.eqb_spec c sep) as [->|Hc].
    + destruct H as [<-|H]; [reflexivity|apply (IH _ H)].
    + destruct (split sep s) as [|h r] eqn:E; [destruct (split_nonempty _ _ E)|].
      destruct H as [<-|H]; [|apply IH; right; exact H].
      cbn [char_in existsb]. destruct (N.eqb_spec sep c); [congruence|].
      apply (IH h). left. reflexivity.
Qed.

Lemma split_plain sep e :
  char_in sep e = false -> forall s,
  split sep (e ++ s) =
  match split sep s with
  | h :: r => (e ++ h) :: r
  | [] => [e]
  end.
Proof.
  induction e as [|c e IH]; intros H s.
  - cbn [app]. destruct (split sep s) as [|h r] eqn:E; [destruct (split_nonempty _ _ E)|].
    reflexivity.
  - cbn [char_in existsb] in H. apply orb_false_elim in H as [H1 H2].
    cbn [app split]. rewrite N.eqb_sym, H1, (IH H2).
    destruct (split sep s) as [|h r] eqn:E; [destruct (split_nonempty _ _ E)|].
    reflexivity.
Qed.

Lemma split_join sep l :
  l <> [] -> (forall p, In p l -> char_in sep p = false) -> split sep (join sep l) = l.
Proof.
  induction l as [|p l IH]; intros Hne H; [congruence|].
  destruct l as [|q l].
  - cbn [join]. rewrite <- (app_nil_r p), split_plain by (apply H; left; reflexivity).
    reflexivity.
  - change (join sep (p :: q :: l)) with (p ++ sep :: join sep (q :: l)).
    rewrite split_plain by (apply H; left; reflexivity).
    cbn [split]. rewrite N.eqb_refl, IH; [rewrite app_nil_r; reflexivity|discriminate|].
    intros x Hx. apply H. right. exact Hx.
Qed.

Lemma removelast_in (A : Type) (l : list A) x : In x (removelast l) -> In x l.
Proof.
  induction l as [|a l IH]; [auto|]. cbn [removelast].
  destruct l as [|b l]; [intros []|]. intros [<-|H]; [left; reflexivity|right; auto].
Qed.

Lemma normalize_step_keeps (P : list N -> Prop) output p :
  (forall x, In x output -> P x) -> (is_dot_segment p = false -> P p) ->
  forall x, In x (normalize_step output p) -> P x.
Proof.
  intros Ho Hp x. unfold normalize_step.
  destruct (str_eqb p (lit ".")) eqn:E1; [apply Ho|].
  destruct (str_eqb p (lit "..")) eqn:E2.
  - destruct output as [|a l]; [apply Ho|].
    destruct a, l; try apply Ho; intros H; apply Ho; apply (removelast_in _ _ _ H).
  - intros H. apply in_app_or in H as [H|[<-|[]]]; [apply Ho, H|].
    apply Hp. unfold is_dot_segment. rewrite E1, E2. reflexivity.
Qed.

Lemma normalize_fold_keeps (P : list N -> Prop) l : forall output,
  (forall x, In x output -> P x) ->
  (forall p, In p l -> is_dot_segment p = false -> P p) ->
  forall x, In x (fold_left normalize_step l output) -> P x.
Proof.
  induction l as [|p l IH]; intros output Ho Hl; [exact Ho|].
  cbn [fold_left]. apply IH.
  - apply normalize_step_keeps; [exact Ho|]. apply Hl. left. reflexivity.
  - intros q Hq. apply Hl. right. exact Hq.
Qed.

Lemma normalize_path_dot_free s : dot_free (normalize_path s) = true.
Proof.
  unfold normalize_path, dot_free.
  set (out := fold_left normalize_step (split 47 s) []).
  assert (K : forall x, In x out ->
                char_in 47 x = false /\ is_dot_segment x = false).
  { apply normalize_fold_keeps; [intros x []|].
    intros p Hp Hd. split; [apply (split_no_sep _ _ _ Hp)|exact Hd]. }
  destruct out as [|a l] eqn:E; [reflexivity|].
  rewrite split_join; [|discriminate|intros p Hp; apply (K p Hp)].
  apply forallb_forall. intros p Hp. apply negb_true_iff. apply (K p Hp).
Qed.

Lemma escapes_only_no c e :
  escapes_only e -> is_upper_hex c = false -> c <> 37 -> char_in c e = false.
Proof.
  intros He Hc Hn. induction He as [|h1 h2 t H1 H2 _ IH]; [reflexivity|].
  cbn [char_in existsb]. fold (char_in c t). rewrite IH, orb_false_r.
  destruct (N.eqb_spec c 37); [congruence|].
  destruct (N.eqb_spec c h1); [congruence|].
  destruct (N.eqb_spec c h2); [congruence|reflexivity].
Qed.

Lemma quoted_empty keep s : quoted keep s [] -> s = [].
Proof.
  intros Q. remember [] as o eqn:Eo.
  destruct Q as [|c s o Hc Q|c e s o Hc Hne He Q]; [reflexivity|discriminate|].
  apply app_eq_nil in Eo as [-> _]. congruence.
Qed.

Lemma quoted_split keep s o :
  quoted keep s o -> char_in 47 keep = true ->
  Forall2 (quoted keep) (split 47 s) (split 47 o).
Proof.
  intros Q K. induction Q as [|c s o Hc Q IH|c e s o Hc Hne He Q IH].
  - repeat constructor.
  - cbn [split]. destruct (N.eqb_spec c 47) as [->|Hn].
    + constructor; [constructor|exact IH].
    + inversion IH as [|h h' r r' Hh Hr E1 E2]; [destruct (split_nonempty _ _ (eq_sym H0))|].
      constructor; [apply quoted_keep; assumption|exact Hr].
  - assert (Hn : c <> 47) by (intros ->; congruence).
    cbn [split]. destruct (N.eqb_spec c 47); [congruence|].
    rewrite (split_plain 47 e (escapes_only_no 47 e He eq_refl ltac:(discriminate))).
    inversion IH as [|h h' r r' Hh Hr E1 E2]; [destruct (split_nonempty _ _ (eq_sym H0))|].
    constructor; [apply quoted_escape; assumption|exact Hr].
Qed.

Lemma quoted_dot keep p q :
  quoted keep p q -> is_dot_segment q = true -> is_dot_segment p = true.
Proof.
  intros Q H. unfold is_dot_segment in H.
  assert (E : q = [46] \/ q = [46; 46]).
  { apply orb_prop in H as [H|H]; [left|right]; revert H; clear;
      (destruct q as [|a [|b [|c q]]]; try discriminate; cbn [str_eqb lit];
       intros H; repeat (apply andb_prop in H as [? H]);
       repeat match goal with X : (_ =? _) = true |- _ => apply N.eqb_eq in X end;
       subst; try reflexivity; try discriminate). }
  assert (Esc : forall e t, escapes_only e -> e <> [] -> e ++ t <> [46] /\ e ++ t <> [46; 46]).
  { intros e t He Hne. destruct He; [congruence|]. split; discriminate. }
  destruct E as [-> | ->].
  - inversion Q as [|c s o Hc Q' E1 E2|c e s o Hc Hne He Q' E1 E2]; subst.
    + apply quoted_empty in Q'. subst. reflexivity.
    + destruct (Esc e o He Hne) as [X _]. congruence.
  - inversion Q as [|c s o Hc Q' E1 E2|c e s o Hc Hne He Q' E1 E2]; subst.
    + inversion Q' as [|c' s' o' Hc' Q'' E1 E2|c' e' s' o' Hc' Hne' He' Q'' E1 E2]; subst.
      * apply quoted_empty in Q''. subst. reflexivity.
      * destruct (Esc e' o' He' Hne') as [X _]. congruence.
    + destruct (Esc e o He Hne) as [_ X]. congruence.
Qed.

Lemma quoted_dot_free keep s o :
  quoted keep s o -> char_in 47 keep = true -> dot_free s = true -> dot_free o = true.
Proof.
  intros Q K. unfold dot_free. assert (F := quoted_split _ _ _ Q K).
  induction F as [|p q l l' Hpq _ IH]; [reflexivity|].
  cbn [forallb]. intros H. apply andb_prop in H as [H1 H2]. rewrite (IH H2), andb_true_r.
  apply negb_true_iff in H1. apply negb_true_iff.
  destruct (is_dot_segment q) eqn:E; [|reflexivity].
  rewrite (quoted_dot _ _ _ Hpq E) in H1. discriminate.
Qed.

Lemma quote_dot_free s safe o :
  quote s safe = Ok o -> char_in 47 safe = true -> dot_free s = true -> dot_free o = true.
Proof.
  intros Q K. apply (quoted_dot_free _ _ _ (quote_quoted _ _ _ Q)).
  rewrite non_escaped_spec, K, orb_true_r. reflexivity.
Qed.

(** ** Splitting a canonical string again *)

Lemma not_scheme_char_colon : is_scheme_char 58 = false.
Proof. reflexivity. Qed.

Lemma match_scheme_compose c t rest :
  is_alpha c = true -> forallb is_scheme_char t = true ->
  match_scheme ((c :: t) ++ 58 :: rest) = Some (c :: t, rest).
Proof.
  intros Hc Ht. cbn [app match_scheme]. rewrite Hc.
  rewrite (span_stop is_scheme_char t (58 :: rest) Ht eq_refl). reflexivity.
Qed.

Lemma match_scheme_head c s : is_alpha c = false -> match_scheme (c :: s) = None.
Proof. intros H. cbn [match_scheme]. rewrite H. reflexivity. Qed.

Lemma path_end_head (P : N -> bool) s :
  path_end s = true -> P 63 = false -> P 35 = false ->
  match s with [] => true | c :: _ => negb (P c) end = true.
Proof.
  destruct s as [|c s]; [reflexivity|]. cbn [path_end]. intros H H1 H2.
  apply orb_prop in H as [H|H]; apply N.eqb_eq in H; subst c; [rewrite H1|rewrite H2];
    reflexivity.
Qed.

Lemma not_colon_head s :
  match s with [] => true | c :: _ => negb (c =? 58) end = true ->
  forall x run, match s with 58 :: rest' => Some (x :: run, rest') | _ => None end
                = (None : option (list N * list N)).
Proof.
  intros H x run. destruct s as [|c s]; [reflexivity|].
  apply negb_true_iff, N.eqb_neq in H.
  destruct c as [|p]; [reflexivity|].
  do 6 (destruct p as [p|p|]; try reflexivity). congruence.
Qed.

Lemma span_rest_head p s :
  match snd (span p s) with [] => true | c :: _ => negb (p c) end = true.
Proof.
  induction s as [|c s IH]; [reflexivity|]. cbn [span].
  destruct (p c) eqn:E; [|cbn; rewrite E; reflexivity].
  destruct (span p s) as [a b]. exact IH.
Qed.

Lemma match_scheme_none_app p tail :
  match_scheme p = None -> path_end tail = true -> match_scheme (p ++ tail) = None.
Proof.
  intros H Ht. destruct p as [|c t].
  - destruct tail as [|x tail]; [reflexivity|]. cbn [app]. apply match_scheme_head.
    cbn [path_end] in Ht. apply orb_prop in Ht as [E|E]; apply N.eqb_eq in E; subst x;
      reflexivity.
  - cbn [app match_scheme] in *. destruct (is_alpha c); [|reflexivity].
    assert (F := span_forallb is_scheme_char t).
    assert (A := span_app is_scheme_char t).
    assert (B := span_rest_head is_scheme_char t).
    destruct (span is_scheme_char t) as [a b]. cbn [fst snd] in F, A, B.
    assert (S : span is_scheme_char (t ++ tail) = (a, b ++ tail)).
    { rewrite A, <- app_assoc. apply span_stop; [exact F|].
      destruct b as [|y b]; [|exact B].
      cbn [app]. apply (path_end_head is_scheme_char); auto. }
    rewrite S. destruct b as [|y b].
    + cbn [app]. apply not_colon_head. apply (path_end_head (fun c => c =? 58)); auto.
    + cbn [app]. destruct (N.eqb_spec y 58) as [->|Hy]; [discriminate H|].
      destruct y as [|q]; [reflexivity|].
      do 6 (destruct q as [q|q|]; try reflexivity). congruence.
Qed.

Lemma match_authority_compose au rest :
  forallb (fun c => negb (char_in c (lit "/?#"))) au = true ->
  match rest with [] => true | c :: _ => char_in c (lit "/?#") end = true ->
  match_authority (47 :: 47 :: au ++ rest) = Some (au, rest).
Proof.
  intros Ha Hr. cbn [match_authority]. rewrite span_stop; [reflexivity|exact Ha|].
  destruct rest as [|c rest]; [reflexivity|]. rewrite Hr. reflexivity.
Qed.

Lemma match_authority_none s :
  starts_with_slashes s = false -> match_authority s = None.
Proof.
  destruct s as [|a [|b s]]; try reflexivity.
  - intros _. destruct a as [|p]; [reflexivity|].
    do 6 (destruct p as [p|p|]; try reflexivity).
  - destruct a as [|p]; [reflexivity|].
    do 6 (destruct p as [p|p|]; try reflexivity).
    destruct b as [|p]; [reflexivity|].
    do 6 (destruct p as [p|p|]; try reflexivity). discriminate.
Qed.

Lemma slashes_app p tail :
  starts_with_slashes p = false -> path_end tail = true ->
  starts_with_slashes (p ++ tail) = false.
Proof.
  intros H Ht. destruct p as [|a [|b p]]; cbn [app].
  - destruct tail as [|x tail]; [reflexivity|]. cbn [path_end] in Ht.
    apply orb_prop in Ht as [E|E]; apply N.eqb_eq in E; subst x; reflexivity.
  - destruct tail as [|x tail]; [exact H|]. cbn [path_end] in Ht.
    apply orb_prop in Ht as [E|E]; apply N.eqb_eq in E; subst x;
      (destruct a as [|q]; [reflexivity|];
       do 6 (destruct q as [q|q|]; try reflexivity)).
  - exact H.
Qed.

Lemma match_query_compose q rest :
  forallb (fun c => negb (c =? 35)) q = true ->
  match rest with [] => true | c :: _ => c =? 35 end = true ->
  match_query (63 :: q ++ rest) = Some (q, rest).
Proof.
  intros Hq Hr. cbn [match_query]. rewrite span_stop; [reflexivity|exact Hq|].
  destruct rest as [|c rest]; [reflexivity|]. rewrite Hr. reflexivity.
Qed.

Lemma match_fragment_compose f :
  forallb (fun c => negb (c =? 10)) f = true -> match_fragment (35 :: f) = Some (f, []).
Proof.
  intros Hf. cbn [match_fragment]. rewrite <- (app_nil_r f) at 1.
  rewrite span_stop; [reflexivity|exact Hf|reflexivity].
Qed.

Lemma to_str_parts r :
  to_str r =
  scheme_part (scheme r) ++ authority_part (authority r) ++ path r ++
  query_part (query r) ++ fragment_part (fragment r).
Proof. reflexivity. Qed.

Lemma URL_REGEX_match_stages url sc s1 au s2 p s3 q s4 f :
  match match_scheme url with
  | Some (x, rest) => (Some x, rest)
  | None => (None, url)
  end = (sc, s1) ->
  match match_authority s1 with
  | Some (x, rest) => (Some x, rest)
  | None => (None, s1)
  end = (au, s2) ->
  span (fun c => negb (char_in c (lit "?#"))) s2 = (p, s3) ->
  match match_query s3 with
  | Some (x, rest) => (Some x, rest)
  | None => (None, s3)
  end = (q, s4) ->
  match match_fragment s4 with
  | Some (x, _) => Some x
  | None => None
  end = f ->
  URL_REGEX_match url =
  {| g_scheme := sc; g_authority := au; g_path := p; g_query := q; g_fragment := f |}.
Proof.
  intros E1 E2 E3 E4 E5. unfold URL_REGEX_match.
  rewrite E1. cbv beta iota. rewrite E2. cbv beta iota. rewrite E3. cbv beta iota.
  rewrite E4. cbv beta iota. rewrite E5. reflexivity.
Qed.

Lemma URL_REGEX_match_compose sc au p q f :
  scheme_shape sc = true ->
  forallb (fun c => negb (char_in c (lit "/?#"))) au = true ->
  forallb (fun c => negb (char_in c (lit "?#"))) p = true ->
  (nonempty au = true -> match p with [] => true | c :: _ => c =? 47 end = true) ->
  (nonempty au = false -> starts_with_slashes p = false) ->
  (nonempty sc = false -> nonempty au = false -> match_scheme p = None) ->
  match q with Some q => forallb (fun c => negb (c =? 35)) q | None => true end = true ->
  match f with Some f => forallb (fun c => negb (c =? 10)) f | None => true end = true ->
  URL_REGEX_match
    (scheme_part sc ++ authority_part au ++ p ++ query_part q ++ fragment_part f) =
  {| g_scheme := present sc; g_authority := present au; g_path := p;
     g_query := q; g_fragment := f |}.
Proof.
  intros Hsc Hau Hp Habs Hsl Hms Hq Hf.
  assert (Ef : path_end (fragment_part f) = true) by (destruct f; reflexivity).
  assert (Eq : path_end (query_part q ++ fragment_part f) = true).
  { destruct q; [reflexivity|exact Ef]. }
  assert (Ep : match p ++ query_part q ++ fragment_part f with
               | [] => true
               | c :: _ => char_in c (lit "/?#")
               end = true \/ nonempty au = false).
  { destruct (nonempty au) eqn:Ea; [left|right; reflexivity].
    specialize (Habs eq_refl). destruct p as [|c p].
    - cbn [app]. destruct (query_part q ++ fragment_part f) as [|c t]; [reflexivity|].
      cbn [path_end] in Eq. apply orb_prop in Eq as [E|E]; apply N.eqb_eq in E; subst c;
        reflexivity.
    - apply N.eqb_eq in Habs. subst c. reflexivity. }
  (* the scheme *)
  assert (S1 : match_scheme
                 (scheme_part sc ++ authority_part au ++ p ++ query_part q ++ fragment_part f)
               = match present sc with
                 | Some x => Some (x, authority_part au ++ p ++ query_part q ++ fragment_part f)
                 | None => None
                 end).
  { unfold scheme_part, present. destruct sc as [|c t]; cbn [nonempty].
    - cbn [app]. unfold authority_part. destruct (nonempty au) eqn:Ea.
      + apply match_scheme_head. reflexivity.
      + cbn [app]. apply match_scheme_none_app; [apply Hms; reflexivity|exact Eq].
    - cbn [scheme_shape] in Hsc. apply andb_prop in Hsc as [H1 H2].
      rewrite <- app_assoc. apply (match_scheme_compose c t _ H1 H2). }
  (* the authority *)
  assert (S2 : match_authority (authority_part au ++ p ++ query_part q ++ fragment_part f)
               = match present au with
                 | Some x => Some (x, p ++ query_part q ++ fragment_part f)
                 | None => None
                 end).
  { unfold authority_part, present. destruct (nonempty au) eqn:Ea.
    - cbn [app]. destruct Ep as [Ep|Ep]; [|discriminate].
      apply (match_authority_compose _ _ Hau Ep).
    - cbn [app]. apply match_authority_none, slashes_app; [apply Hsl; reflexivity|exact Eq]. }
  (* the path *)
  assert (S3 : span (fun c => negb (char_in c (lit "?#")))
                 (p ++ query_part q ++ fragment_part f)
               = (p, query_part q ++ fragment_part f)).
  { apply span_stop; [exact Hp|].
    apply (path_end_head (fun c => negb (char_in c (lit "?#")))); auto. }
  (* the query and the fragment *)
  assert (S4 : match_query (query_part q ++ fragment_part f)
               = match q with Some x => Some (x, fragment_part f) | None => None end).
  { destruct q as [x|]; cbn [query_part app].
    - apply (match_query_compose _ _ Hq). destruct f; reflexivity.
    - destruct f; reflexivity. }
  assert (S5 : match_fragment (fragment_part f)
               = match f with Some x => Some (x, []) | None => None end).
  { destruct f as [x|]; [apply (match_fragment_compose _ Hf)|reflexivity]. }
  apply (URL_REGEX_match_stages _ _
           (authority_part au ++ p ++ query_part q ++ fragment_part f) _
           (p ++ query_part q ++ fragment_part f) _
           (query_part q ++ fragment_part f) _ (fragment_part f)).
  - rewrite S1. unfold scheme_part, present. destruct (nonempty sc); reflexivity.
  - rewrite S2. unfold authority_part, present. destruct (nonempty au); reflexivity.
  - exact S3.
  - rewrite S4. destruct q; reflexivity.
  - rewrite S5. destruct f; reflexivity.
Qed.

(** ** Splitting an authority again *)

Lemma forallb_impl (P Q : N -> bool) s :
  (forall c, implb (P c) (Q c) = true) -> forallb P s = true -> forallb Q s = true.
Proof.
  intros I H. rewrite forallb_forall in *. intros c Hc.
  apply (implb_true _ _ (I c) (H c Hc)).
Qed.

Lemma span_all p s : forallb p s = true -> span p s = (s, []).
Proof.
  intros H. rewrite <- (app_nil_r s) at 1. apply span_stop; [exact H|reflexivity].
Qed.

Lemma rsplit_none c s : char_in c s = false -> rsplit c s = None.
Proof.
  unfold char_in. induction s as [|x t IH]; [reflexivity|]. cbn [existsb rsplit].
  intros H. apply orb_false_elim in H as [H1 H2]. rewrite (IH H2), N.eqb_sym, H1.
  reflexivity.
Qed.

Lemma rsplit_last c a b : char_in c b = false -> rsplit c (a ++ c :: b) = Some (a, b).
Proof.
  intros H. induction a as [|x a IH]; cbn [app rsplit].
  - rewrite (rsplit_none _ _ H), N.eqb_refl. reflexivity.
  - rewrite IH. reflexivity.
Qed.

Lemma char_in_forallb c s :
  char_in c s = false <-> forallb (fun x => negb (x =? c)) s = true.
Proof.
  unfold char_in. induction s as [|x t IH]; [split; reflexivity|].
  cbn [existsb forallb]. rewrite orb_false_iff, andb_true_iff, IH, negb_true_iff, N.eqb_sym.
  reflexivity.
Qed.

(** The text of a port: digits, after a minus sign at most. *)
Lemma port_suffix_chars (P : N -> bool) po :
  P 58 = true -> (forall c, implb (is_number_char c) (P c) = true) ->
  forallb P (port_suffix po) = true.
Proof.
  intros H1 H2. destruct po as [p|]; [|reflexivity]. cbn [port_suffix forallb].
  rewrite H1. apply (forallb_impl _ _ _ H2 (str_of_Z_chars p)).
Qed.

Lemma port_suffix_head po :
  match port_suffix po with [] => true | c :: _ => c =? 58 end = true.
Proof. destruct po; reflexivity. Qed.

Lemma bracketed_chars (P : N -> bool) h :
  P 91 = true -> P 93 = true -> forallb P h = true -> forallb P (bracketed h) = true.
Proof.
  intros H1 H2 H. unfold bracketed. destruct (char_in 58 h); [|exact H].
  cbn [forallb]. rewrite H1, forallb_app, H. cbn [forallb]. rewrite H2. reflexivity.
Qed.

Lemma match_host_plain s :
  startswith 91 s = false -> match_host s = span (fun c => negb (c =? 58)) s.
Proof.
  destruct s as [|c t]; [reflexivity|]. cbn [startswith]. intros H.
  destruct c as [|p]; [reflexivity|].
  do 7 (destruct p as [p|p|]; try reflexivity). discriminate H.
Qed.

Lemma match_host_compose h po :
  forallb (fun c => negb (c =? 10)) h = true ->
  (char_in 58 h = false -> startswith 91 h = false) ->
  match_host (bracketed h ++ port_suffix po) = (bracketed h, port_suffix po).
Proof.
  intros Hn Hb. unfold bracketed. destruct (char_in 58 h) eqn:E.
  - cbn [app]. rewrite <- app_assoc. cbn [app]. unfold match_host.
    assert (S : span (fun c => negb (c =? 10)) (h ++ 93 :: port_suffix po)
                = (h ++ 93 :: port_suffix po, [])).
    { apply span_all. rewrite forallb_app, Hn. cbn [forallb andb].
      apply port_suffix_chars; [reflexivity|]. intros c. char_cases c. }
    rewrite S. rewrite rsplit_last, app_nil_r; [reflexivity|].
    apply char_in_forallb. apply port_suffix_chars; [reflexivity|].
    intros c. char_cases c.
  - specialize (Hb eq_refl). rewrite match_host_plain.
    + apply span_stop; [apply char_in_forallb; exact E|].
      assert (P := port_suffix_head po). destruct (port_suffix po) as [|c t]; [reflexivity|].
      rewrite P. reflexivity.
    + destruct h as [|c t]; [destruct po; reflexivity|exact Hb].
Qed.

Lemma port_group po :
  fst (span (fun c => negb (c =? 10))
         match port_suffix po with 58 :: t => t | _ => port_suffix po end) = port_text po.
Proof.
  destruct po as [p|]; [|reflexivity]. cbn [port_suffix port_text].
  rewrite span_all; [reflexivity|].
  apply (forallb_impl is_number_char); [intros c; char_cases c|apply str_of_Z_chars].
Qed.

Lemma AUTHORITY_REGEX_match_stages s u s1 h s2 :
  (let '(before, found, after) := partition 64 s in
   if found then (Some before, after) else (None, s)) = (u, s1) ->
  match_host s1 = (h, s2) ->
  AUTHORITY_REGEX_match s =
  {| g_userinfo := u; g_host := h;
     g_port := Some (fst (span (fun c => negb (c =? 10))
                            match s2 with 58 :: t => t | _ => s2 end)) |}.
Proof.
  intros E1 E2. unfold AUTHORITY_REGEX_match.
  destruct (partition 64 s) as [[before found] after]. cbv beta iota in E1 |- *.
  rewrite E1. cbv beta iota. rewrite E2. cbv beta iota zeta.
  destruct (span _ _). reflexivity.
Qed.

Lemma AUTHORITY_REGEX_match_compose u h po :
  forallb (fun c => negb (c =? 64)) u = true ->
  forallb (fun c => negb (c =? 64) && negb (c =? 10)) h = true ->
  (char_in 58 h = false -> startswith 91 h = false) ->
  AUTHORITY_REGEX_match
    ((if nonempty u then u ++ [64] else []) ++ bracketed h ++ port_suffix po) =
  {| g_userinfo := present u; g_host := bracketed h; g_port := Some (port_text po) |}.
Proof.
  intros Hu Hh Hb.
  assert (H1 : forallb (fun c => negb (c =? 64)) h = true).
  { revert Hh. apply forallb_impl. intros c.
    destruct (negb (c =? 64)), (negb (c =? 10)); reflexivity. }
  assert (H2 : forallb (fun c => negb (c =? 10)) h = true).
  { revert Hh. apply forallb_impl. intros c.
    destruct (negb (c =? 64)), (negb (c =? 10)); reflexivity. }
  rewrite <- (port_group po).
  apply (AUTHORITY_REGEX_match_stages _ _ (bracketed h ++ port_suffix po));
    [|apply (match_host_compose h po H2 Hb)].
  unfold partition, present. destruct u as [|c t]; cbn [nonempty].
  - cbn [app]. rewrite span_all; [reflexivity|].
    rewrite forallb_app, (bracketed_chars _ h eq_refl eq_refl H1).
    apply port_suffix_chars; [reflexivity|]. intros c. char_cases c.
  - rewrite <- app_assoc.
    change ([64] ++ bracketed h ++ port_suffix po) with (64 :: bracketed h ++ port_suffix po).
    rewrite (span_stop _ (c :: t) (64 :: bracketed h ++ port_suffix po) Hu eq_refl).
    reflexivity.
Qed.

(** ** Parsing the canonical string of a result *)

Lemma canonical_chars safe s :
  canonical_text safe s -> forallb (canonical_char safe) s = true.
Proof.
  intros [H _]. apply forallb_forall. intros c Hc. destruct (H c Hc) as [H1 H2].
  unfold canonical_char. rewrite H1, H2. reflexivity.
Qed.

Lemma canonical_opt_chars safe (P : N -> bool) o :
  (forall c, implb (canonical_char safe c) (P c) = true) -> canonical_opt safe o ->
  match o with Some s => forallb P s | None => true end = true.
Proof.
  intros I H. destruct o as [s|]; [|reflexivity].
  apply (forallb_impl _ _ _ I (canonical_chars _ _ H)).
Qed.

Lemma has_control_spec s : has_control s = negb (forallb not_control s).
Proof.
  unfold has_control, not_control. induction s as [|c s IH]; [reflexivity|].
  cbn [existsb forallb]. rewrite IH, negb_andb, negb_involutive. reflexivity.
Qed.

Lemma authority_chars (P : N -> bool) r :
  P 64 = true -> P 91 = true -> P 93 = true -> P 58 = true ->
  (forall c, implb (is_number_char c) (P c) = true) ->
  forallb P (userinfo r) = true -> forallb P (host r) = true ->
  forallb P (authority r) = true.
Proof.
  intros H1 H2 H3 H4 Hn Hu Hh. unfold authority.
  rewrite !forallb_app, (bracketed_chars P _ H2 H3 Hh), (port_suffix_chars P _ H4 Hn).
  destruct (nonempty (userinfo r)); [|reflexivity].
  rewrite forallb_app, Hu. cbn [forallb]. rewrite H1. reflexivity.
Qed.

Lemma to_str_chars (P : N -> bool) r :
  P 58 = true -> P 47 = true -> P 63 = true -> P 35 = true ->
  forallb P (scheme r) = true -> forallb P (authority r) = true ->
  forallb P (path r) = true ->
  match query r with Some s => forallb P s | None => true end = true ->
  match fragment r with Some s => forallb P s | None => true end = true ->
  forallb P (to_str r) = true.
Proof.
  intros H1 H2 H3 H4 Hs Ha Hp Hq Hf. rewrite to_str_parts, !forallb_app, Hp.
  unfold scheme_part, authority_part, query_part, fragment_part.
  assert (E1 : forallb P (if nonempty (scheme r) then scheme r ++ [58] else []) = true).
  { destruct (nonempty (scheme r)); [|reflexivity].
    rewrite forallb_app, Hs. cbn [forallb]. rewrite H1. reflexivity. }
  assert (E2 : forallb P (if nonempty (authority r) then 47 :: 47 :: authority r else [])
               = true).
  { destruct (nonempty (authority r)); [|reflexivity].
    cbn [forallb]. rewrite H2, Ha. reflexivity. }
  rewrite E1, E2. destruct (query r) as [q|], (fragment r) as [f|]; cbn [forallb];
    rewrite ?H3, ?H4, ?Hq, ?Hf; reflexivity.
Qed.

Lemma opt_or_empty_present s : opt_or_empty (present s) = s.
Proof. destruct s; reflexivity. Qed.

Lemma nonempty_nil (A : Type) (l : list A) : nonempty l = false <-> l = [].
Proof. destruct l; split; intros H; try reflexivity; discriminate H. Qed.

Lemma authority_nil r :
  authority r = [] -> userinfo r = [] /\ bracketed (host r) = [] /\ port r = None.
Proof.
  unfold authority. destruct (userinfo r) as [|c t]; cbn [nonempty app]; [|discriminate].
  intros H. apply app_eq_nil in H as [H1 H2]. split; [reflexivity|]. split; [exact H1|].
  destruct (port r); [discriminate H2|reflexivity].
Qed.

(** The alphabets of the components of a result. *)
Lemma result_texts rt url kw r :
  urlparse rt url kw = Ok r ->
  scheme_shape (scheme r) = true /\ str_lower rt (scheme r) = scheme r /\
  canonical_text (SUB_DELIMS ++ lit ":") (userinfo r) /\
  canonical_text (SUB_DELIMS ++ lit ":@/") (path r) /\
  canonical_opt (SUB_DELIMS ++ lit "/?") (query r) /\
  canonical_opt (SUB_DELIMS ++ lit "/?") (fragment r).
Proof.
  intros H. apply urlparse_ok in H as (c & Hc & H).
  apply merged_scheme_shape in Hc.
  apply normalize_components_ok in H as (Hs & Hu & _ & _ & (p & _ & Hp) & Hq & Hf).
  assert (Hc' := scheme_shape_chars _ Hc).
  rewrite (str_lower_ascii rt _ (scheme_chars_ascii _ Hc')) in Hs.
  assert (L := lowered_scheme_shape _ Hc). rewrite <- Hs in L.
  split; [exact L|]. split; [|split; [|split; [|split]]].
  - rewrite (str_lower_ascii rt _ (scheme_chars_ascii _ (scheme_shape_chars _ L))).
    rewrite <- (map_id (scheme r)) at 2. apply map_ext_in. intros x Hx.
    rewrite Hs in Hx. destruct (lowered_scheme_chars _ _ Hc' Hx) as (_ & _ & U).
    unfold ascii_lower. rewrite U. reflexivity.
  - apply (quote_canonical _ _ _ Hu eq_refl printable_userinfo).
  - apply (quote_canonical _ _ _ Hp eq_refl printable_path).
  - apply (quote_opt_canonical _ _ _ Hq eq_refl printable_query).
  - apply (quote_opt_canonical _ _ _ Hf eq_refl printable_query).
Qed.

(** Characters of each alphabet that the patterns stop at. *)
Lemma scheme_char_plain c : implb (is_scheme_char c) (not_control c) = true.
Proof. char_cases c. Qed.

Lemma number_char_plain c :
  implb (is_number_char c) (not_control c && negb (char_in c (lit "/?#"))) = true.
Proof. char_cases c. Qed.

Lemma userinfo_char_plain c :
  implb (canonical_char (SUB_DELIMS ++ lit ":") c)
        (not_control c && negb (char_in c (lit "/?#")) && negb (c =? 64)) = true.
Proof. char_cases c. Qed.

Lemma path_char_plain c :
  implb (canonical_char (SUB_DELIMS ++ lit ":@/") c)
        (not_control c && negb (char_in c (lit "?#"))) = true.
Proof. char_cases c. Qed.

Lemma query_char_plain c :
  implb (canonical_char (SUB_DELIMS ++ lit "/?") c)
        (not_control c && negb (c =? 35) && negb (c =? 10)) = true.
Proof. char_cases c. Qed.

Lemma host_char_plain c :
  implb (negb (char_in c (lit "@/?#")) && not_control c)
        (not_control c && negb (char_in c (lit "/?#")) && (negb (c =? 64) && negb (c =? 10)))
  = true.
Proof. char_cases c. Qed.

Lemma host_char_userinfo c :
  implb (negb (char_in c (lit "@/?#")) && not_control c)
        (negb (c =? 64) && negb (c =? 10)) = true.
Proof. char_cases c. Qed.

(** A fact on every character of a text, from one on its alphabet. *)
Ltac chars H :=
  refine (forallb_impl _ _ _ _ H); let c := fresh "c" in intros c; char_cases c.
Ltac opt_chars H :=
  refine (canonical_opt_chars _ _ _ _ H); let c := fresh "c" in intros c; char_cases c.

Lemma to_str_plain r :
  scheme_shape (scheme r) = true ->
  canonical_text (SUB_DELIMS ++ lit ":") (userinfo r) ->
  canonical_text (SUB_DELIMS ++ lit ":@/") (path r) ->
  canonical_opt (SUB_DELIMS ++ lit "/?") (query r) ->
  canonical_opt (SUB_DELIMS ++ lit "/?") (fragment r) ->
  host_splits (host r) ->
  has_control (to_str r) = false.
Proof.
  intros Hsc Hu Hp Hq Hf [Hh _]. apply canonical_chars in Hu, Hp.
  rewrite has_control_spec. apply negb_false_iff.
  apply to_str_chars; try reflexivity.
  - chars (scheme_shape_chars _ Hsc).
  - apply authority_chars; try reflexivity.
    + intros c. char_cases c.
    + chars Hu.
    + chars Hh.
  - chars Hp.
  - opt_chars Hq.
  - opt_chars Hf.
Qed.

Lemma merge_groups_to_str r :
  scheme_shape (scheme r) = true ->
  canonical_text (SUB_DELIMS ++ lit ":") (userinfo r) ->
  canonical_text (SUB_DELIMS ++ lit ":@/") (path r) ->
  canonical_opt (SUB_DELIMS ++ lit "/?") (query r) ->
  canonical_opt (SUB_DELIMS ++ lit "/?") (fragment r) ->
  host_splits (host r) ->
  (authority r <> [] -> path r = [] \/ startswith 47 (path r) = true) ->
  (authority r = [] -> starts_with_slashes (path r) = false) ->
  (scheme r = [] -> authority r = [] -> match_scheme (path r) = None) ->
  merge_groups (to_str r) [] = reparsed r.
Proof.
  intros Hsc Hu Hp Hq Hf [Hh Hb] Habs Hsl Hms. apply canonical_chars in Hu, Hp.
  assert (G : URL_REGEX_match (to_str r) =
              {| g_scheme := present (scheme r); g_authority := present (authority r);
                 g_path := path r; g_query := query r; g_fragment := fragment r |}).
  { rewrite to_str_parts. apply URL_REGEX_match_compose.
    - exact Hsc.
    - apply authority_chars; try reflexivity.
      + intros c. char_cases c.
      + chars Hu.
      + chars Hh.
    - chars Hp.
    - intros N. destruct (Habs ltac:(intros E; rewrite E in N; discriminate N)) as [E|E].
      + rewrite E. reflexivity.
      + destruct (path r); [reflexivity|exact E].
    - intros N. apply Hsl. apply nonempty_nil. exact N.
    - intros N1 N2. apply Hms; apply nonempty_nil; assumption.
    - opt_chars Hq.
    - opt_chars Hf. }
  assert (A : AUTHORITY_REGEX_match (authority r) =
              {| g_userinfo := present (userinfo r); g_host := bracketed (host r);
                 g_port := Some (port_text (port r)) |}).
  { unfold authority. apply AUTHORITY_REGEX_match_compose.
    - chars Hu.
    - chars Hh.
    - exact Hb. }
  unfold merge_groups, kw_get_default. cbn [kw_get]. cbv zeta. rewrite G.
  cbn [g_scheme g_authority g_path g_query g_fragment opt_or_empty].
  rewrite !opt_or_empty_present, A. cbn [g_userinfo g_host g_port opt_or_empty].
  rewrite opt_or_empty_present. reflexivity.
Qed.

Lemma quote_opt_idempotent o safe q : quote_opt o safe = Ok q -> quote_opt q safe = Ok q.
Proof.
  intros H. apply quote_opt_ok in H. destruct o as [s|], q as [t|]; try easy.
  cbn [quote_opt]. rewrite (quote_idempotent _ _ _ H). reflexivity.
Qed.

Lemma normalize_port_text rt po sc :
  (forall p, po = Some p -> default_port sc <> Some p) ->
  (forall p, po = Some p -> too_many_digits (str_of_N (Z.abs_N p)) = false) ->
  normalize_port rt (Some (port_text po)) sc = Ok po.
Proof.
  intros H T. destruct po as [z|]; cbn [port_text]; [|reflexivity].
  unfold normalize_port. assert (E := str_of_Z_nonempty z).
  destruct (str_of_Z z) as [|x t] eqn:Ez; [discriminate E|].
  rewrite <- Ez, (int_of_str_str_of_Z rt z (T z eq_refl)). specialize (H z eq_refl).
  destruct (default_port sc) as [d|]; [|reflexivity].
  destruct (Z.eqb_spec z d); [subst; congruence|reflexivity].
Qed.

(** Normalising the components of a result again gives the result, when
    its host encodes to itself and its port is not the default one of its
    scheme. *)
Lemma normalize_components_reparsed rt c r :
  normalize_components rt c = Ok r ->
  str_lower rt (scheme r) = scheme r ->
  (forall p, port r = Some p -> default_port (scheme r) <> Some p) ->
  encode_host rt (bracketed (host r)) = Ok (host r) ->
  normalize_components rt (reparsed r) = Ok r.
Proof.
  intros H Hs Hpo Hh.
  assert (A := authority_set_false rt c r H).
  assert (B := normalized_path_absolute rt c r H).
  apply normalize_components_ok in H as (_ & Hu & _ & Hn & (p & Hp & Hpp) & Hq & Hf).
  apply (normalize_components_intro rt (reparsed r) r (path r));
    cbn [reparsed c_scheme c_userinfo c_host c_port c_path c_query c_fragment].
  - symmetry. exact Hs.
  - apply (quote_idempotent _ _ _ Hu).
  - exact Hh.
  - apply normalize_port_text; [exact Hpo|]. intros z Hz. rewrite Hz in Hn.
    apply normalize_port_some in Hn as (_ & s & _ & _ & Hi).
    apply (int_of_str_small _ _ _ Hi).
  - destruct (authority_set (reparsed r)) eqn:E; [|reflexivity].
    assert (Ac : authority_set c = true).
    { destruct (authority_set c) eqn:Ec; [reflexivity|].
      destruct (authority_nil r (A eq_refl)) as (U & Bh & P).
      unfold authority_set, reparsed in E.
      cbn [c_userinfo c_host c_port opt_or_empty] in E. rewrite U, Bh, P in E.
      discriminate E. }
    split.
    + destruct (B Ac) as [E0|S]; unfold validate_absolute_path.
      * rewrite E0. reflexivity.
      * rewrite S, andb_false_r. reflexivity.
    + symmetry. apply normalize_path_fixed. rewrite Ac in Hp. destruct Hp as [_ ->].
      apply (quote_dot_free _ _ _ Hpp eq_refl (normalize_path_dot_free _)).
  - apply (quote_idempotent _ _ _ Hpp).
  - apply (quote_opt_idempotent _ _ _ Hq).
  - apply (quote_opt_idempotent _ _ _ Hf).
Qed.

(** ** Host names that encode to themselves *)

Lemma is_void_nullable r : is_void r = true -> nullable r = false.
Proof.
  induction r as [| |p|r1 IH1 r2 IH2|r1 IH1 r2 IH2|r IH]; cbn [is_void nullable];
    try discriminate; intros H; try reflexivity.
  - apply orb_prop in H as [H|H]; [rewrite (IH1 H)|rewrite (IH2 H), andb_false_r];
      reflexivity.
  - apply andb_prop in H as [H1 H2]. rewrite (IH1 H1), (IH2 H2). reflexivity.
Qed.

Lemma is_void_deriv c r : is_void r = true -> is_void (deriv c r) = true.
Proof.
  induction r as [| |p|r1 IH1 r2 IH2|r1 IH1 r2 IH2|r IH]; cbn [is_void deriv];
    try discriminate; intros H; try reflexivity.
  - apply orb_prop in H as [H|H].
    + rewrite (is_void_nullable _ H). cbn [is_void]. rewrite (IH1 H). reflexivity.
    + destruct (nullable r1); cbn [is_void]; rewrite ?(IH2 H), H, ?orb_true_r;
        reflexivity.
  - apply andb_prop in H as [H1 H2]. rewrite (IH1 H1), (IH2 H2). reflexivity.
Qed.

Lemma fullmatch_void s : forall r, is_void r = true -> fullmatch r s = false.
Proof.
  induction s as [|c s IH]; intros r H; cbn [fullmatch].
  - apply (is_void_nullable _ H).
  - apply IH. apply (is_void_deriv _ _ H).
Qed.

Lemma no_final_newline (X : list N -> bool) s :
  forallb (fun c => negb (c =? 10)) s = true ->
  match rev s with 10 :: t => X (rev t) | _ => false end = false.
Proof.
  intros H. destruct (rev s) as [|x l] eqn:E; [reflexivity|].
  assert (I : In x s) by (apply in_rev; rewrite E; left; reflexivity).
  rewrite forallb_forall in H. specialize (H x I).
  apply negb_true_iff, N.eqb_neq in H.
  destruct x as [|p]; [reflexivity|].
  do 4 (destruct p as [p|p|]; try reflexivity). congruence.
Qed.

Lemma match_anchored_void r c s :
  is_void (deriv c r) = true -> forallb (fun c => negb (c =? 10)) (c :: s) = true ->
  match_anchored r (c :: s) = false.
Proof.
  intros V H. unfold match_anchored.
  rewrite (no_final_newline (fullmatch r) _ H), orb_false_r.
  cbn [fullmatch]. apply (fullmatch_void _ _ V).
Qed.

Lemma lower_not_digit c :
  implb (is_lower c) (negb (is_digit c) && negb (91 =? c) && is_hostname_char c) = true.
Proof. char_cases c. Qed.

Lemma hostname_chars h : hostname h = true -> forallb is_hostname_char h = true.
Proof.
  destruct h as [|c t]; [reflexivity|]. cbn [hostname forallb]. intros H.
  apply andb_prop in H as [H1 H2]. rewrite H2, andb_true_r.
  assert (L := implb_true _ _ (lower_not_digit c) H1).
  apply andb_prop in L as [_ L]. exact L.
Qed.

(** A host name in lower case is stored as it is, and parsed again from
    the canonical string as it is. *)
Lemma hostname_round_trips rt h :
  hostname h = true -> encode_host rt (bracketed h) = Ok h /\ host_splits h.
Proof.
  intros H. assert (C := hostname_chars h H).
  assert (E : char_in 58 h = false).
  { apply char_in_forallb. chars C. }
  split; [|split; [chars C|intros _; destruct h as [|c t]; [reflexivity|]]].
  - unfold bracketed. rewrite E. destruct h as [|c t]; [reflexivity|].
    cbn [hostname] in H. apply andb_prop in H as [H _].
    assert (L := implb_true _ _ (lower_not_digit c) H).
    apply andb_prop in L as [L _]. apply andb_prop in L as [L1 L2].
    apply negb_true_iff in L1, L2.
    assert (NL : forallb (fun c => negb (c =? 10)) (c :: t) = true) by (chars C).
    unfold encode_host. cbn [nonempty negb].
    rewrite (match_anchored_void IPv4_STYLE_HOSTNAME c t); [|
      unfold IPv4_STYLE_HOSTNAME, Plus; cbn [deriv nullable andb]; rewrite L1; reflexivity
      |exact NL].
    rewrite (match_anchored_void IPv6_STYLE_HOSTNAME c t); [|
      unfold IPv6_STYLE_HOSTNAME, Chr; cbn [deriv nullable andb]; rewrite L2; reflexivity
      |exact NL].
    assert (A : forallb isascii (c :: t) = true) by (chars C).
    rewrite ascii_forallb, A, (str_lower_ascii rt _ A).
    assert (M : map ascii_lower (c :: t) = c :: t).
    { rewrite <- (map_id (c :: t)) at 2. apply map_ext_in. intros x Hx.
      rewrite forallb_forall in C. specialize (C x Hx). revert C. clear.
      revert x. assert (G : forall x, implb (is_hostname_char x) (x =? ascii_lower x) = true)
        by (intros x; char_cases x).
      intros x C. cbv beta. symmetry. apply N.eqb_eq. apply (implb_true _ _ (G x) C). }
    rewrite M. apply quote_fixed, Forall_forall. intros x Hx.
    rewrite non_escaped_spec. rewrite forallb_forall in C. specialize (C x Hx).
    revert C. clear. revert x.
    assert (G : forall x, implb (is_hostname_char x) (char_in x UNRESERVED_CHARACTERS) = true)
      by (intros x; char_cases x).
    intros x C. rewrite (implb_true _ _ (G x) C). reflexivity.
  - cbn [hostname] in H. apply andb_prop in H as [H _]. cbn [startswith].
    assert (L := implb_true _ _ (lower_not_digit c) H).
    apply andb_prop in L as [L _]. apply andb_prop in L as [_ L2].
    apply negb_true_iff in L2. rewrite N.eqb_sym. exact L2.
Qed.

(** ** Round trip *)

(** C1, as the code has it.  Parsing the canonical string of a result of
    [urlparse], with no keyword argument, returns that result again, all
    seven fields equal, under these conditions: the canonical string is
    not longer than the limit on a URL; with no authority, the path does
    not begin with two slashes; with neither scheme nor authority, the
    path does not begin with a scheme and a colon; the port, when present,
    is not the default port of the stored scheme; the host, between brackets
    when it holds a colon, encodes to itself; and the host holds no [@],
    [/], [?], [#] or control character and begins with a bracket only
    when it holds a colon.  The two conditions on the host hold of every
    host name in lower case, a letter followed by letters, digits, hyphens
    and dots. *)
Theorem C1_round_trip :
  (forall rt url kw r,
     urlparse rt url kw = Ok r -> round_trip_conditions rt r ->
     urlparse rt (to_str r) [] = Ok r) /\
  (forall rt h,
     hostname h = true -> encode_host rt (bracketed h) = Ok h /\ host_splits h).
Proof.
  split; [|exact hostname_round_trips].
  intros rt url kw r H [Hl Hpa Hsc Hpo Hh Hht].
  destruct (result_texts _ _ _ _ H) as (S1 & S2 & U & P & Q & F).
  apply urlparse_ok in H as (c & _ & H).
  assert (Habs : authority r <> [] -> path r = [] \/ startswith 47 (path r) = true).
  { intros N. apply (normalized_path_absolute rt c r H).
    destruct (authority_set c) eqn:E; [reflexivity|].
    destruct (N (authority_set_false rt c r H E)). }
  unfold urlparse, merge_components.
  rewrite Hl, (to_str_plain r S1 U P Q F Hht).
  change (special_keys []) with (Ok (@nil (string * kwval))). cbn [bind validate_kwargs].
  rewrite (merge_groups_to_str r S1 U P Q F Hht Habs Hpa Hsc).
  apply (normalize_components_reparsed rt c r H S2 Hpo Hh).
Qed.

Lemma C1_round_trip_witness :
  to_str (example_com (Some 8443%Z) (lit "/a/b%20c") (Some (lit "x=1")) (Some [])) =
    lit "http://example.com:8443/a/b%20c?x=1#" /\
  urlparse ascii_only
    (to_str (example_com (Some 8443%Z) (lit "/a/b%20c") (Some (lit "x=1")) (Some []))) [] =
  Ok (example_com (Some 8443%Z) (lit "/a/b%20c") (Some (lit "x=1")) (Some [])).
Proof.
  split; [reflexivity|].
  apply (proj1 C1_round_trip ascii_only (lit "HTTP://Example.COM:8443/a/./b c?x=1#") []);
    [vm_compute; reflexivity|].
  constructor.
  - vm_compute. reflexivity.
  - intros _. reflexivity.
  - intros H. vm_compute in H. discriminate H.
  - intros p H. injection H as <-. vm_compute. discriminate.
  - vm_compute. reflexivity.
  - split; [vm_compute; reflexivity|intros _; reflexivity].
Defined.

(** C1 as stated fails.  The result of ["////foo"] has an empty authority
    and the path ["//foo"]; its canonical string is ["//foo"], which parses
    to the host ["foo"] and an empty path.  The host of ["http://a{b/"] is
    stored as ["a%7Bb"], which parses to ["a%7bb"], the host being put in
    lower case before its escapes are looked at.  The host of
    ["http://1 1.1/"] is stored as ["1%201.1"], which is taken for an
    IPv4 address and refused. *)
Lemma C1_counterexample :
  exists r1 r1' r2 r2' r3 e,
    (forall rt, urlparse rt (lit "////foo") [] = Ok r1 /\
                urlparse rt (to_str r1) [] = Ok r1') /\ r1 <> r1' /\
    (forall rt, urlparse rt (lit "http://a{b/") [] = Ok r2 /\
                urlparse rt (to_str r2) [] = Ok r2') /\ r2 <> r2' /\
    (forall rt, urlparse rt (lit "http://1 1.1/") [] = Ok r3 /\
                urlparse rt (to_str r3) [] = Raise e).
Proof.
  exists {| scheme := []; userinfo := []; host := []; port := None; path := lit "//foo";
            query := None; fragment := None |},
         {| scheme := []; userinfo := []; host := lit "foo"; port := None; path := [];
            query := None; fragment := None |},
         {| scheme := lit "http"; userinfo := []; host := lit "a%7Bb"; port := None;
            path := lit "/"; query := None; fragment := None |},
         {| scheme := lit "http"; userinfo := []; host := lit "a%7bb"; port := None;
            path := lit "/"; query := None; fragment := None |},
         {| scheme := lit "http"; userinfo := []; host := lit "1%201.1"; port := None;
            path := lit "/"; query := None; fragment := None |},
         (InvalidURL "Invalid IPv4 address").
  split; [intros rt; split; vm_compute; reflexivity|]. split; [discriminate|].
  split; [intros rt; split; vm_compute; reflexivity|]. split; [discriminate|].
  intros rt; split; vm_compute; reflexivity.
Qed.

(** * Further properties *)

(** ** Dot segments *)

(** X1.  What [normalize_path] returns holds no [.] and no [..] segment,
    and normalising it again changes nothing. *)
Theorem X1_normalize_path_idempotent :
  (forall s, dot_free (normalize_path s) = true) /\
  (forall s, normalize_path (normalize_path s) = normalize_path s).
Proof.
  split; intros s; [apply normalize_path_dot_free|].
  apply normalize_path_fixed, normalize_path_dot_free.
Qed.

(** X2.  [normalize_path] returns its argument exactly when no segment of
    it, between slashes, is [.] or [..]. *)
Theorem X2_normalize_path_fixed_points :
  forall s, normalize_path s = s <-> dot_free s = true.
Proof.
  intros s. split; [|apply normalize_path_fixed].
  intros H. rewrite <- H. apply normalize_path_dot_free.
Qed.

(** ** Percent encoding *)

Lemma utf8_encode_surrogate c :
  utf8_encode c = Raise UnicodeEncodeError <-> is_surrogate c = true.
Proof.
  unfold utf8_encode, is_surrogate.
  destruct (N.ltb_spec c 128); [split; [discriminate|]|].
  { intros E. apply orb_prop in E as [E|E].
    - unfold in_range in E. apply andb_prop in E as [E _]. apply N.leb_le in E. lia.
    - apply N.leb_le in E. lia. }
  destruct (N.ltb_spec c 2048); [split; [discriminate|]|].
  { intros E. apply orb_prop in E as [E|E].
    - unfold in_range in E. apply andb_prop in E as [E _]. apply N.leb_le in E. lia.
    - apply N.leb_le in E. lia. }
  destruct (N.ltb_spec c 65536).
  - destruct (in_range 55296 57343 c); [split; reflexivity|].
    split; [discriminate|]. cbn [orb]. intros E. apply N.leb_le in E. lia.
  - assert (in_range 55296 57343 c = false) as ->.
    { unfold in_range. apply andb_false_iff. right. apply N.leb_gt. lia. }
    cbn [orb]. destruct (N.ltb_spec c 1114112), (N.leb_spec 1114112 c);
      split; try reflexivity; try discriminate; lia.
Qed.

(** X3.  [quote] fails only on a code point that UTF-8 cannot encode, a
    surrogate, and then with [UnicodeEncodeError]; on a text without one
    it returns. *)
Theorem X3_quote_failure :
  (forall s safe e,
     quote s safe = Raise e ->
     e = UnicodeEncodeError /\
     exists c, In c s /\ is_surrogate c = true /\ char_in c safe = false) /\
  (forall s safe,
     forallb (fun c => negb (is_surrogate c)) s = true -> exists o, quote s safe = Ok o).
Proof.
  assert (A : forall s safe e,
     quote s safe = Raise e ->
     e = UnicodeEncodeError /\
     exists c, In c s /\ is_surrogate c = true /\ char_in c safe = false).
  { intros s safe e Q. assert (E := quote_raise _ _ _ Q). subst e.
    split; [reflexivity|]. rewrite quote_unfold in Q.
    apply concat_map_raise in Q as (c & Hc & Q). exists c. split; [exact Hc|].
    destruct (char_in c (non_escaped s safe)) eqn:K; [discriminate|].
    rewrite non_escaped_spec in K. apply orb_false_elim in K as [K _].
    apply orb_false_elim in K as [_ K]. split; [|exact K].
    apply utf8_encode_surrogate. unfold percent_encode, bind in Q.
    destruct (utf8_encode c) as [b|e] eqn:U; [discriminate|].
    rewrite (utf8_encode_raise _ _ U). reflexivity. }
  split; [exact A|]. intros s safe H.
  destruct (quote s safe) as [o|e] eqn:Q; [eauto|exfalso].
  destruct (A _ _ _ Q) as (_ & c & Hc & Hs & _).
  rewrite forallb_forall in H. specialize (H c Hc). rewrite Hs in H. discriminate H.
Qed.

Lemma X3_quote_failure_witness :
  UnicodeEncodeError = UnicodeEncodeError /\
  exists c, In c (lit "a" ++ [56832]) /\ is_surrogate c = true /\
            char_in c (lit "/") = false.
Proof.
  apply (proj1 X3_quote_failure (lit "a" ++ [56832]) (lit "/") UnicodeEncodeError).
  vm_compute. reflexivity.
Defined.

Lemma quote_chars s safe o c :
  quote s safe = Ok o -> In c o ->
  char_in c (UNRESERVED_CHARACTERS ++ safe) = true \/ c = 37.
Proof.
  intros Q Hc. assert (A := quoted_alphabet _ _ _ (quote_quoted _ _ _ Q)).
  rewrite Forall_forall in A. destruct (A c Hc) as [K|[K|K]].
  - rewrite non_escaped_spec in K. rewrite char_in_app.
    destruct (char_in c UNRESERVED_CHARACTERS || char_in c safe); [left; reflexivity|].
    cbn [orb] in K. apply andb_prop in K as [_ K]. apply N.eqb_eq in K. right. exact K.
  - right. exact K.
  - left. rewrite char_in_app, (implb_true _ _ (upper_hex_unreserved c) K). reflexivity.
Qed.

(** X4.  Every character of what [quote] returns is unreserved, in the
    safe set or a percent sign; and unless the percent sign is in the safe
    set, every percent sign of it starts an escape, two hexadecimal digits
    following it. *)
Theorem X4_quote_alphabet : forall s safe o,
  quote s safe = Ok o ->
  (forall c, In c o -> char_in c (UNRESERVED_CHARACTERS ++ safe) = true \/ c = 37) /\
  (char_in 37 safe = false -> escapes_well_formed o).
Proof.
  intros s safe o Q. split.
  - intros c Hc. apply (quote_chars _ _ _ _ Q Hc).
  - intros Hs. apply all_escapes_spec. apply (quote_all_escapes _ _ _ Q Hs).
Qed.

Lemma X4_quote_alphabet_witness :
  (forall c, In c (lit "a%20b%C3%A9/") ->
     char_in c (UNRESERVED_CHARACTERS ++ lit "/") = true \/ c = 37) /\
  (char_in 37 (lit "/") = false -> escapes_well_formed (lit "a%20b%C3%A9/")).
Proof.
  apply (X4_quote_alphabet (lit "a b" ++ [233] ++ lit "/") (lit "/")).
  vm_compute. reflexivity.
Defined.

Lemma escapes_only_length e : escapes_only e -> e <> [] -> (3 <= List.length e)%nat.
Proof. destruct 1; [congruence|intros _; cbn [List.length]; lia]. Qed.

Lemma quoted_length keep s o :
  quoted keep s o ->
  (List.length s <= List.length o)%nat /\
  (List.length o = List.length s -> Forall (fun c => char_in c keep = true) s).
Proof.
  induction 1 as [|c s o Hc _ [IH1 IH2]|c e s o Hc Hne He _ [IH1 IH2]].
  - split; [reflexivity|constructor].
  - cbn [List.length]. split; [lia|]. intros E. constructor; [exact Hc|].
    apply IH2. lia.
  - assert (L := escapes_only_length _ He Hne). rewrite length_app. cbn [List.length].
    split; [lia|]. intros E. lia.
Qed.

(** X5.  [quote] never shortens a text, and returns it unchanged exactly
    when each of its characters is unreserved or safe or, every percent
    sign of the text starting an escape, a percent sign. *)
Theorem X5_quote_fixed_points : forall s safe,
  (forall o, quote s safe = Ok o -> (List.length s <= List.length o)%nat) /\
  (quote s safe = Ok s <->
   forallb (fun c => char_in c (UNRESERVED_CHARACTERS ++ safe)
                     || (all_escapes s && (c =? 37))) s = true).
Proof.
  intros s safe.
  assert (K : forall c, char_in c (non_escaped s safe) =
                        char_in c (UNRESERVED_CHARACTERS ++ safe)
                        || (all_escapes s && (c =? 37))).
  { intros c. rewrite non_escaped_spec, char_in_app. reflexivity. }
  split; [intros o Q; apply (quoted_length _ _ _ (quote_quoted _ _ _ Q))|]. split.
  - intros Q. apply forallb_forall. intros c Hc. rewrite <- K.
    destruct (quoted_length _ _ _ (quote_quoted _ _ _ Q)) as [_ F].
    specialize (F eq_refl). rewrite Forall_forall in F. apply (F c Hc).
  - intros H. apply quote_fixed, Forall_forall. intros c Hc. rewrite K.
    rewrite forallb_forall in H. apply (H c Hc).
Qed.

Lemma unhex_digit d :
  implb (d <? 16) (hex_digit_value (ascii_upper (hex_digit d)) =? d) = true.
Proof. char_cases d. Qed.

Lemma unescape_format bytes :
  Forall (fun b => b < 256) bytes ->
  unescape (map ascii_upper (List.concat (map format_byte bytes))) = bytes.
Proof.
  induction 1 as [|b bytes Hb _ IH]; [reflexivity|].
  cbn [map List.concat format_byte app unescape]. rewrite IH.
  change (ascii_upper 37 =? 37) with true. cbv iota.
  assert (H1 : b / 16 < 16) by div_lia.
  assert (H2 : b mod 16 < 16) by div_lia.
  apply N.ltb_lt in H1, H2.
  assert (E1 := implb_true _ _ (unhex_digit (b / 16)) H1).
  assert (E2 := implb_true _ _ (unhex_digit (b mod 16)) H2).
  apply N.eqb_eq in E1, E2. rewrite E1, E2. f_equal. div_lia.
Qed.

Lemma Ok_inj (A : Type) (x y : A) : Ok x = Ok y -> x = y.
Proof. intros H. injection H as H. exact H. Qed.

Lemma utf8_decode_encode c bytes : utf8_encode c = Ok bytes -> utf8_decode bytes = Some c.
Proof.
  unfold utf8_encode.
  destruct (N.ltb_spec c 128) as [L1|L1].
  { intros H. apply Ok_inj in H. subst bytes. cbn [utf8_decode].
    apply N.ltb_lt in L1. rewrite L1. reflexivity. }
  destruct (N.ltb_spec c 2048) as [L2|L2].
  { intros H. apply Ok_inj in H. subst bytes. cbn [utf8_decode]. unfold in_range.
    assert (B : (192 <=? 192 + c / 64) && (192 + c / 64 <=? 223)
                && ((128 <=? 128 + c mod 64) && (128 + c mod 64 <=? 191)) = true).
    { rewrite !andb_true_iff, !N.leb_le. div_lia. }
    rewrite B. f_equal. div_lia. }
  destruct (N.ltb_spec c 65536) as [L3|L3].
  { destruct (in_range 55296 57343 c); [discriminate|].
    intros H. apply Ok_inj in H. subst bytes. cbn [utf8_decode]. unfold in_range.
    assert (B : (224 <=? 224 + c / 4096) && (224 + c / 4096 <=? 239)
                && ((128 <=? 128 + (c / 64) mod 64) && (128 + (c / 64) mod 64 <=? 191))
                && ((128 <=? 128 + c mod 64) && (128 + c mod 64 <=? 191)) = true).
    { rewrite !andb_true_iff, !N.leb_le. div_lia. }
    rewrite B. f_equal. div_lia. }
  destruct (N.ltb_spec c 1114112) as [L4|L4]; [|discriminate].
  intros H. apply Ok_inj in H. subst bytes. cbn [utf8_decode]. unfold in_range.
  assert (B : (240 <=? 240 + c / 262144) && (240 + c / 262144 <=? 247)
              && ((128 <=? 128 + (c / 4096) mod 64) && (128 + (c / 4096) mod 64 <=? 191))
              && ((128 <=? 128 + (c / 64) mod 64) && (128 + (c / 64) mod 64 <=? 191))
              && ((128 <=? 128 + c mod 64) && (128 + c mod 64 <=? 191)) = true).
  { rewrite !andb_true_iff, !N.leb_le. div_lia. }
  rewrite B. f_equal. div_lia.
Qed.

Lemma percent_encode_decode c e :
  percent_encode c = Ok e -> utf8_decode (unescape e) = Some c.
Proof.
  unfold percent_encode, bind. destruct (utf8_encode c) as [bytes|] eqn:U; [|discriminate].
  intros H. injection H as <-. destruct (utf8_bytes _ _ U) as [_ F].
  rewrite (unescape_format _ F). apply (utf8_decode_encode _ _ U).
Qed.

(** X6.  Nothing is lost in [percent_encode]: what it returns is a run of
    escapes in upper case whose bytes are the UTF-8 encoding of the
    character, so reading the escapes back gives the character again, and
    two characters never have the same encoding. *)
Theorem X6_percent_encode_round_trip :
  (forall c e, percent_encode c = Ok e ->
     escapes_only e /\ utf8_decode (unescape e) = Some c) /\
  (forall c1 c2 e, percent_encode c1 = Ok e -> percent_encode c2 = Ok e -> c1 = c2).
Proof.
  split.
  - intros c e H. split; [apply (percent_encode_escapes _ _ H)|].
    apply (percent_encode_decode _ _ H).
  - intros c1 c2 e H1 H2. apply percent_encode_decode in H1, H2. congruence.
Qed.

Lemma X6_percent_encode_round_trip_witness :
  escapes_only (lit "%E2%82%AC") /\ utf8_decode (unescape (lit "%E2%82%AC")) = Some 8364.
Proof.
  apply (proj1 X6_percent_encode_round_trip 8364 (lit "%E2%82%AC")). reflexivity.
Defined.

Lemma escapes_from_app a b : forall due,
  escapes_from due a = true -> escapes_from 0 b = true -> escapes_from due (a ++ b) = true.
Proof.
  induction a as [|c a IH]; intros due Ha Hb; cbn [app escapes_from] in *.
  - apply Nat.eqb_eq in Ha. subst due. exact Hb.
  - destruct due as [|d].
    + destruct (c =? 37); apply IH; assumption.
    + apply andb_prop in Ha as [H1 H2]. rewrite H1. apply IH; assumption.
Qed.

Lemma all_escapes_app a b :
  all_escapes a = true -> all_escapes b = true -> all_escapes (a ++ b) = true.
Proof. rewrite !all_escapes_from. apply escapes_from_app. Qed.

Lemma concat_map_ext (f g : N -> result (list N)) s :
  (forall c, f c = g c) -> concat_map f s = concat_map g s.
Proof.
  intros H. induction s as [|c s IH]; [reflexivity|]. cbn [concat_map].
  rewrite H, IH. reflexivity.
Qed.

Lemma concat_map_app (f : N -> result (list N)) a b :
  concat_map f (a ++ b) = (x <- concat_map f a ;; y <- concat_map f b ;; Ok (x ++ y)).
Proof.
  induction a as [|c a IH]; cbn [app concat_map].
  - destruct (concat_map f b); reflexivity.
  - rewrite IH. destruct (f c) as [u|]; [|reflexivity]. cbn [bind].
    destruct (concat_map f a) as [x|]; [|reflexivity]. cbn [bind].
    destruct (concat_map f b) as [y|]; [|reflexivity]. cbn [bind].
    rewrite app_assoc. reflexivity.
Qed.

Lemma quote_app a b safe :
  all_escapes a = true -> all_escapes b = true ->
  quote (a ++ b) safe = (x <- quote a safe ;; y <- quote b safe ;; Ok (x ++ y)).
Proof.
  intros Ha Hb. assert (Hab := all_escapes_app _ _ Ha Hb).
  rewrite !quote_unfold, concat_map_app.
  rewrite (concat_map_ext _
             (fun c => if char_in c (non_escaped a safe) then Ok [c] else percent_encode c) a).
  2:{ intros c. rewrite !non_escaped_spec, Ha, Hab. reflexivity. }
  rewrite (concat_map_ext _
             (fun c => if char_in c (non_escaped b safe) then Ok [c] else percent_encode c) b).
  2:{ intros c. rewrite !non_escaped_spec, Hb, Hab. reflexivity. }
  reflexivity.
Qed.

(** X7.  [quote] goes through a concatenation when the percent signs of
    both texts all start escapes (or there is none): the parts can be
    encoded one by one.  Without that it does not: a percent sign alone in
    one part has the escapes of the other part encoded again. *)
Theorem X7_quote_concatenation :
  (forall a b safe,
     escapes_well_formed a -> escapes_well_formed b ->
     quote (a ++ b) safe = (x <- quote a safe ;; y <- quote b safe ;; Ok (x ++ y))) /\
  quote (lit "%41" ++ lit "%") (lit "/") <>
    (x <- quote (lit "%41") (lit "/") ;; y <- quote (lit "%") (lit "/") ;; Ok (x ++ y)).
Proof.
  split; [|vm_compute; discriminate].
  intros a b safe Ha Hb. apply all_escapes_spec in Ha, Hb. apply (quote_app _ _ _ Ha Hb).
Qed.

Lemma X7_quote_concatenation_witness :
  quote (lit "a b%20" ++ lit "c/d") (lit "/") =
  (x <- quote (lit "a b%20") (lit "/") ;; y <- quote (lit "c/d") (lit "/") ;; Ok (x ++ y)).
Proof.
  apply (proj1 X7_quote_concatenation); apply all_escapes_spec; reflexivity.
Defined.

(** ** Patterns and their languages *)

Lemma matches_cat_inv r1 r2 s :
  matches (Cat r1 r2) s -> exists a b, s = a ++ b /\ matches r1 a /\ matches r2 b.
Proof. inversion 1; subst; eauto. Qed.

Lemma matches_alt_inv r1 r2 s : matches (Alt r1 r2) s -> matches r1 s \/ matches r2 s.
Proof. inversion 1; subst; auto. Qed.

Lemma matches_cls_inv p s : matches (Cls p) s -> exists c, s = [c] /\ p c = true.
Proof. inversion 1; subst; eauto. Qed.

Lemma matches_eps_inv s : matches Eps s -> s = [].
Proof. inversion 1; reflexivity. Qed.

Lemma matches_void_inv s : ~ matches Void s.
Proof. inversion 1. Qed.

Lemma nullable_matches r : nullable r = true <-> matches r [].
Proof.
  induction r as [| |p|r1 IH1 r2 IH2|r1 IH1 r2 IH2|r IH]; cbn [nullable]; split; intros H.
  - discriminate H.
  - destruct (matches_void_inv _ H).
  - constructor.
  - reflexivity.
  - discriminate H.
  - apply matches_cls_inv in H as (c & E & _). discriminate E.
  - apply andb_prop in H as [H1 H2].
    apply (matches_cat r1 r2 [] []); [apply IH1|apply IH2]; assumption.
  - apply matches_cat_inv in H as (a & b & E & Ha & Hb). symmetry in E.
    apply app_eq_nil in E as [-> ->]. rewrite (proj2 IH1 Ha), (proj2 IH2 Hb). reflexivity.
  - apply orb_prop in H as [H|H]; [apply matches_alt_l, IH1|apply matches_alt_r, IH2];
      exact H.
  - apply matches_alt_inv in H as [H|H];
      [rewrite (proj2 IH1 H)|rewrite (proj2 IH2 H), orb_true_r]; reflexivity.
  - constructor.
  - reflexivity.
Qed.

Lemma deriv_sound c r : forall s, matches (deriv c r) s -> matches r (c :: s).
Proof.
  induction r as [| |p|r1 IH1 r2 IH2|r1 IH1 r2 IH2|r IH]; cbn [deriv]; intros s H.
  - destruct (matches_void_inv _ H).
  - destruct (matches_void_inv _ H).
  - destruct (p c) eqn:E; [|destruct (matches_void_inv _ H)].
    apply matches_eps_inv in H. subst s. constructor. exact E.
  - assert (L : forall s, matches (Cat (deriv c r1) r2) s -> matches (Cat r1 r2) (c :: s)).
    { intros x Hx. apply matches_cat_inv in Hx as (a & b & -> & Ha & Hb).
      apply (matches_cat r1 r2 (c :: a) b); [apply IH1; exact Ha|exact Hb]. }
    destruct (nullable r1) eqn:N; [|apply L; exact H].
    apply matches_alt_inv in H as [H|H]; [apply L; exact H|].
    apply (matches_cat r1 r2 [] (c :: s)); [apply nullable_matches; exact N|].
    apply IH2. exact H.
  - apply matches_alt_inv in H as [H|H];
      [apply matches_alt_l, IH1|apply matches_alt_r, IH2]; exact H.
  - apply matches_cat_inv in H as (a & b & -> & Ha & Hb).
    apply (matches_star_cons r (c :: a) b); [discriminate|apply IH; exact Ha|exact Hb].
Qed.

Lemma deriv_complete r x :
  matches r x -> forall c s, x = c :: s -> matches (deriv c r) s.
Proof.
  induction 1 as [|p c0 Hp|r1 r2 a b Ha IHa Hb IHb|r1 r2 x Hx IH|r1 r2 x Hx IH
                  |r|r a b Hne Ha IHa Hb IHb]; intros c s E; cbn [deriv].
  - discriminate E.
  - injection E as -> <-. rewrite Hp. constructor.
  - destruct a as [|c' a'].
    + cbn [app] in E. subst b. rewrite (proj2 (nullable_matches r1) Ha).
      apply matches_alt_r. apply (IHb _ _ eq_refl).
    + cbn [app] in E. injection E as -> <-.
      assert (M : matches (Cat (deriv c r1) r2) (a' ++ b)).
      { constructor; [apply (IHa _ _ eq_refl)|exact Hb]. }
      destruct (nullable r1); [apply matches_alt_l|]; exact M.
  - apply matches_alt_l. apply (IH _ _ E).
  - apply matches_alt_r. apply (IH _ _ E).
  - discriminate E.
  - destruct a as [|c' a']; [congruence|]. cbn [app] in E. injection E as -> <-.
    constructor; [apply (IHa _ _ eq_refl)|exact Hb].
Qed.

(** [fullmatch] decides the language of a pattern. *)
Lemma fullmatch_matches s : forall r, fullmatch r s = true <-> matches r s.
Proof.
  induction s as [|c s IH]; intros r; cbn [fullmatch].
  - apply nullable_matches.
  - rewrite IH. split; [apply deriv_sound|]. intros H. apply (deriv_complete _ _ H _ _ eq_refl).
Qed.

Lemma fullmatch_Cat_app r1 r2 a b :
  fullmatch r1 a = true -> fullmatch r2 b = true -> fullmatch (Cat r1 r2) (a ++ b) = true.
Proof.
  rewrite !fullmatch_matches. intros Ha Hb. constructor; assumption.
Qed.

Lemma fullmatch_Cat_inv r1 r2 s :
  fullmatch (Cat r1 r2) s = true ->
  exists a b, s = a ++ b /\ fullmatch r1 a = true /\ fullmatch r2 b = true.
Proof.
  rewrite fullmatch_matches. intros H. apply matches_cat_inv in H as (a & b & E & Ha & Hb).
  exists a, b. rewrite !fullmatch_matches. auto.
Qed.

Lemma fullmatch_Cls p s : fullmatch (Cls p) s = true <-> exists c, s = [c] /\ p c = true.
Proof.
  rewrite fullmatch_matches. split; [apply matches_cls_inv|].
  intros (c & -> & H). constructor. exact H.
Qed.

Lemma fullmatch_Plus_Cls p s :
  fullmatch (Plus (Cls p)) s = nonempty s && forallb p s.
Proof.
  destruct s as [|c s]; [reflexivity|]. unfold Plus. cbn [fullmatch deriv nullable nonempty forallb].
  destruct (p c); [rewrite fullmatch_Cat_Eps; apply fullmatch_Star_Cls|].
  apply fullmatch_Cat_Void.
Qed.

(** The shape of what [IPv6_STYLE_HOSTNAME] matches in full. *)
Lemma fullmatch_IPv6_STYLE s :
  fullmatch IPv6_STYLE_HOSTNAME s = true <->
  exists m, s = 91 :: m ++ [93] /\ forallb (fun c => negb (c =? 10)) m = true.
Proof.
  unfold IPv6_STYLE_HOSTNAME, Chr, Dot. split.
  - intros H. apply fullmatch_Cat_inv in H as (a & b & -> & Ha & Hb).
    apply fullmatch_Cls in Ha as (c & -> & Hc). apply N.eqb_eq in Hc. subst c.
    apply fullmatch_Cat_inv in Hb as (m & x & -> & Hm & Hx).
    apply fullmatch_Cls in Hx as (c & -> & Hc). apply N.eqb_eq in Hc. subst c.
    rewrite fullmatch_Star_Cls in Hm. exists m. split; [reflexivity|exact Hm].
  - intros (m & -> & Hm). apply (fullmatch_Cat_app _ _ [91]); [reflexivity|].
    apply fullmatch_Cat_app; [rewrite fullmatch_Star_Cls; exact Hm|reflexivity].
Qed.

(** A text without line feed: the end anchor holds at its end only. *)
Lemma match_anchored_plain r s :
  forallb (fun c => negb (c =? 10)) s = true -> match_anchored r s = fullmatch r s.
Proof.
  intros H. unfold match_anchored. rewrite (no_final_newline (fullmatch r) _ H).
  apply orb_false_r.
Qed.

(** A pattern that cannot begin with the first character of a text. *)
Lemma match_anchored_head r c s :
  is_void (deriv c r) = true -> nullable r = false -> match_anchored r (c :: s) = false.
Proof.
  intros V N. unfold match_anchored.
  assert (F : forall t, fullmatch r (c :: t) = false).
  { intros t. cbn [fullmatch]. apply (fullmatch_void _ _ V). }
  rewrite F. cbn [orb]. destruct (rev (c :: s)) as [|x l] eqn:E; [reflexivity|].
  assert (R : c :: s = rev l ++ [x]).
  { rewrite <- (rev_involutive (c :: s)), E. reflexivity. }
  destruct (rev l) as [|y t]; [|cbn [app] in R; injection R as <- _].
  - destruct x as [|q]; [reflexivity|].
    do 4 (destruct q as [q|q|]; try reflexivity). exact N.
  - destruct x as [|q]; [reflexivity|].
    do 4 (destruct q as [q|q|]; try reflexivity). apply F.
Qed.

Lemma class_stable_deriv f r c : class_stable f r -> deriv (f c) r = deriv c r.
Proof.
  induction r as [| |p|r1 IH1 r2 IH2|r1 IH1 r2 IH2|r IH]; cbn [class_stable deriv];
    intros H; try reflexivity.
  - rewrite H. reflexivity.
  - destruct H as [H1 H2]. rewrite (IH1 H1), (IH2 H2). reflexivity.
  - destruct H as [H1 H2]. rewrite (IH1 H1), (IH2 H2). reflexivity.
  - rewrite (IH H). reflexivity.
Qed.

Lemma class_stable_keeps f r c : class_stable f r -> class_stable f (deriv c r).
Proof.
  induction r as [| |p|r1 IH1 r2 IH2|r1 IH1 r2 IH2|r IH]; cbn [class_stable deriv];
    intros H; try exact I.
  - destruct (p c); exact I.
  - destruct H as [H1 H2]. destruct (nullable r1); cbn [class_stable]; auto.
  - destruct H as [H1 H2]. auto.
  - cbn [class_stable]. auto.
Qed.

Lemma fullmatch_map f s : forall r,
  class_stable f r -> fullmatch r (map f s) = fullmatch r s.
Proof.
  induction s as [|c s IH]; intros r H; [reflexivity|]. cbn [map fullmatch].
  rewrite (class_stable_deriv _ _ _ H). apply IH. apply (class_stable_keeps _ _ _ H).
Qed.

(** ** Hosts *)

Lemma anchored_unfold r s :
  match_anchored r s =
  fullmatch r s ||
  match rev s with
  | x :: t => (x =? 10) && fullmatch r (rev t)
  | [] => false
  end.
Proof.
  unfold match_anchored. destruct (rev s) as [|x l]; [reflexivity|].
  destruct x as [|q]; [reflexivity|].
  do 4 (destruct q as [q|q|]; try reflexivity).
Qed.

Lemma match_anchored_map f r s :
  class_stable f r -> (forall c, (f c =? 10) = (c =? 10)) ->
  match_anchored r (map f s) = match_anchored r s.
Proof.
  intros H N. rewrite !anchored_unfold, (fullmatch_map _ _ _ H).
  assert (R : forall l, rev (map f l) = map f (rev l)).
  { intros l. induction l as [|a l IH]; [reflexivity|].
    cbn [map rev]. rewrite IH, map_app. reflexivity. }
  rewrite R. destruct (rev s) as [|x l]; [reflexivity|]. cbn [map].
  rewrite N, R, (fullmatch_map _ _ _ H). reflexivity.
Qed.

Lemma encode_host_bracketed rt h :
  char_in 10 h = false ->
  encode_host rt (91 :: h ++ [93]) =
  if IPv6Address_ok h then Ok h else Raise (InvalidURL "Invalid IPv6 address").
Proof.
  intros H. apply char_in_forallb in H. unfold encode_host. cbn [nonempty negb tl].
  rewrite (match_anchored_head IPv4_STYLE_HOSTNAME 91 _ eq_refl eq_refl).
  assert (N : forallb (fun c => negb (c =? 10)) (91 :: h ++ [93]) = true).
  { cbn [forallb]. rewrite forallb_app, H. reflexivity. }
  rewrite (match_anchored_plain _ _ N).
  rewrite (proj2 (fullmatch_IPv6_STYLE (91 :: h ++ [93]))) by (exists h; auto).
  rewrite removelast_last. reflexivity.
Qed.

(** X8.  A host between brackets, holding no line feed, is an IPv6
    address or nothing: [encode_host] returns the text between the
    brackets, as it stands, when [ipaddress.IPv6Address] accepts it, and
    otherwise fails with [InvalidURL]. *)
Theorem X8_encode_host_ipv6 : forall rt h,
  char_in 10 h = false ->
  (IPv6Address_ok h = true -> encode_host rt (91 :: h ++ [93]) = Ok h) /\
  (IPv6Address_ok h = false ->
   encode_host rt (91 :: h ++ [93]) = Raise (InvalidURL "Invalid IPv6 address")).
Proof.
  intros rt h H. rewrite (encode_host_bracketed rt h H).
  split; intros ->; reflexivity.
Qed.

Lemma X8_encode_host_ipv6_witness :
  encode_host ascii_only (91 :: lit "::ffff:1.2.3.4" ++ [93]) = Ok (lit "::ffff:1.2.3.4") /\
  encode_host ascii_only (91 :: lit "::ffff:1.2.3" ++ [93]) =
    Raise (InvalidURL "Invalid IPv6 address").
Proof.
  split.
  - apply (proj1 (X8_encode_host_ipv6 ascii_only (lit "::ffff:1.2.3.4") eq_refl)).
    reflexivity.
  - apply (proj2 (X8_encode_host_ipv6 ascii_only (lit "::ffff:1.2.3") eq_refl)).
    reflexivity.
Defined.

Lemma mapM_length (A B : Type) (f : A -> option B) l r :
  mapM f l = Some r -> List.length r = List.length l.
Proof.
  revert r. induction l as [|a l IH]; intros r H; cbn [mapM] in H.
  - injection H as <-. reflexivity.
  - destruct (f a); [|discriminate]. destruct (mapM f l) as [r'|]; [|discriminate].
    injection H as <-. cbn [List.length]. rewrite (IH _ eq_refl). reflexivity.
Qed.

Lemma octet_run o n :
  parse_octet o = Some n -> fullmatch (Plus (Cls is_digit)) o = true.
Proof.
  intros H. rewrite fullmatch_Plus_Cls, (parse_octet_digits _ _ H).
  unfold parse_octet in H. destruct (nonempty o); [reflexivity|discriminate H].
Qed.

Lemma IPv4Address_style h n :
  IPv4Address h = Some n -> fullmatch IPv4_STYLE_HOSTNAME h = true.
Proof.
  intros H. assert (J := join_split 46 h). unfold IPv4Address in H.
  destruct (char_in 47 h); [discriminate|].
  destruct (nonempty h); [|discriminate]. cbn [negb] in H.
  destruct (Nat.eqb_spec (List.length (split 46 h)) 4) as [L|]; [|discriminate].
  cbn [negb] in H.
  destruct (mapM parse_octet (split 46 h)) as [bytes|] eqn:M; [|discriminate].
  destruct (split 46 h) as [|o1 [|o2 [|o3 [|o4 [|o5 l]]]]]; try discriminate L.
  assert (O : forall o, In o [o1; o2; o3; o4] -> fullmatch (Plus (Cls is_digit)) o = true).
  { intros o Ho. destruct (mapM_some _ _ _ _ _ o M Ho) as [y Hy]. apply (octet_run _ _ Hy). }
  cbn [join] in J. rewrite <- J. unfold IPv4_STYLE_HOSTNAME.
  repeat (apply fullmatch_Cat_app; [apply O; cbn; auto|];
          apply (fullmatch_Cat_app _ _ [46]); [reflexivity|]).
  apply O. cbn. auto.
Qed.

(** X9.  A host that [ipaddress.IPv4Address] accepts, four decimal
    numbers up to 255 between dots, is stored as it stands. *)
Theorem X9_encode_host_ipv4 : forall rt h n,
  IPv4Address h = Some n -> encode_host rt h = Ok h.
Proof.
  intros rt h n H. unfold encode_host.
  assert (N : nonempty h = true).
  { unfold IPv4Address in H. destruct (char_in 47 h); [discriminate|].
    destruct (nonempty h); [reflexivity|discriminate]. }
  rewrite N. cbn [negb]. unfold match_anchored.
  rewrite (IPv4Address_style _ _ H), H. reflexivity.
Qed.

Lemma X9_encode_host_ipv4_witness :
  encode_host ascii_only (lit "192.168.0.1") = Ok (lit "192.168.0.1").
Proof.
  apply (X9_encode_host_ipv4 ascii_only (lit "192.168.0.1") 3232235521). reflexivity.
Defined.

Lemma printable_plain c :
  implb (isprintable_ascii c) (isascii c && negb (c =? 10) && (c <=? 127)) = true.
Proof. char_cases c. Qed.

Lemma host_alphabet_no_colon c :
  implb (char_in c (UNRESERVED_CHARACTERS ++ SUB_DELIMS) || (c =? 37)) (negb (c =? 58)) = true.
Proof. char_cases c. Qed.

(** X10.  A colon in a stored host marks an IPv6 address: when
    [encode_host], given a host of printable ASCII characters, returns a
    text that holds a colon, the host was that text between brackets and
    [ipaddress.IPv6Address] accepts the text. *)
Theorem X10_host_colon_ipv6 : forall rt h h',
  encode_host rt h = Ok h' -> forallb isprintable_ascii h = true -> char_in 58 h' = true ->
  h = 91 :: h' ++ [93] /\ IPv6Address_ok h' = true.
Proof.
  intros rt h h' E P C.
  assert (A : forallb (fun c => c <=? 127) h = true) by (chars P).
  assert (N : forallb (fun c => negb (c =? 10)) h = true) by (chars P).
  unfold encode_host in E. rewrite A in E.
  destruct (nonempty h); cbn [negb] in E.
  2:{ injection E as <-. discriminate C. }
  destruct (match_anchored IPv4_STYLE_HOSTNAME h).
  { destruct (IPv4Address h) as [n|] eqn:V; [|discriminate]. injection E as <-.
    exfalso. unfold char_in in C. apply existsb_exists in C as (c & Hc & Hx).
    apply N.eqb_eq in Hx. subst c.
    destruct (IPv4Address_chars _ _ _ V Hc) as [D|D]; discriminate D. }
  rewrite (match_anchored_plain _ _ N) in E.
  destruct (fullmatch IPv6_STYLE_HOSTNAME h) eqn:V.
  { apply fullmatch_IPv6_STYLE in V as (m & -> & _). cbn [tl] in E.
    rewrite removelast_last in E. destruct (IPv6Address_ok m) eqn:K; [|discriminate].
    injection E as <-. auto. }
  exfalso. unfold char_in in C. apply existsb_exists in C as (c & Hc & Hx).
  apply N.eqb_eq in Hx. subst c.
  destruct (quote_chars _ _ _ _ E Hc) as [F|F]; [|discriminate F].
  assert (G := host_alphabet_no_colon 58). rewrite F in G. discriminate G.
Qed.

Lemma X10_host_colon_ipv6_witness :
  lit "[::1]" = 91 :: lit "::1" ++ [93] /\ IPv6Address_ok (lit "::1") = true.
Proof.
  apply (X10_host_colon_ipv6 ascii_only (lit "[::1]") (lit "::1")); reflexivity.
Defined.

Lemma lower_stable_ipv4 : class_stable ascii_lower IPv4_STYLE_HOSTNAME.
Proof.
  unfold IPv4_STYLE_HOSTNAME, Plus, Dot. cbn [class_stable].
  repeat split; intros c; char_cases c.
Qed.

Lemma lower_newline c : (ascii_lower c =? 10) = (c =? 10).
Proof. char_cases c. Qed.

Lemma lower_idempotent c : ascii_lower (ascii_lower c) = ascii_lower c.
Proof. char_cases c. Qed.

Lemma lower_bracket c : implb (negb (c =? 91)) (negb (ascii_lower c =? 91)) = true.
Proof. char_cases c. Qed.

Lemma letter_no_octet c :
  implb (is_alpha c) (negb (is_digit c) && negb (c =? 46)) = true.
Proof. char_cases c. Qed.

Lemma upper_alpha c : implb (is_upper c) (is_alpha c) = true.
Proof. char_cases c. Qed.

Lemma forallb_false_ex (p : N -> bool) s :
  forallb p s = false -> exists c, In c s /\ p c = false.
Proof.
  induction s as [|x s IH]; [discriminate|]. cbn [forallb]. intros H.
  destruct (p x) eqn:E.
  - destruct (IH H) as (c & Hc & Hp). exists c. split; [right; exact Hc|exact Hp].
  - exists x. split; [left; reflexivity|exact E].
Qed.

Lemma IPv4Address_letter h c : In c h -> is_alpha c = true -> IPv4Address h = None.
Proof.
  intros Hc A. destruct (IPv4Address h) as [n|] eqn:V; [exfalso|reflexivity].
  assert (L := implb_true _ _ (letter_no_octet c) A).
  apply andb_prop in L as [L1 L2]. apply negb_true_iff in L1, L2.
  destruct (IPv4Address_chars _ _ _ V Hc) as [D|D]; [congruence|].
  subst c. discriminate L2.
Qed.

Lemma ipv6_head c : (c =? 91) = false -> is_void (deriv c IPv6_STYLE_HOSTNAME) = true.
Proof.
  intros H. unfold IPv6_STYLE_HOSTNAME, Chr. cbn [deriv nullable andb].
  rewrite N.eqb_sym, H. reflexivity.
Qed.

(** X11.  The case of the letters of a host does not count: for an ASCII
    host that does not begin with a bracket, [encode_host] returns, or
    raises, for the host what it does for the host in lower case. *)
Theorem X11_encode_host_case : forall rt h,
  forallb isascii h = true -> startswith 91 h = false ->
  encode_host rt (str_lower rt h) = encode_host rt h.
Proof.
  intros rt h A B. rewrite (str_lower_ascii rt _ A).
  destruct h as [|c t]; [reflexivity|]. cbn [startswith] in B.
  assert (Al := map_lower_ascii _ A).
  unfold encode_host. change (nonempty (map ascii_lower (c :: t))) with true.
  cbn [nonempty negb].
  rewrite (match_anchored_map ascii_lower _ (c :: t) lower_stable_ipv4 lower_newline).
  destruct (match_anchored IPv4_STYLE_HOSTNAME (c :: t)).
  { destruct (forallb (fun x => negb (is_upper x)) (c :: t)) eqn:U.
    - assert (E : map ascii_lower (c :: t) = c :: t).
      { rewrite <- (map_id (c :: t)) at 2. apply map_ext_in. intros x Hx.
        rewrite forallb_forall in U. specialize (U x Hx). apply negb_true_iff in U.
        unfold ascii_lower. rewrite U. reflexivity. }
      rewrite E. reflexivity.
    - apply forallb_false_ex in U as (x & Hx & U). apply negb_false_iff in U.
      assert (Ax := implb_true _ _ (upper_alpha x) U).
      rewrite (IPv4Address_letter (c :: t) x Hx Ax).
      rewrite (IPv4Address_letter (map ascii_lower (c :: t)) (ascii_lower x));
        [reflexivity|apply in_map; exact Hx|].
      apply (implb_true _ _ (alpha_lower x) Ax). }
  rewrite (match_anchored_head IPv6_STYLE_HOSTNAME c t (ipv6_head c B) eq_refl).
  assert (B' : (ascii_lower c =? 91) = false).
  { apply negb_true_iff. apply (implb_true _ _ (lower_bracket c)). rewrite B. reflexivity. }
  cbn [map].
  rewrite (match_anchored_head IPv6_STYLE_HOSTNAME _ _ (ipv6_head _ B') eq_refl).
  change (ascii_lower c :: map ascii_lower t) with (map ascii_lower (c :: t)).
  rewrite !ascii_forallb, A, Al, (str_lower_ascii rt _ A), (str_lower_ascii rt _ Al).
  rewrite map_map, (map_ext _ _ lower_idempotent). reflexivity.
Qed.

Lemma X11_encode_host_case_witness :
  encode_host ascii_only (str_lower ascii_only (lit "Example.COM")) =
  encode_host ascii_only (lit "Example.COM").
Proof. apply (X11_encode_host_case ascii_only (lit "Example.COM")); reflexivity. Defined.

(** ** The groups of a URL *)

Lemma scheme_stage url :
  exists sc s1,
    match match_scheme url with
    | Some (x, rest) => (Some x, rest)
    | None => (None, url)
    end = (sc, s1) /\
    url = match sc with Some s => s ++ [58] | None => [] end ++ s1 /\
    match sc with Some s => scheme_shape s = true /\ s <> [] | None => True end.
Proof.
  destruct (match_scheme url) as [[x rest]|] eqn:E.
  - exists (Some x), rest. split; [reflexivity|]. split.
    + rewrite <- app_assoc. apply (match_scheme_app _ _ _ E).
    + split; [apply (match_scheme_shape _ _ _ E)|].
      unfold match_scheme in E. destruct url as [|c t]; [discriminate|].
      destruct (is_alpha c); [|discriminate]. destruct (span is_scheme_char t) as [a b].
      destruct b as [|y b]; [discriminate|]. intros ->.
      destruct y as [|y]; [discriminate|].
      do 6 (destruct y as [y|y|]; try discriminate).
  - exists None, url. auto.
Qed.

Lemma authority_stage s1 :
  exists au s2,
    match match_authority s1 with
    | Some (x, rest) => (Some x, rest)
    | None => (None, s1)
    end = (au, s2) /\
    s1 = match au with Some a => 47 :: 47 :: a | None => [] end ++ s2 /\
    opt_forallb (fun c => negb (char_in c (lit "/?#"))) au = true.
Proof.
  destruct (match_authority s1) as [[x rest]|] eqn:E.
  - exists (Some x), rest. split; [reflexivity|]. split.
    + apply (match_authority_app _ _ _ E).
    + cbn [opt_forallb]. unfold match_authority in E.
      assert (exists t, span (fun c => negb (char_in c (lit "/?#"))) t = (x, rest))
        as (t & S).
      { destruct s1 as [|a [|b t]]; try discriminate;
          [destruct a as [|a]; [discriminate|];
           do 6 (destruct a as [a|a|]; try discriminate)|].
        destruct a as [|a]; [discriminate|].
        do 6 (destruct a as [a|a|]; try discriminate).
        destruct b as [|b]; [discriminate|].
        do 6 (destruct b as [b|b|]; try discriminate).
        exists t. congruence. }
      assert (F := span_forallb (fun c => negb (char_in c (lit "/?#"))) t).
      rewrite S in F. exact F.
  - exists None, s1. auto.
Qed.

Lemma span_stage p s :
  exists a b, span p s = (a, b) /\ s = a ++ b /\ forallb p a = true /\
              match b with [] => true | c :: _ => negb (p c) end = true.
Proof.
  assert (A := span_app p s). assert (F := span_forallb p s).
  assert (R := span_rest_head p s). destruct (span p s) as [a b]. exists a, b. auto.
Qed.

Lemma query_stage s3 :
  path_end s3 = true ->
  exists q s4,
    match match_query s3 with
    | Some (x, rest) => (Some x, rest)
    | None => (None, s3)
    end = (q, s4) /\
    s3 = query_part q ++ s4 /\
    opt_forallb (fun c => negb (c =? 35)) q = true /\
    match s4 with [] => true | c :: _ => c =? 35 end = true.
Proof.
  destruct s3 as [|c t]; [exists None, []; auto|]. cbn [path_end]. intros H.
  apply orb_prop in H as [H|H]; apply N.eqb_eq in H; subst c.
  - cbn [match_query].
    destruct (span_stage (fun c => negb (c =? 35)) t) as (a & b & S & -> & F & R).
    rewrite S. exists (Some a), b. split; [reflexivity|]. split; [reflexivity|].
    split; [exact F|]. destruct b as [|y b]; [reflexivity|].
    apply negb_true_iff, negb_false_iff in R. exact R.
  - exists None, (35 :: t). auto.
Qed.

Lemma fragment_stage s4 :
  match s4 with [] => true | c :: _ => c =? 35 end = true ->
  forallb (fun c => negb (c =? 10)) s4 = true ->
  s4 = fragment_part match match_fragment s4 with
                     | Some (x, _) => Some x
                     | None => None
                     end.
Proof.
  destruct s4 as [|c t]; [reflexivity|]. intros H N. apply N.eqb_eq in H. subst c.
  cbn [match_fragment forallb] in *. rewrite (span_all _ _ N). reflexivity.
Qed.

Lemma url_groups_stages url :
  forallb (fun c => negb (c =? 10)) url = true ->
  url_of_groups (URL_REGEX_match url) = url /\
  match g_scheme (URL_REGEX_match url) with
  | Some s => scheme_shape s = true /\ s <> []
  | None => True
  end /\
  opt_forallb (fun c => negb (char_in c (lit "/?#"))) (g_authority (URL_REGEX_match url))
  = true /\
  forallb (fun c => negb (char_in c (lit "?#"))) (g_path (URL_REGEX_match url)) = true /\
  opt_forallb (fun c => negb (c =? 35)) (g_query (URL_REGEX_match url)) = true.
Proof.
  intros Hn.
  destruct (scheme_stage url) as (sc & s1 & E1 & U1 & P1).
  destruct (authority_stage s1) as (au & s2 & E2 & U2 & P2).
  destruct (span_stage (fun c => negb (char_in c (lit "?#"))) s2)
    as (p & s3 & E3 & U3 & P3 & R3).
  assert (Pe : path_end s3 = true).
  { destruct s3 as [|c t]; [reflexivity|]. cbn [path_end].
    apply negb_true_iff, negb_false_iff in R3. cbn in R3.
    rewrite orb_false_r in R3. exact R3. }
  destruct (query_stage s3 Pe) as (q & s4 & E4 & U4 & P4 & R4).
  assert (N4 : forallb (fun c => negb (c =? 10)) s4 = true).
  { rewrite U1, U2, U3, U4, !forallb_app in Hn.
    repeat (apply andb_prop in Hn as [_ Hn]). exact Hn. }
  assert (U5 := fragment_stage s4 R4 N4).
  rewrite (URL_REGEX_match_stages url sc s1 au s2 p s3 q s4 _ E1 E2 E3 E4 eq_refl).
  cbn [g_scheme g_authority g_path g_query g_fragment]. unfold url_of_groups.
  cbn [g_scheme g_authority g_path g_query g_fragment].
  split; [|auto]. rewrite <- U5, <- U4, <- U3, <- U2, <- U1. reflexivity.
Qed.

(** X12.  Nothing of a URL without line feed is lost when [URL_REGEX]
    cuts it up: the groups that took part, each behind its delimiter,
    make up the URL again.  And each group stops where the next begins: a
    scheme has the shape of one, an authority holds no [/], [?] or [#], a
    path no [?] or [#], a query no [#]. *)
Theorem X12_url_groups_lossless : forall url,
  char_in 10 url = false ->
  url_of_groups (URL_REGEX_match url) = url /\
  match g_scheme (URL_REGEX_match url) with
  | Some s => scheme_shape s = true /\ s <> []
  | None => True
  end /\
  opt_forallb (fun c => negb (char_in c (lit "/?#"))) (g_authority (URL_REGEX_match url))
  = true /\
  forallb (fun c => negb (char_in c (lit "?#"))) (g_path (URL_REGEX_match url)) = true /\
  opt_forallb (fun c => negb (c =? 35)) (g_query (URL_REGEX_match url)) = true.
Proof.
  intros url Hn. apply char_in_forallb in Hn. apply (url_groups_stages url Hn).
Qed.

Lemma X12_url_groups_lossless_witness :
  url_of_groups (URL_REGEX_match (lit "//?#")) = lit "//?#" /\
  match g_scheme (URL_REGEX_match (lit "//?#")) with
  | Some s => scheme_shape s = true /\ s <> []
  | None => True
  end /\
  opt_forallb (fun c => negb (char_in c (lit "/?#"))) (g_authority (URL_REGEX_match (lit "//?#")))
  = true /\
  forallb (fun c => negb (char_in c (lit "?#"))) (g_path (URL_REGEX_match (lit "//?#"))) = true /\
  opt_forallb (fun c => negb (c =? 35)) (g_query (URL_REGEX_match (lit "//?#"))) = true.
Proof. apply (X12_url_groups_lossless (lit "//?#")). reflexivity. Defined.

(** ** The groups of an authority *)

Lemma rsplit_app c s a b : rsplit c s = Some (a, b) -> s = a ++ c :: b.
Proof.
  revert a b. induction s as [|x s IH]; intros a b H; [discriminate|].
  cbn [rsplit] in H. destruct (rsplit c s) as [[a' b']|].
  - injection H as <- <-. cbn [app]. rewrite (IH _ _ eq_refl). reflexivity.
  - destruct (N.eqb_spec x c) as [->|]; [|discriminate]. injection H as <- <-. reflexivity.
Qed.

Lemma match_host_stage s :
  exists h s2, match_host s = (h, s2) /\ s = h ++ s2 /\
               (startswith 91 h = false -> char_in 58 h = false).
Proof.
  assert (P : exists h s2, span (fun c => negb (c =? 58)) s = (h, s2) /\ s = h ++ s2 /\
                           (startswith 91 h = false -> char_in 58 h = false)).
  { destruct (span_stage (fun c => negb (c =? 58)) s) as (h & s2 & E & A & F & _).
    exists h, s2. split; [exact E|]. split; [exact A|]. intros _.
    apply char_in_forallb. exact F. }
  destruct (startswith 91 s) eqn:B; [|rewrite (match_host_plain _ B); exact P].
  destruct s as [|c t]; [discriminate B|]. cbn [startswith] in B.
  apply N.eqb_eq in B. subst c. unfold match_host.
  destruct (span_stage (fun c => negb (c =? 10)) t) as (line & rest & E & A & _).
  rewrite E. destruct (rsplit 93 line) as [[inner after]|] eqn:R; [|exact P].
  exists (91 :: inner ++ [93]), (after ++ rest). split; [reflexivity|]. split.
  - rewrite A, (rsplit_app _ _ _ _ R). cbn [app]. rewrite <- !app_assoc. reflexivity.
  - intros H. discriminate H.
Qed.

Lemma authority_groups_stages a :
  forallb (fun c => negb (c =? 10)) a = true ->
  (exists colon, (colon = [] \/ colon = [58]) /\
                 authority_of_groups (AUTHORITY_REGEX_match a) colon = a) /\
  opt_forallb (fun c => negb (c =? 64)) (g_userinfo (AUTHORITY_REGEX_match a)) = true /\
  (startswith 91 (g_host (AUTHORITY_REGEX_match a)) = false ->
   char_in 58 (g_host (AUTHORITY_REGEX_match a)) = false).
Proof.
  intros Hn.
  assert (U : exists u s1,
            (let '(before, found, after) := partition 64 a in
             if found then (Some before, after) else (None, a)) = (u, s1) /\
            a = match u with Some x => x ++ [64] | None => [] end ++ s1 /\
            opt_forallb (fun c => negb (c =? 64)) u = true).
  { unfold partition.
    destruct (span_stage (fun c => negb (c =? 64)) a) as (x & y & E & A & F & R).
    rewrite E. destruct y as [|c y].
    - exists None, a. auto.
    - exists (Some x), y. split; [reflexivity|]. split; [|exact F].
      apply negb_true_iff, negb_false_iff, N.eqb_eq in R. subst c.
      rewrite <- app_assoc. exact A. }
  destruct U as (u & s1 & E1 & A1 & F1).
  destruct (match_host_stage s1) as (h & s2 & E2 & A2 & F2).
  rewrite (AUTHORITY_REGEX_match_stages a u s1 h s2 E1 E2).
  cbn [g_userinfo g_host g_port]. split; [|auto]. unfold authority_of_groups.
  cbn [g_userinfo g_host g_port opt_or_empty].
  assert (N2 : forallb (fun c => negb (c =? 10)) s2 = true).
  { rewrite A1, A2, !forallb_app in Hn. repeat (apply andb_prop in Hn as [_ Hn]). exact Hn. }
  destruct (N.eqb_spec (hd 0 s2) 58) as [C|C].
  - destruct s2 as [|c t]; [discriminate C|]. cbn [hd] in C. subst c.
    exists [58]. split; [right; reflexivity|]. cbn [forallb] in N2.
    rewrite (span_all _ t N2). cbn [fst app]. subst s1. subst a. reflexivity.
  - exists []. split; [left; reflexivity|].
    assert (S : match s2 with 58 :: t => t | _ => s2 end = s2).
    { destruct s2 as [|c t]; [reflexivity|]. cbn [hd] in C.
      destruct c as [|q]; [reflexivity|].
      do 6 (destruct q as [q|q|]; try reflexivity). congruence. }
    rewrite S, (span_all _ s2 N2). cbn [fst app]. subst s1. subst a. reflexivity.
Qed.

(** X13.  Nothing of an authority without line feed is lost when
    [AUTHORITY_REGEX] cuts it up: the userinfo with its at sign, the host,
    one colon at most and the port make up the authority again.  The
    userinfo holds no at sign, so it ends at the first one; and a host
    that does not begin with a bracket holds no colon, so it ends at the
    first one. *)
Theorem X13_authority_groups_lossless : forall a,
  char_in 10 a = false ->
  (exists colon, (colon = [] \/ colon = [58]) /\
                 authority_of_groups (AUTHORITY_REGEX_match a) colon = a) /\
  opt_forallb (fun c => negb (c =? 64)) (g_userinfo (AUTHORITY_REGEX_match a)) = true /\
  (startswith 91 (g_host (AUTHORITY_REGEX_match a)) = false ->
   char_in 58 (g_host (AUTHORITY_REGEX_match a)) = false).
Proof.
  intros a Hn. apply char_in_forallb in Hn. apply (authority_groups_stages a Hn).
Qed.

Lemma X13_authority_groups_lossless_witness :
  (exists colon, (colon = [] \/ colon = [58]) /\
                 authority_of_groups (AUTHORITY_REGEX_match (lit "u:p@[::1]:80")) colon
                 = lit "u:p@[::1]:80") /\
  opt_forallb (fun c => negb (c =? 64))
    (g_userinfo (AUTHORITY_REGEX_match (lit "u:p@[::1]:80"))) = true /\
  (startswith 91 (g_host (AUTHORITY_REGEX_match (lit "u:p@[::1]:80"))) = false ->
   char_in 58 (g_host (AUTHORITY_REGEX_match (lit "u:p@[::1]:80"))) = false).
Proof. apply (X13_authority_groups_lossless (lit "u:p@[::1]:80")). reflexivity. Defined.

(** ** Ports *)

Lemma lstrip_keeps c s : In c s -> is_space c = false -> In c (lstrip s).
Proof.
  induction s as [|x s IH]; intros H Hc; [destruct H|]. cbn [lstrip].
  destruct (is_space x) eqn:E; [|exact H].
  destruct H as [->|H]; [congruence|apply (IH H Hc)].
Qed.

Lemma strip_keeps c s : In c s -> is_space c = false -> In c (strip s).
Proof.
  intros H Hc. unfold strip. apply -> in_rev. apply lstrip_keeps; [|exact Hc].
  apply -> in_rev. apply lstrip_keeps; assumption.
Qed.

Lemma digits_value_bad c s :
  In c s -> is_digit c = false -> (c =? 95) = false ->
  forall acc after, digits_value s acc after = None.
Proof.
  intros H D U. induction s as [|x s IH]; intros acc after; [destruct H|].
  cbn [digits_value]. destruct H as [->|H].
  - rewrite D, U. reflexivity.
  - destruct (is_digit x); [apply (IH H)|].
    destruct ((x =? 95) && after); [apply (IH H)|reflexivity].
Qed.

Lemma limited_digits_value_none t :
  digits_value t 0 false = None -> limited_digits_value t = None.
Proof.
  intros H. unfold limited_digits_value. rewrite H. destruct (too_many_digits t); reflexivity.
Qed.

Lemma ascii_int_none s :
  (forall t, strip s = t \/ strip s = 45 :: t \/ strip s = 43 :: t ->
             limited_digits_value t = None) ->
  ascii_int s = None.
Proof.
  intros H. unfold ascii_int. destruct (strip s) as [|x t].
  - rewrite (H [] (or_introl eq_refl)). reflexivity.
  - destruct x as [|q]; [rewrite (H _ (or_introl eq_refl)); reflexivity|].
    do 6 (destruct q as [q|q|];
          try (rewrite (H _ (or_introl eq_refl)); reflexivity)).
    all: first [rewrite (H t (or_intror (or_introl eq_refl))); reflexivity
               |rewrite (H t (or_intror (or_intror eq_refl))); reflexivity].
Qed.

Lemma int_char_cases c :
  implb (negb (is_int_char c))
        (negb (is_digit c) && negb (c =? 95) && negb (is_space c)
         && negb (c =? 45) && negb (c =? 43)) = true.
Proof. char_cases c. Qed.

Lemma ascii_int_bad s :
  forallb is_int_char s = false -> ascii_int s = None.
Proof.
  intros H. apply forallb_false_ex in H as (c & Hc & B).
  assert (L := int_char_cases c). rewrite B in L. cbn [negb implb] in L.
  apply andb_prop in L as [L L5]. apply andb_prop in L as [L L4].
  apply andb_prop in L as [L L3]. apply andb_prop in L as [L1 L2].
  apply negb_true_iff in L1, L2, L3, L4, L5.
  assert (S := strip_keeps c s Hc L3).
  apply ascii_int_none. intros t [E|[E|E]]; rewrite E in S;
    apply limited_digits_value_none;
    (apply (digits_value_bad c); [|exact L1|exact L2]).
  - exact S.
  - destruct S as [S|S]; [|exact S]. subst c. discriminate L4.
  - destruct S as [S|S]; [|exact S]. subst c. discriminate L5.
Qed.

Lemma digit_is_ascii c : implb (is_digit c) (isascii c) = true.
Proof. char_cases c. Qed.

Lemma ascii_int_digit_run s :
  forallb is_digit s = true -> nonempty s = true ->
  ascii_int s = option_map Z.of_N (limited_digits_value s).
Proof.
  intros D Hne. unfold ascii_int. rewrite strip_id.
  2:{ rewrite forallb_forall in *. intros c Hc.
      apply (implb_true _ _ (number_char_not_space c)). unfold is_number_char.
      rewrite (D c Hc). reflexivity. }
  destruct s as [|c t]; [discriminate Hne|].
  cbn [forallb] in D. apply andb_prop in D as [D1 _].
  assert (S := implb_true _ _ (digit_not_sign c) D1).
  apply andb_prop in S as [S1 S2]. apply negb_true_iff in S1, S2.
  apply N.eqb_neq in S1, S2.
  destruct c as [|p]; [reflexivity|].
  do 6 (destruct p as [p|p|]; try reflexivity); congruence.
Qed.

Lemma too_many_digits_run s :
  forallb is_digit s = true ->
  too_many_digits s = (MAX_STR_DIGITS <? Z.of_nat (List.length s))%Z.
Proof. intros D. unfold too_many_digits. rewrite (filter_all _ _ _ D). reflexivity. Qed.

(** X14.  What [normalize_port] makes of the text of a port.  A run of
    decimal digits, 4300 of them at most, is read in base ten, zeros in
    front allowed, and the number is the port unless it is the default port
    of the scheme, when there is no port.  A longer run of digits is
    refused with [InvalidURL], as [int] refuses it; and so is an ASCII
    text that holds anything but digits, signs, underscores and the six
    white space characters of ASCII. *)
Theorem X14_normalize_port_text :
  (forall rt s scheme,
     s <> [] -> forallb is_digit s = true ->
     (Z.of_nat (List.length s) <= MAX_STR_DIGITS)%Z ->
     normalize_port rt (Some s) scheme =
     Ok (elide_default scheme (Z.of_N (decimal_value s)))) /\
  (forall rt s scheme,
     forallb is_digit s = true -> (MAX_STR_DIGITS < Z.of_nat (List.length s))%Z ->
     normalize_port rt (Some s) scheme = Raise (InvalidURL "Invalid port")) /\
  (forall rt s scheme,
     forallb isascii s = true -> forallb is_int_char s = false ->
     normalize_port rt (Some s) scheme = Raise (InvalidURL "Invalid port")).
Proof.
  split; [|split]; intros rt s scheme.
  - intros Hne D L. destruct s as [|c t]; [congruence|].
    assert (T : too_many_digits (c :: t) = false).
    { rewrite (too_many_digits_run _ D). apply Z.ltb_ge. exact L. }
    unfold normalize_port, int_of_str.
    rewrite (forallb_impl _ _ _ digit_is_ascii D), (ascii_int_digits _ D eq_refl T).
    unfold elide_default. destruct (default_port scheme) as [d|]; [|reflexivity].
    destruct (_ =? d)%Z; reflexivity.
  - intros D L. destruct s as [|c t]; [cbn in L; unfold MAX_STR_DIGITS in L; lia|].
    assert (T : too_many_digits (c :: t) = true).
    { rewrite (too_many_digits_run _ D). apply Z.ltb_lt. exact L. }
    unfold normalize_port, int_of_str.
    rewrite (forallb_impl _ _ _ digit_is_ascii D), (ascii_int_digit_run _ D eq_refl).
    unfold limited_digits_value. rewrite T. reflexivity.
  - intros A B. destruct s as [|c t]; [discriminate B|].
    unfold normalize_port, int_of_str. rewrite A, (ascii_int_bad _ B). reflexivity.
Qed.

Lemma X14_normalize_port_text_witness :
  normalize_port ascii_only (Some (lit "0080")) (lit "http") =
    Ok (elide_default (lit "http") (Z.of_N (decimal_value (lit "0080")))) /\
  normalize_port ascii_only (Some (repeat 49 4301)) (lit "http") =
    Raise (InvalidURL "Invalid port") /\
  normalize_port ascii_only (Some (lit "80a")) (lit "http") =
    Raise (InvalidURL "Invalid port").
Proof.
  split; [|split].
  - apply (proj1 X14_normalize_port_text ascii_only (lit "0080") (lit "http"));
      [discriminate|reflexivity|vm_compute; discriminate].
  - apply (proj1 (proj2 X14_normalize_port_text) ascii_only (repeat 49 4301) (lit "http"));
      vm_compute; reflexivity.
  - apply (proj2 (proj2 X14_normalize_port_text) ascii_only (lit "80a") (lit "http"));
      reflexivity.
Defined.

(** ** Overrides *)

Lemma urlparse_special rt url kw kw1 r :
  urlparse rt url kw = Ok r -> special_keys kw = Ok kw1 ->
  exists kw2, validate_kwargs kw1 = Ok kw2 /\
              normalize_components rt (merge_groups url kw2) = Ok r.
Proof.
  intros H S. apply urlparse_ok in H as (c & Hc & H).
  apply merge_components_ok in Hc as (_ & _ & k1 & k2 & H1 & H2 & ->).
  rewrite S in H1. injection H1 as <-. eauto.
Qed.

Lemma forallb_in_false (p : N -> bool) s c : In c s -> p c = false -> forallb p s = false.
Proof.
  intros H Hc. destruct (forallb p s) eqn:E; [|reflexivity].
  rewrite forallb_forall in E. rewrite (E c H) in Hc. discriminate Hc.
Qed.

Lemma forbidden_keys k c :
  char_in c (forbidden k) = true ->
  k = "authority"%string \/ k = "path"%string \/ k = "query"%string \/ k = "userinfo"%string.
Proof.
  unfold forbidden.
  destruct (String.eqb_spec k "authority"); [auto|].
  destruct (String.eqb_spec k "path"); [auto|].
  destruct (String.eqb_spec k "query"); [auto|].
  destruct (String.eqb_spec k "userinfo"); [auto|discriminate].
Qed.

(** X15.  An override is checked, not escaped: a text that holds a
    delimiter its component cannot hold ([/], [?] or [#] for the
    authority, [?] or [#] for the path, [#] for the query, [@] for the
    userinfo) makes [urlparse] fail with [InvalidURL], whatever the URL. *)
Theorem X15_override_delimiters : forall rt url k v c,
  In c v -> char_in c (forbidden k) = true ->
  exists msg, urlparse rt url [(k, KStr v)] = Raise (InvalidURL msg).
Proof.
  intros rt url k v c Hc F. unfold urlparse, merge_components.
  destruct (too_long url); [eexists; reflexivity|].
  destruct (has_control url); [eexists; reflexivity|].
  destruct (forbidden_keys _ _ F) as [->|[->|[->| ->]]];
    match goal with |- context [special_keys ?kw] => change (special_keys kw) with (Ok kw) end;
    cbn [bind validate_kwargs]; unfold COMPONENT_REGEX;
    cbn [String.eqb Ascii.eqb Bool.eqb];
    (destruct (too_long v); [eexists; reflexivity|]);
    (destruct (has_control v); [eexists; reflexivity|]);
    unfold NotIn; rewrite fullmatch_Star_Cls;
    rewrite (forallb_in_false _ v c Hc) by (cbv beta; change (forbidden _) with (lit "/?#") in F
      || change (forbidden _) with (lit "?#") in F || change (forbidden _) with (lit "#") in F
      || change (forbidden _) with (lit "@") in F; rewrite F; reflexivity);
    eexists; reflexivity.
Qed.

Lemma X15_override_delimiters_witness :
  exists msg, urlparse ascii_only (lit "http://example.com/") [("path", KStr (lit "/a?b=c"))]%string
              = Raise (InvalidURL msg).
Proof.
  apply (X15_override_delimiters ascii_only (lit "http://example.com/") "path" (lit "/a?b=c") 63);
    [cbn; auto|reflexivity].
Defined.

Lemma special_keys_credentials u p :
  special_keys [("username", KStr u); ("password", KStr p)]%string =
  (u1 <- quote u (lit "/") ;; p1 <- quote p (lit "/") ;;
   Ok [("userinfo"%string, KStr (if nonempty p1 then u1 ++ 58 :: p1 else u1))]).
Proof.
  unfold special_keys, coerce_port, replace_netloc, replace_username_password.
  cbn [kw_get kw_in kw_get_default is_some String.eqb Ascii.eqb Bool.eqb orb bind
       or_empty as_str].
  destruct (quote u (lit "/")) as [u1|]; [|reflexivity].
  cbn [bind kw_del filter fst negb String.eqb Ascii.eqb Bool.eqb kw_get_default kw_get
       or_empty as_str].
  destruct (quote p (lit "/")) as [p1|]; reflexivity.
Qed.

Lemma quoted_chars keep s o c :
  quoted keep s o -> In c o -> In c s \/ c = 37 \/ is_upper_hex c = true.
Proof.
  induction 1 as [|x s o Hx _ IH|x e s o Hx Hne He _ IH]; intros H; [destruct H| |].
  - destruct H as [<-|H]; [left; left; reflexivity|].
    destruct (IH H) as [K|K]; [left; right; exact K|right; exact K].
  - apply in_app_or in H as [H|H].
    + right. assert (A := escapes_only_alphabet _ He). rewrite Forall_forall in A.
      apply (A c H).
    + destruct (IH H) as [K|K]; [left; right; exact K|right; exact K].
Qed.

Lemma credential_alphabet c :
  implb (char_in c (UNRESERVED_CHARACTERS ++ lit "/") || (c =? 37) || is_upper_hex c)
        (negb (c =? 58) && negb (c =? 64)) = true.
Proof. char_cases c. Qed.

(** The two encodings of a user name or a password leave neither a colon
    nor an at sign in it. *)
Lemma credential_plain u u1 u2 :
  quote u (lit "/") = Ok u1 -> quote u1 (SUB_DELIMS ++ lit ":") = Ok u2 ->
  forallb (fun c => negb (c =? 58) && negb (c =? 64)) u2 = true.
Proof.
  intros Q1 Q2. apply forallb_forall. intros c Hc.
  apply (implb_true _ _ (credential_alphabet c)).
  destruct (quoted_chars _ _ _ c (quote_quoted _ _ _ Q2) Hc) as [K|[K|K]].
  - destruct (quote_chars _ _ _ _ Q1 K) as [A|A].
    + rewrite A. reflexivity.
    + subst c. reflexivity.
  - subst c. reflexivity.
  - rewrite K. apply orb_true_r.
Qed.

(** X16.  The keyword arguments [username] and [password] make the
    userinfo of the result: each is percent-encoded, in which a colon and
    an at sign become escapes, and the two are joined by a colon.  So the
    userinfo holds no at sign and one colon only, the one between the
    two. *)
Theorem X16_credentials : forall rt url u p r,
  urlparse rt url [("username", KStr u); ("password", KStr p)]%string = Ok r -> p <> [] ->
  exists u1 u2 p1 p2,
    quote u (lit "/") = Ok u1 /\ quote u1 (SUB_DELIMS ++ lit ":") = Ok u2 /\
    quote p (lit "/") = Ok p1 /\ quote p1 (SUB_DELIMS ++ lit ":") = Ok p2 /\
    userinfo r = u2 ++ 58 :: p2 /\
    char_in 58 u2 = false /\ char_in 58 p2 = false /\ char_in 64 (userinfo r) = false.
Proof.
  intros rt url u p r H Hp.
  destruct (quote u (lit "/")) as [u1|e] eqn:Qu.
  2:{ apply urlparse_ok in H as (c & Hc & _).
      apply merge_components_ok in Hc as (_ & _ & k1 & k2 & H1 & _).
      rewrite special_keys_credentials, Qu in H1. discriminate H1. }
  destruct (quote p (lit "/")) as [p1|e] eqn:Qp.
  2:{ apply urlparse_ok in H as (c & Hc & _).
      apply merge_components_ok in Hc as (_ & _ & k1 & k2 & H1 & _).
      rewrite special_keys_credentials, Qu, Qp in H1. discriminate H1. }
  assert (Np : nonempty p1 = true).
  { destruct (quoted_length _ _ _ (quote_quoted _ _ _ Qp)) as [L _].
    destruct p as [|x p]; [congruence|]. destruct p1; [cbn in L; lia|reflexivity]. }
  assert (S : special_keys [("username", KStr u); ("password", KStr p)]%string =
              Ok [("userinfo"%string, KStr (u1 ++ 58 :: p1))]).
  { rewrite special_keys_credentials, Qu, Qp. cbn [bind]. rewrite Np. reflexivity. }
  destruct (urlparse_special _ _ _ _ _ H S) as (kw2 & V & Hn).
  assert (G := validate_kwargs_get _ _ "userinfo" V). cbn [kw_get option_map validated] in G.
  change (String.eqb "userinfo" "userinfo") with true in G. cbv iota in G.
  apply normalize_components_ok in Hn as (_ & Q & _).
  unfold merge_groups, kw_get_default in Q. cbn [c_userinfo] in Q. rewrite G in Q.
  cbn [opt_or_empty] in Q.
  assert (Eu := quote_all_escapes _ _ _ Qu eq_refl).
  assert (Ep := quote_all_escapes _ _ _ Qp eq_refl).
  assert (Ec : all_escapes (58 :: p1) = true) by exact Ep.
  rewrite (quote_app _ _ _ Eu Ec) in Q.
  apply bind_ok in Q as (u2 & Qu2 & Q). apply bind_ok in Q as (cp & Qcp & Q).
  change (58 :: p1) with ([58] ++ p1) in Qcp.
  rewrite (quote_app [58] p1 _ eq_refl Ep) in Qcp.
  change (quote [58] (SUB_DELIMS ++ lit ":")) with (Ok [58]) in Qcp. cbn [bind] in Qcp.
  apply bind_ok in Qcp as (p2 & Qp2 & Qcp).
  apply Ok_inj in Qcp. apply Ok_inj in Q. subst cp. cbn [app] in Q.
  assert (Fu := credential_plain _ _ _ Qu Qu2).
  assert (Fp := credential_plain _ _ _ Qp Qp2).
  exists u1, u2, p1, p2. repeat (split; [first [exact Qu2|exact Qp2|reflexivity]|]).
  split; [symmetry; exact Q|].
  split; [apply char_in_forallb; chars Fu|].
  split; [apply char_in_forallb; chars Fp|].
  rewrite <- Q. apply char_in_forallb. rewrite forallb_app. cbn [forallb].
  assert (Fu' : forallb (fun x => negb (x =? 64)) u2 = true) by (chars Fu).
  assert (Fp' : forallb (fun x => negb (x =? 64)) p2 = true) by (chars Fp).
  rewrite Fu', Fp'. reflexivity.
Qed.

Lemma X16_credentials_witness :
  exists u1 u2 p1 p2,
    quote (lit "a:b@c") (lit "/") = Ok u1 /\ quote u1 (SUB_DELIMS ++ lit ":") = Ok u2 /\
    quote (lit "p/w") (lit "/") = Ok p1 /\ quote p1 (SUB_DELIMS ++ lit ":") = Ok p2 /\
    lit "a%3Ab%40c:p%2Fw" = u2 ++ 58 :: p2 /\
    char_in 58 u2 = false /\ char_in 58 p2 = false /\
    char_in 64 (lit "a%3Ab%40c:p%2Fw") = false.
Proof.
  apply (X16_credentials ascii_only (lit "http://example.com/") (lit "a:b@c") (lit "p/w")
           {| scheme := lit "http"; userinfo := lit "a%3Ab%40c:p%2Fw";
              host := lit "example.com"; port := None; path := lit "/";
              query := None; fragment := None |});
    [vm_compute; reflexivity|discriminate].
Defined.

Lemma special_keys_full_path fp :
  special_keys [("full_path", KStr fp)]%string =
  let '(a, found, b) := partition 63 fp in
  Ok [("path", KStr a); ("query", if found then KStr b else KNone)]%string.
Proof.
  unfold special_keys, coerce_port, replace_netloc, replace_username_password,
    replace_full_path.
  cbn [kw_get kw_in kw_get_default is_some String.eqb Ascii.eqb Bool.eqb orb bind
       or_empty as_str kw_del filter fst negb].
  destruct (partition 63 fp) as [[a found] b]. destruct found; reflexivity.
Qed.

(** X17.  The keyword argument [full_path] stands for the path and the
    query together, cut at its first question mark, and both replace
    those of the URL: the query of the result is what follows the question
    mark, percent-encoded, and there is no query when [full_path] holds no
    question mark, whatever query the URL has.  The path of the result is
    what comes before the question mark, percent-encoded; when the URL
    holds userinfo, a host or a port that text has passed the rule of the
    absolute path and its dot segments are removed first, and when the URL
    holds none of them it is encoded as it stands. *)
Theorem X17_full_path : forall rt url fp r a found b,
  urlparse rt url [("full_path", KStr fp)]%string = Ok r ->
  partition 63 fp = (a, found, b) ->
  quote_opt (if found then Some b else None) (SUB_DELIMS ++ lit "/?") = Ok (query r) /\
  (if url_authority_set url
   then validate_absolute_path a = Ok tt /\
        quote (normalize_path a) (SUB_DELIMS ++ lit ":@/") = Ok (path r)
   else quote a (SUB_DELIMS ++ lit ":@/") = Ok (path r)).
Proof.
  intros rt url fp r a found b H P.
  assert (S := special_keys_full_path fp). rewrite P in S.
  destruct (urlparse_special _ _ _ _ _ H S) as (kw2 & V & Hn).
  assert (Gp := validate_kwargs_get _ _ "path" V).
  assert (Gq := validate_kwargs_get _ _ "query" V).
  assert (Ga := validate_kwargs_get _ _ "authority" V).
  assert (Gu := validate_kwargs_get _ _ "userinfo" V).
  assert (Gh := validate_kwargs_get _ _ "host" V).
  assert (Go := validate_kwargs_get _ _ "port" V).
  cbn [kw_get option_map String.eqb Ascii.eqb Bool.eqb] in Gp, Gq, Ga, Gu, Gh, Go.
  assert (A : authority_set (merge_groups url kw2) = url_authority_set url).
  { unfold url_authority_set, authority_set, merge_groups, kw_get_default.
    cbn [c_userinfo c_host c_port kw_get]. rewrite Ga, Gu, Gh, Go. reflexivity. }
  apply normalize_components_ok in Hn as (_ & _ & _ & _ & (p & Hp & Qp) & Qq & _).
  rewrite A in Hp.
  unfold merge_groups, kw_get_default in Hp, Qq. cbn [c_path c_query] in Hp, Qq.
  rewrite Gp in Hp. rewrite Gq in Qq. cbn [validated opt_or_empty] in Hp. split.
  - destruct found; exact Qq.
  - destruct (url_authority_set url).
    + destruct Hp as [Hv ->]. split; [exact Hv|exact Qp].
    + rewrite <- Hp. exact Qp.
Qed.

Lemma X17_full_path_witness :
  quote_opt (if false then Some [] else None) (SUB_DELIMS ++ lit "/?") = Ok None /\
  (if url_authority_set (lit "http://example.com/a?x=1")
   then validate_absolute_path (lit "/b/../c") = Ok tt /\
        quote (normalize_path (lit "/b/../c")) (SUB_DELIMS ++ lit ":@/") = Ok (lit "/c")
   else quote (lit "/b/../c") (SUB_DELIMS ++ lit ":@/") = Ok (lit "/c")).
Proof.
  apply (X17_full_path ascii_only (lit "http://example.com/a?x=1") (lit "/b/../c")
           (example_com None (lit "/c") None None) (lit "/b/../c") false []);
    vm_compute; reflexivity.
Defined.

Lemma special_keys_host h :
  special_keys [("host", KStr h)]%string =
  Ok [("host"%string,
       KStr (if char_in 58 h && negb (startswith 91 h && endswith 93 h)
             then 91 :: h ++ [93] else h))].
Proof.
  unfold special_keys, coerce_port, replace_netloc, replace_username_password,
    replace_full_path, bracket_host.
  cbn [kw_get kw_in kw_get_default is_some String.eqb Ascii.eqb Bool.eqb orb bind
       or_empty as_str].
  destruct (char_in 58 h && negb (startswith 91 h && endswith 93 h)); reflexivity.
Qed.

Lemma has_control_newline s : has_control s = false -> char_in 10 s = false.
Proof.
  rewrite has_control_spec. intros H. apply negb_false_iff in H.
  apply char_in_forallb. chars H.
Qed.

(** X18.  A host given as a keyword argument that holds a colon and does
    not begin with a bracket is taken for an IPv6 address: [urlparse] puts
    it between brackets, so that it returns only when
    [ipaddress.IPv6Address] accepts the host, and then the host of the
    result is the host given, as it stands. *)
Theorem X18_host_override_ipv6 : forall rt url h r,
  urlparse rt url [("host", KStr h)]%string = Ok r ->
  char_in 58 h = true -> startswith 91 h = false ->
  host r = h /\ IPv6Address_ok h = true.
Proof.
  intros rt url h r H C B. assert (S := special_keys_host h).
  rewrite C, B in S. cbn [andb negb] in S.
  destruct (urlparse_special _ _ _ _ _ H S) as (kw2 & V & Hn).
  assert (G := validate_kwargs_get _ _ "host" V).
  cbn [kw_get option_map String.eqb Ascii.eqb Bool.eqb validated] in G.
  destruct (validate_kwargs_valid _ _ _ _ V G) as (_ & _ & _ & Hc & _).
  apply has_control_newline in Hc. unfold char_in in Hc. cbn [existsb] in Hc.
  apply orb_false_elim in Hc as [_ Hc]. rewrite existsb_app in Hc.
  apply orb_false_elim in Hc as [Hc _].
  apply normalize_components_ok in Hn as (_ & _ & E & _).
  unfold merge_groups, kw_get_default in E. cbn [c_host] in E. rewrite G in E.
  cbn [opt_or_empty] in E. rewrite (encode_host_bracketed rt h Hc) in E.
  destruct (IPv6Address_ok h); [|discriminate E]. apply Ok_inj in E. auto.
Qed.

Lemma X18_host_override_ipv6_witness :
  lit "fe80::1" = lit "fe80::1" /\ IPv6Address_ok (lit "fe80::1") = true.
Proof.
  apply (X18_host_override_ipv6 ascii_only (lit "http://example.com/") (lit "fe80::1")
           {| scheme := lit "http"; userinfo := []; host := lit "fe80::1"; port := None;
              path := lit "/"; query := None; fragment := None |});
    vm_compute; reflexivity.
Defined.

(** ** Paths of results *)

(** X19.  The path of a result that has an authority holds no [.] and no
    [..] segment. *)
Theorem X19_result_path_dot_free : forall rt url kw r,
  urlparse rt url kw = Ok r -> authority r <> [] -> dot_free (path r) = true.
Proof.
  intros rt url kw r H A. apply urlparse_ok in H as (c & _ & H).
  assert (S : authority_set c = true).
  { destruct (authority_set c) eqn:E; [reflexivity|].
    destruct (A (authority_set_false rt c r H E)). }
  apply normalize_components_ok in H as (_ & _ & _ & _ & (p & Hp & Q) & _).
  rewrite S in Hp. destruct Hp as [_ ->].
  apply (quote_dot_free _ _ _ Q eq_refl (normalize_path_dot_free _)).
Qed.

Lemma X19_result_path_dot_free_witness :
  dot_free (path (example_com None (lit "/a/c") None None)) = true.
Proof.
  apply (X19_result_path_dot_free ascii_only (lit "http://example.com/a/./b/../c") []);
    [vm_compute; reflexivity|discriminate].
Defined.

(** ** Copies *)

Lemma kw_set_same k v (kw : kwargs) : kw_get k kw = Some v -> kw_set k v kw = kw.
Proof.
  induction kw as [|[k0 v0] kw IH]; [discriminate|]. cbn [kw_get kw_set].
  destruct (String.eqb_spec k0 k) as [->|Hne].
  - intros H. injection H as ->. reflexivity.
  - intros H. rewrite (IH H). reflexivity.
Qed.

Lemma too_long_shorter a b :
  (List.length a <= List.length b)%nat -> too_long b = false -> too_long a = false.
Proof. unfold too_long. intros L H. apply Z.ltb_ge in H. apply Z.ltb_ge. lia. Qed.

Lemma to_str_lengths r :
  (List.length (scheme r) <= List.length (to_str r))%nat /\
  (List.length (authority r) <= List.length (to_str r))%nat /\
  (List.length (path r) <= List.length (to_str r))%nat /\
  (List.length (opt_or_empty (query r)) <= List.length (to_str r))%nat /\
  (List.length (opt_or_empty (fragment r)) <= List.length (to_str r))%nat.
Proof.
  rewrite to_str_parts, !length_app.
  assert (S : (List.length (scheme r) <= List.length (scheme_part (scheme r)))%nat).
  { unfold scheme_part. destruct (scheme r); cbn [nonempty List.length]; [lia|].
    rewrite length_app. cbn [List.length]. lia. }
  assert (A : (List.length (authority r) <= List.length (authority_part (authority r)))%nat).
  { unfold authority_part. destruct (authority r); cbn [nonempty List.length]; lia. }
  assert (Q : (List.length (opt_or_empty (query r))
               <= List.length (query_part (query r)))%nat).
  { destruct (query r); cbn [opt_or_empty query_part List.length]; lia. }
  assert (F : (List.length (opt_or_empty (fragment r))
               <= List.length (fragment_part (fragment r)))%nat).
  { destruct (fragment r); cbn [opt_or_empty fragment_part List.length]; lia. }
  lia.
Qed.

Lemma validate_kwargs_entry key re v rest kw' :
  COMPONENT_REGEX key = Some re -> too_long v = false -> has_control v = false ->
  fullmatch re v = true -> validate_kwargs rest = Ok kw' ->
  validate_kwargs ((key, KStr v) :: rest) = Ok ((key, Some v) :: kw').
Proof.
  intros R L C F V. cbn [validate_kwargs]. rewrite R, L, C, F, V. reflexivity.
Qed.

Lemma validate_kwargs_opt key re o rest kw' :
  COMPONENT_REGEX key = Some re ->
  match o with Some v => too_long v = false /\ has_control v = false /\
                         fullmatch re v = true
             | None => True end ->
  validate_kwargs rest = Ok kw' ->
  validate_kwargs ((key, kw_of_opt o) :: rest) = Ok ((key, o) :: kw').
Proof.
  intros R H V. destruct o as [v|].
  - destruct H as (L & C & F). apply (validate_kwargs_entry _ _ _ _ _ R L C F V).
  - cbn [validate_kwargs kw_of_opt]. rewrite R, V. reflexivity.
Qed.

Lemma forallb_control s : forallb not_control s = true -> has_control s = false.
Proof. intros H. rewrite has_control_spec, H. reflexivity. Qed.

(** The baseline of a result passes the checks on keyword arguments. *)
Lemma validate_copy_defaults r :
  scheme_shape (scheme r) = true ->
  canonical_text (SUB_DELIMS ++ lit ":") (userinfo r) ->
  canonical_text (SUB_DELIMS ++ lit ":@/") (path r) ->
  canonical_opt (SUB_DELIMS ++ lit "/?") (query r) ->
  canonical_opt (SUB_DELIMS ++ lit "/?") (fragment r) ->
  host_splits (host r) -> too_long (to_str r) = false ->
  validate_kwargs (copy_defaults r) =
  Ok [("scheme", Some (scheme r)); ("authority", Some (authority r));
      ("path", Some (path r)); ("query", query r); ("fragment", fragment r)]%string.
Proof.
  intros Hsc Hu Hp Hq Hf [Hh _] Hl.
  destruct (to_str_lengths r) as (L1 & L2 & L3 & L4 & L5).
  assert (Cu := canonical_chars _ _ Hu). assert (Cp := canonical_chars _ _ Hp).
  unfold copy_defaults.
  apply (validate_kwargs_entry "scheme" _ _ _ _ eq_refl).
  { apply (too_long_shorter _ _ L1 Hl). }
  { apply forallb_control. chars (scheme_shape_chars _ Hsc). }
  { rewrite fullmatch_scheme. exact Hsc. }
  apply (validate_kwargs_entry "authority" _ _ _ _ eq_refl).
  { apply (too_long_shorter _ _ L2 Hl). }
  { apply forallb_control. apply authority_chars; try reflexivity.
    - intros c. char_cases c.
    - chars Cu.
    - chars Hh. }
  { unfold NotIn. rewrite fullmatch_Star_Cls. apply authority_chars; try reflexivity.
    - intros c. char_cases c.
    - chars Cu.
    - chars Hh. }
  apply (validate_kwargs_entry "path" _ _ _ _ eq_refl).
  { apply (too_long_shorter _ _ L3 Hl). }
  { apply forallb_control. chars Cp. }
  { unfold NotIn. rewrite fullmatch_Star_Cls. chars Cp. }
  apply (validate_kwargs_opt "query" _ _ _ _ eq_refl).
  { destruct (query r) as [q|]; [|exact I]. cbn [opt_or_empty canonical_opt] in *.
    assert (Cq := canonical_chars _ _ Hq). split; [apply (too_long_shorter _ _ L4 Hl)|].
    split; [apply forallb_control; chars Cq|].
    unfold NotIn. rewrite fullmatch_Star_Cls. chars Cq. }
  apply (validate_kwargs_opt "fragment" _ _ _ _ eq_refl); [|reflexivity].
  destruct (fragment r) as [f|]; [|exact I]. cbn [opt_or_empty canonical_opt] in *.
  assert (Cf := canonical_chars _ _ Hf). split; [apply (too_long_shorter _ _ L5 Hl)|].
  split; [apply forallb_control; chars Cf|].
  unfold Dot. rewrite fullmatch_Star_Cls. chars Cf.
Qed.

(** The components [urlparse] merges from the baseline of a result. *)
Lemma merge_copy_defaults r url :
  canonical_text (SUB_DELIMS ++ lit ":") (userinfo r) -> host_splits (host r) ->
  merge_groups url
    [("scheme", Some (scheme r)); ("authority", Some (authority r));
     ("path", Some (path r)); ("query", query r); ("fragment", fragment r)]%string
  = reparsed r.
Proof.
  intros Hu [Hh Hb]. assert (Cu := canonical_chars _ _ Hu).
  assert (A : AUTHORITY_REGEX_match (authority r) =
              {| g_userinfo := present (userinfo r); g_host := bracketed (host r);
                 g_port := Some (port_text (port r)) |}).
  { unfold authority. apply AUTHORITY_REGEX_match_compose.
    - chars Cu.
    - chars Hh.
    - exact Hb. }
  unfold merge_groups, kw_get_default.
  cbn [kw_get String.eqb Ascii.eqb Bool.eqb opt_or_empty]. cbv zeta. rewrite A.
  cbn [g_userinfo g_host g_port opt_or_empty]. rewrite opt_or_empty_present. reflexivity.
Qed.

Lemma copy_with_defaults rt url kw r :
  urlparse rt url kw = Ok r -> copy_conditions rt r ->
  urlparse rt [] (copy_defaults r) = Ok r.
Proof.
  intros H [Hl Hpo Hh Hht].
  destruct (result_texts _ _ _ _ H) as (S1 & S2 & U & P & Q & F).
  apply urlparse_ok in H as (c & _ & H).
  unfold urlparse, merge_components.
  change (too_long []) with false. change (has_control []) with false. cbv iota.
  change (special_keys (copy_defaults r)) with (Ok (copy_defaults r)). cbn [bind].
  rewrite (validate_copy_defaults r S1 U P Q F Hht Hl). cbn [bind].
  rewrite (merge_copy_defaults r [] U Hht).
  apply (normalize_components_reparsed rt c r H S2 Hpo Hh).
Qed.

(** X20.  Copying a result with one of its own components changes
    nothing: [copy_with], given the scheme, the authority, the path, the
    query or the fragment of the result itself, returns the result, when
    the port of the result is not the default port of its scheme, its host
    encodes to itself and splits off the authority again, and its canonical
    string is not longer than the limit on a URL.  Unlike parsing the
    canonical string, this asks nothing of the path. *)
Theorem X20_copy_with_same : forall rt url kw r,
  urlparse rt url kw = Ok r -> copy_conditions rt r ->
  forall k v, kw_get k (copy_defaults r) = Some v -> copy_with rt r [(k, v)] = Ok r.
Proof.
  intros rt url kw r H C k v G. unfold copy_with. cbn [fold_left fst snd].
  change (kw_set k v _) with (kw_set k v (copy_defaults r)).
  rewrite (kw_set_same _ _ _ G). apply (copy_with_defaults rt url kw r H C).
Qed.

Lemma X20_copy_with_same_witness :
  copy_with ascii_only
    {| scheme := []; userinfo := []; host := []; port := None; path := lit "//foo";
       query := None; fragment := None |}
    [("path", KStr (lit "//foo"))]%string =
  Ok {| scheme := []; userinfo := []; host := []; port := None; path := lit "//foo";
        query := None; fragment := None |}.
Proof.
  apply (X20_copy_with_same ascii_only (lit "////foo") []).
  - vm_compute. reflexivity.
  - constructor.
    + vm_compute. reflexivity.
    + intros p H. discriminate H.
    + vm_compute. reflexivity.
    + split; [vm_compute; reflexivity|intros _; reflexivity].
  - reflexivity.
Defined.

(** ** What parsing a URL can raise *)

Lemma split_in sep s : forall p c, In p (split sep s) -> In c p -> In c s.
Proof.
  induction s as [|x s IH]; intros p c Hp Hc.
  - destruct Hp as [<-|[]]. destruct Hc.
  - cbn [split] in Hp. destruct (x =? sep).
    + destruct Hp as [<-|Hp]; [destruct Hc|right; apply (IH _ _ Hp Hc)].
    + destruct (split sep s) as [|h r] eqn:E; [destruct (split_nonempty _ _ E)|].
      destruct Hp as [<-|Hp].
      * destruct Hc as [<-|Hc]; [left; reflexivity|].
        right. apply (IH h c); [left; reflexivity|exact Hc].
      * right. apply (IH p c); [right; exact Hp|exact Hc].
Qed.

Lemma join_in sep l c : In c (join sep l) -> c = sep \/ exists p, In p l /\ In c p.
Proof.
  induction l as [|p l IH]; [intros []|]. destruct l as [|q l].
  - cbn [join]. intros H. right. exists p. split; [left; reflexivity|exact H].
  - change (join sep (p :: q :: l)) with (p ++ sep :: join sep (q :: l)). intros H.
    apply in_app_or in H as [H|[<-|H]].
    + right. exists p. split; [left; reflexivity|exact H].
    + left. reflexivity.
    + destruct (IH H) as [->|(x & Hx & Hc)]; [left; reflexivity|].
      right. exists x. split; [right; exact Hx|exact Hc].
Qed.

Lemma normalize_path_in s c : In c (normalize_path s) -> c = 47 \/ In c s.
Proof.
  unfold normalize_path. intros H. apply join_in in H as [->|(p & Hp & Hc)]; [auto|].
  right. revert p Hp c Hc.
  apply (normalize_fold_keeps (fun x => forall c, In c x -> In c s)).
  - intros x [].
  - intros p Hp _ c Hc. apply (split_in _ _ _ _ Hp Hc).
Qed.

Lemma quote_raise_surrogate s safe e :
  quote s safe = Raise e ->
  e = UnicodeEncodeError /\ exists c, In c s /\ is_surrogate c = true.
Proof.
  intros Q. assert (E := quote_raise _ _ _ Q). subst e. split; [reflexivity|].
  rewrite quote_unfold in Q. apply concat_map_raise in Q as (c & Hc & Q).
  exists c. split; [exact Hc|]. destruct (char_in c _); [discriminate|].
  apply utf8_encode_surrogate. unfold percent_encode, bind in Q.
  destruct (utf8_encode c) as [b|e] eqn:U; [discriminate|].
  rewrite (utf8_encode_raise _ _ U). reflexivity.
Qed.

Lemma quote_opt_raise_surrogate o safe e :
  quote_opt o safe = Raise e ->
  e = UnicodeEncodeError /\ exists c, In c (opt_or_empty o) /\ is_surrogate c = true.
Proof.
  destruct o as [s|]; cbn [quote_opt opt_or_empty]; [|discriminate].
  destruct (quote s safe) as [q|e'] eqn:Q; cbn [bind]; [discriminate|].
  intros H. injection H as <-. apply (quote_raise_surrogate _ _ _ Q).
Qed.

Lemma slash_not_surrogate : is_surrogate 47 = false.
Proof. reflexivity. Qed.

(** What the second half of [urlparse] can raise. *)
Lemma normalize_components_raise rt c e :
  normalize_components rt c = Raise e ->
  (exists msg, e = InvalidURL msg) \/
  (e = UnicodeEncodeError /\
   exists x, is_surrogate x = true /\
             (In x (c_userinfo c) \/ In x (c_path c) \/ In x (opt_or_empty (c_query c))
              \/ In x (opt_or_empty (c_fragment c)))).
Proof.
  unfold normalize_components. fold (authority_set c).
  destruct (quote (c_userinfo c) _) as [u|e'] eqn:Qu; cbn [bind].
  2:{ intros H. injection H as <-. right.
      destruct (quote_raise_surrogate _ _ _ Qu) as (-> & x & Hx & Sx). eauto 6. }
  destruct (encode_host rt (c_host c)) as [h|e'] eqn:Eh; cbn [bind].
  2:{ intros H. injection H as <-. left. apply (encode_host_raise _ _ _ Eh). }
  destruct (normalize_port rt (c_port c) (c_scheme c)) as [po|e'] eqn:Ep; cbn [bind].
  2:{ intros H. injection H as <-. left. rewrite (normalize_port_raise _ _ _ _ Ep). eauto. }
  assert (P : forall p, (p = c_path c \/ p = normalize_path (c_path c)) ->
              forall e', quote p (SUB_DELIMS ++ lit ":@/") = Raise e' ->
              e' = UnicodeEncodeError /\
              exists x, is_surrogate x = true /\ In x (c_path c)).
  { intros p Hp e' Q. destruct (quote_raise_surrogate _ _ _ Q) as (-> & x & Hx & Sx).
    split; [reflexivity|]. exists x. split; [exact Sx|].
    destruct Hp as [->| ->]; [exact Hx|].
    destruct (normalize_path_in _ _ Hx) as [->|K]; [|exact K].
    rewrite slash_not_surrogate in Sx. discriminate Sx. }
  assert (T : forall p, (p = c_path c \/ p = normalize_path (c_path c)) ->
              (x <- quote p (SUB_DELIMS ++ lit ":@/") ;;
               parsed_query <- quote_opt (c_query c) (SUB_DELIMS ++ lit "/?") ;;
               parsed_fragment <- quote_opt (c_fragment c) (SUB_DELIMS ++ lit "/?") ;;
               Ok {| scheme := str_lower rt (c_scheme c); userinfo := u; host := h;
                     port := po; path := x; query := parsed_query;
                     fragment := parsed_fragment |}) = Raise e ->
              (exists msg, e = InvalidURL msg) \/
              (e = UnicodeEncodeError /\
               exists x, is_surrogate x = true /\
                 (In x (c_userinfo c) \/ In x (c_path c) \/ In x (opt_or_empty (c_query c))
                  \/ In x (opt_or_empty (c_fragment c))))).
  { intros p Hp. destruct (quote p _) as [pp|e'] eqn:Qp; cbn [bind].
    2:{ intros H. injection H as <-. right.
        destruct (P p Hp _ Qp) as (-> & x & Sx & Hx). eauto 7. }
    destruct (quote_opt (c_query c) _) as [q|e'] eqn:Qq; cbn [bind].
    2:{ intros H. injection H as <-. right.
        destruct (quote_opt_raise_surrogate _ _ _ Qq) as (-> & x & Hx & Sx). eauto 8. }
    destruct (quote_opt (c_fragment c) _) as [f|e'] eqn:Qf; cbn [bind]; [discriminate|].
    intros H. injection H as <-. right.
    destruct (quote_opt_raise_surrogate _ _ _ Qf) as (-> & x & Hx & Sx). eauto 9. }
  destruct (authority_set c); [|cbn [bind]; apply T; left; reflexivity].
  unfold validate_absolute_path.
  destruct (nonempty (c_path c) && negb (startswith 47 (c_path c))); cbn [bind].
  - intros H. injection H as <-. left. eauto.
  - apply T. right. reflexivity.
Qed.

Lemma in_url_groups url x :
  forallb (fun c => negb (c =? 10)) url = true ->
  In x (opt_or_empty (g_authority (URL_REGEX_match url))) \/
  In x (g_path (URL_REGEX_match url)) \/
  In x (opt_or_empty (g_query (URL_REGEX_match url))) \/
  In x (opt_or_empty (g_fragment (URL_REGEX_match url))) ->
  In x url.
Proof.
  intros Hn H. destruct (url_groups_stages url Hn) as [E _]. rewrite <- E.
  unfold url_of_groups, query_part, fragment_part.
  destruct (g_scheme _), (g_authority _), (g_query _), (g_fragment _);
    cbn [opt_or_empty] in H; rewrite ?in_app_iff; cbn [In app];
    rewrite ?in_app_iff; cbn [In]; intuition auto.
Qed.

Lemma in_authority_userinfo a x :
  forallb (fun c => negb (c =? 10)) a = true ->
  In x (opt_or_empty (g_userinfo (AUTHORITY_REGEX_match a))) -> In x a.
Proof.
  intros Hn H. destruct (authority_groups_stages a Hn) as [(colon & _ & E) _].
  rewrite <- E. unfold authority_of_groups.
  destruct (g_userinfo _); cbn [opt_or_empty] in H; [|destruct H].
  rewrite !in_app_iff. auto.
Qed.

(** X21.  Parsing a URL, with no keyword argument, fails in two ways
    only: with [InvalidURL], or with [UnicodeEncodeError], and with the
    second only when the URL holds a code point that UTF-8 cannot encode,
    a surrogate. *)
Theorem X21_urlparse_exceptions : forall rt url e,
  urlparse rt url [] = Raise e ->
  (exists msg, e = InvalidURL msg) \/
  (e = UnicodeEncodeError /\ exists c, In c url /\ is_surrogate c = true).
Proof.
  intros rt url e. unfold urlparse, merge_components.
  destruct (too_long url); [intros H; injection H as <-; left; eauto|].
  destruct (has_control url) eqn:Hc; [intros H; injection H as <-; left; eauto|].
  change (special_keys []) with (Ok (@nil (string * kwval))). cbn [bind validate_kwargs].
  intros H. apply normalize_components_raise in H as [H|(-> & x & Sx & Hx)]; [left; exact H|].
  right. split; [reflexivity|]. exists x. split; [|exact Sx].
  assert (Hn : forallb (fun c => negb (c =? 10)) url = true).
  { apply char_in_forallb. apply has_control_newline. exact Hc. }
  unfold merge_groups, kw_get_default in Hx.
  cbn [kw_get c_userinfo c_path c_query c_fragment opt_or_empty] in Hx.
  apply (in_url_groups url x Hn).
  destruct Hx as [Hx|Hx]; [left|right; exact Hx].
  apply in_authority_userinfo in Hx; [exact Hx|].
  destruct (url_groups_stages url Hn) as (E & _).
  rewrite <- E in Hn. unfold url_of_groups in Hn. rewrite !forallb_app in Hn.
  apply andb_prop in Hn as [_ Hn]. apply andb_prop in Hn as [Hn _].
  destruct (g_authority (URL_REGEX_match url)); [|reflexivity].
  cbn [forallb opt_or_empty] in *. exact Hn.
Qed.

Lemma X21_urlparse_exceptions_witness :
  (exists msg, UnicodeEncodeError = InvalidURL msg) \/
  (UnicodeEncodeError = UnicodeEncodeError /\
   exists c, In c (lit "http://a/" ++ [56832]) /\ is_surrogate c = true).
Proof.
  apply (X21_urlparse_exceptions ascii_only (lit "http://a/" ++ [56832])).
  vm_compute. reflexivity.
Defined.

(** ** Ports and network locations given as keyword arguments *)

Lemma normalize_port_str_of_Z rt z sc :
  too_many_digits (str_of_N (Z.abs_N z)) = false ->
  normalize_port rt (Some (str_of_Z z)) sc = Ok (elide_default sc z).
Proof.
  intros T. unfold normalize_port, elide_default. assert (E := str_of_Z_nonempty z).
  destruct (str_of_Z z) as [|x t] eqn:Ez; [discriminate E|].
  rewrite <- Ez, (int_of_str_str_of_Z rt z T).
  destruct (default_port sc) as [d|]; [|reflexivity]. destruct (z =? d)%Z; reflexivity.
Qed.

Lemma special_keys_port z kw1 :
  special_keys [("port", KInt z)]%string = Ok kw1 ->
  too_many_digits (str_of_N (Z.abs_N z)) = false /\
  kw1 = [("port"%string, KStr (str_of_Z z))].
Proof.
  unfold special_keys, coerce_port, str_of_int.
  cbn [kw_get String.eqb Ascii.eqb Bool.eqb].
  destruct (too_many_digits (str_of_N (Z.abs_N z))); cbn [bind]; [discriminate|].
  intros H. apply Ok_inj in H. split; [reflexivity|]. symmetry. exact H.
Qed.

Lemma merged_scheme url kw2 :
  kw_get "scheme" kw2 = None ->
  c_scheme (merge_groups url kw2) = opt_or_empty (g_scheme (URL_REGEX_match url)).
Proof.
  intros G. unfold merge_groups, kw_get_default. cbn [c_scheme]. rewrite G. reflexivity.
Qed.

(** X22.  A port given as an integer comes back as that integer: it is
    written in decimal and read again, so that the port of the result is
    the integer given, of any sign, or absent when the integer is the
    default port of the scheme of the URL as it is written there.  (The
    integer is taken within the 4300 digits that CPython converts.) *)
Theorem X22_port_integer : forall rt url z r,
  (Z.abs z < 10 ^ 4300)%Z ->
  urlparse rt url [("port", KInt z)]%string = Ok r ->
  port r = elide_default (opt_or_empty (g_scheme (URL_REGEX_match url))) z.
Proof.
  intros rt url z r _ H.
  assert (S : exists kw1, special_keys [("port", KInt z)]%string = Ok kw1).
  { apply urlparse_ok in H as (c & Hc & _).
    apply merge_components_ok in Hc as (_ & _ & k1 & _ & H1 & _). eauto. }
  destruct S as (kw1 & S). destruct (special_keys_port _ _ S) as (T & ->).
  destruct (urlparse_special _ _ _ _ _ H S) as (kw2 & V & Hn).
  assert (Gp := validate_kwargs_get _ _ "port" V).
  assert (Gs := validate_kwargs_get _ _ "scheme" V).
  cbn [kw_get option_map String.eqb Ascii.eqb Bool.eqb validated] in Gp, Gs.
  apply normalize_components_ok in Hn as (_ & _ & _ & P & _).
  rewrite (merged_scheme url kw2 Gs) in P.
  unfold merge_groups, kw_get_default in P. cbn [c_port] in P. rewrite Gp in P.
  rewrite (normalize_port_str_of_Z _ _ _ T) in P. apply Ok_inj in P. symmetry. exact P.
Qed.

Lemma X22_port_integer_witness :
  port (example_com None (lit "/") None None) =
  elide_default (opt_or_empty (g_scheme (URL_REGEX_match (lit "http://example.com:8080/"))))
    80%Z.
Proof.
  apply (X22_port_integer ascii_only (lit "http://example.com:8080/") 80%Z);
    [reflexivity|vm_compute; reflexivity].
Defined.

Lemma partition_before sep s a found b :
  partition sep s = (a, found, b) -> char_in sep a = false.
Proof.
  unfold partition. assert (F := span_forallb (fun c => negb (c =? sep)) s).
  destruct (span (fun c => negb (c =? sep)) s) as [x y]. cbn [fst] in F.
  intros H. assert (x = a) as <- by (destruct y; congruence).
  apply char_in_forallb. exact F.
Qed.

Lemma special_keys_netloc n a found b :
  partition 58 n = (a, found, b) ->
  special_keys [("netloc", KStr n)]%string =
  Ok [("host", KStr a); ("port", KStr b)]%string.
Proof.
  intros P. assert (C := partition_before _ _ _ _ _ P).
  unfold special_keys, coerce_port, replace_netloc.
  cbn [kw_get kw_in kw_get_default is_some String.eqb Ascii.eqb Bool.eqb orb bind
       or_empty as_str kw_del filter fst negb].
  rewrite P. unfold replace_username_password, replace_full_path, bracket_host.
  cbn [kw_set kw_get kw_in kw_get_default is_some String.eqb Ascii.eqb Bool.eqb orb bind
       or_empty as_str].
  rewrite C. reflexivity.
Qed.

Lemma bracket_not_int : is_int_char 93 = false.
Proof. reflexivity. Qed.

(** X23.  The keyword argument [netloc] is cut at its first colon: what
    comes before is the host, encoded as a host is, and what follows is
    the port.  So a network location whose host is an IPv6 address between
    brackets is never accepted: the bracket that closes the address falls in
    the port, which is then no number. *)
Theorem X23_netloc : forall rt url n a found b,
  partition 58 n = (a, found, b) ->
  (forall r, urlparse rt url [("netloc", KStr n)]%string = Ok r ->
     encode_host rt a = Ok (host r) /\
     normalize_port rt (Some b) (opt_or_empty (g_scheme (URL_REGEX_match url)))
     = Ok (port r)) /\
  (forallb isascii b = true -> char_in 93 b = true ->
   forall r, urlparse rt url [("netloc", KStr n)]%string <> Ok r).
Proof.
  intros rt url n a found b P.
  assert (A : forall r, urlparse rt url [("netloc", KStr n)]%string = Ok r ->
     encode_host rt a = Ok (host r) /\
     normalize_port rt (Some b) (opt_or_empty (g_scheme (URL_REGEX_match url)))
     = Ok (port r)).
  { intros r H.
    destruct (urlparse_special _ _ _ _ _ H (special_keys_netloc _ _ _ _ P)) as (kw2 & V & Hn).
    assert (Gh := validate_kwargs_get _ _ "host" V).
    assert (Gp := validate_kwargs_get _ _ "port" V).
    assert (Gs := validate_kwargs_get _ _ "scheme" V).
    cbn [kw_get option_map String.eqb Ascii.eqb Bool.eqb validated] in Gh, Gp, Gs.
    apply normalize_components_ok in Hn as (_ & _ & E & Q & _).
    rewrite (merged_scheme url kw2 Gs) in Q.
    unfold merge_groups, kw_get_default in E, Q. cbn [c_host c_port] in E, Q.
    rewrite Gh in E. rewrite Gp in Q. auto. }
  split; [exact A|]. intros Ha Hb r H. destruct (A r H) as [_ Q].
  assert (B : forallb is_int_char b = false).
  { unfold char_in in Hb. apply existsb_exists in Hb as (c & Hc & E).
    apply N.eqb_eq in E. subst c. apply (forallb_in_false _ _ 93 Hc bracket_not_int). }
  destruct b as [|x t]; [discriminate Hb|].
  unfold normalize_port, int_of_str in Q. rewrite Ha, (ascii_int_bad _ B) in Q.
  discriminate Q.
Qed.

Lemma X23_netloc_witness :
  (forall r, urlparse ascii_only (lit "http://a/") [("netloc", KStr (lit "[::1]:80"))]%string
             = Ok r ->
     encode_host ascii_only (lit "[") = Ok (host r) /\
     normalize_port ascii_only (Some (lit ":1]:80"))
       (opt_or_empty (g_scheme (URL_REGEX_match (lit "http://a/")))) = Ok (port r)) /\
  (forallb isascii (lit ":1]:80") = true -> char_in 93 (lit ":1]:80") = true ->
   forall r, urlparse ascii_only (lit "http://a/") [("netloc", KStr (lit "[::1]:80"))]%string
             <> Ok r).
Proof.
  apply (X23_netloc ascii_only (lit "http://a/") (lit "[::1]:80") (lit "[") true (lit ":1]:80")).
  reflexivity.
Defined.

(** X24.  The default port is looked up under the scheme as the URL
    writes it, before it is put in lower case.  So the port of a result is
    the default port of its scheme only when the URL wrote the scheme
    otherwise than it is stored, with a capital letter: the result for
    ["HTTP://example.com:80/"] keeps the port 80. *)
Theorem X24_default_port_case :
  (forall rt url r p,
     urlparse rt url [] = Ok r -> port r = Some p -> default_port (scheme r) = Some p ->
     exists s, g_scheme (URL_REGEX_match url) = Some s /\ s <> scheme r /\
               scheme r = str_lower rt s) /\
  (forall rt, urlparse rt (lit "HTTP://example.com:80/") [] =
              Ok (example_com (Some 80%Z) (lit "/") None None)).
Proof.
  split; [|intros rt; vm_compute; reflexivity].
  intros rt url r p H Hp Hd. apply urlparse_ok in H as (c & Hc & H).
  apply merge_components_nil in Hc as (_ & _ & ->).
  apply normalize_components_ok in H as (Hs & _ & _ & P & _).
  rewrite Hp in P. apply normalize_port_some in P as [Nd _].
  rewrite (merged_scheme url [] eq_refl) in Hs, Nd.
  destruct (g_scheme (URL_REGEX_match url)) as [s|]; cbn [opt_or_empty] in Hs, Nd.
  - exists s. split; [reflexivity|]. split; [|exact Hs]. intros E. rewrite E in Nd.
    apply (Nd Hd).
  - rewrite Hs in Hd. discriminate Hd.
Qed.

Lemma X24_default_port_case_witness :
  exists s, g_scheme (URL_REGEX_match (lit "HTTPS://example.com:443/")) = Some s /\
            s <> lit "https" /\ lit "https" = str_lower ascii_only s.
Proof.
  apply (proj1 X24_default_port_case ascii_only (lit "HTTPS://example.com:443/")
           {| scheme := lit "https"; userinfo := []; host := lit "example.com";
              port := Some 443%Z; path := lit "/"; query := None; fragment := None |}
           443%Z); vm_compute; reflexivity.
Defined.
